(** * MACS3.Signal.VariantStat

    A shallow embedding of the statistical core of the MACS3 variant caller
    (src/MACS3/Signal/VariantStat.py): the log-likelihood evaluator
    [calculate_ln], the two greedy searches, the heterozygous model
    evaluators and the quality-score converters.

    The Python code computes on C [int]s and [double]s.  Counts and Phred
    scores are modelled as [Z] (the counts of the source are array lengths
    and stay far below the 32-bit limit).  The code is written once, over an
    abstract arithmetic [FloatBase]/[FloatMath], and read in two ways:
    - [exact_base], [exact_math]: exact real arithmetic on [R], where
      [log] and [exp] are the real functions; numeric statements are proved
      here.  [exact_math_ranged] is the same arithmetic with the range check
      of math.exp (OverflowError above [exp_max]); it is used where exp takes
      unbounded arguments (the score converters) and agrees with
      [exact_math] on Phred scores that are not negative;
    - [binary64_base]: IEEE-754 binary64 as implemented by the primitive
      floats, for the operations that exist there (no [log]/[exp]); used
      where rounding decides a statement.

    Python exceptions are values of [exn]; the [while] loops run on fuel. *)

From Stdlib Require Import ZArith List Bool String Reals Lra Lia Floats.
From Stdlib Require Import FunctionalExtensionality.
Import ListNotations.

Set Warnings "-inexact-float".
Local Open Scope Z_scope.

(** ** Outcomes of a call *)

Inductive exn : Type :=
| Exception (msg : string)   (* raise Exception(msg) *)
| AssertionError             (* a failed assert *)
| ValueError                 (* math.log outside its domain *)
| OverflowError              (* math.exp out of range *)
| ZeroDivisionError          (* division by zero *)
| UncheckedRead.             (* array read outside the array (boundscheck is off) *)

Inductive run (A : Type) : Type :=
| Ok (a : A)
| Raise (e : exn)
| OutOfFuel.

Arguments Ok {A} a.
Arguments Raise {A} e.
Arguments OutOfFuel {A}.

Definition bind {A B : Type} (c : run A) (k : A -> run B) : run B :=
  match c with
  | Ok a => k a
  | Raise e => Raise e
  | OutOfFuel => OutOfFuel
  end.

Notation "x <- c ;; k" := (bind c (fun x => k))
  (at level 61, c at next level, right associativity).
Notation "' p <- c ;; k" := (bind c (fun x => let 'p := x in k))
  (at level 61, p pattern, c at next level, right associativity).

(** The outcomes of loop-free arithmetic: a value, or an exception raised
    by an arithmetic operation or an array read. *)
Definition arithmetic_exn (e : exn) : Prop :=
  match e with
  | ValueError | OverflowError | ZeroDivisionError | UncheckedRead => True
  | Exception _ | AssertionError => False
  end.

Definition plain {A : Type} (c : run A) : Prop :=
  match c with
  | Ok _ => True
  | Raise e => arithmetic_exn e
  | OutOfFuel => False
  end.

(** ** The arithmetic of the source *)

Class FloatBase (F : Type) : Type := {
  of_int : Z -> F;            (* int -> double conversion, float(k) *)
  to_int : F -> Z;            (* (int)(x): truncation toward zero *)
  fadd : F -> F -> F;
  fsub : F -> F -> F;
  fmul : F -> F -> F;
  fdiv : F -> F -> F;
  fneg : F -> F;
  is_zero : F -> bool;
  fgt : F -> F -> bool;
  flt : F -> F -> bool;
  fle : F -> F -> bool;
  lit_0_5 : F;                (* 0.5 *)
  lit_0_99 : F;               (* 0.99, the default max_allowed_r *)
  lit_1e_8 : F;               (* 1e-8 *)
  lit_1e_110 : F;             (* 1e-110 *)
  lit_4_34294 : F;            (* 4.34294 *)
  LN10_tenth : F              (* 0.23025850929940458 *)
}.

Class FloatMath (F : Type) : Type := {
  fexp : F -> F;
  exp_in_range : F -> bool;   (* false where math.exp raises OverflowError *)
  flog : F -> F;
  log_in_domain : F -> bool   (* false where math.log raises ValueError *)
}.

Declare Scope float64_scope.
Delimit Scope float64_scope with f64.
Infix "+!" := fadd (at level 50, left associativity) : float64_scope.
Infix "-!" := fsub (at level 50, left associativity) : float64_scope.
Infix "*!" := fmul (at level 40, left associativity) : float64_scope.
Infix ">!" := fgt (at level 70, no associativity) : float64_scope.
Infix "<!" := flt (at level 70, no associativity) : float64_scope.
Infix "<=!" := fle (at level 70, no associativity) : float64_scope.

(** *** Exact real arithmetic *)

Definition Rgtb (x y : R) : bool := if Rgt_dec x y then true else false.
Definition Rltb (x y : R) : bool := if Rlt_dec x y then true else false.
Definition Rleb (x y : R) : bool := if Rle_dec x y then true else false.
Definition Rzerob (x : R) : bool := if Req_dec_T x 0 then true else false.

Definition Rtrunc (x : R) : Z :=
  if Rle_dec 0 x then Int_part x else - Int_part (- x).

#[export] Instance exact_base : FloatBase R := {|
  of_int := IZR;
  to_int := Rtrunc;
  fadd := Rplus;
  fsub := Rminus;
  fmul := Rmult;
  fdiv := Rdiv;
  fneg := Ropp;
  is_zero := Rzerob;
  fgt := Rgtb;
  flt := Rltb;
  fle := Rleb;
  lit_0_5 := 0.5%R;
  lit_0_99 := 0.99%R;
  lit_1e_8 := 1e-8%R;
  lit_1e_110 := 1e-110%R;
  lit_4_34294 := 4.34294%R;
  LN10_tenth := 0.23025850929940458%R
|}.

(** exp and ln on the reals; exp is total here (no overflow). *)
#[export] Instance exact_math : FloatMath R := {|
  fexp := exp;
  exp_in_range := fun _ => true;
  flog := ln;
  log_in_domain := fun x => Rltb 0 x
|}.

(** math.exp raises OverflowError when its result exceeds the largest
    binary64 number, that is for arguments above 0x1.62e42fefa39efp+9 =
    709.78271289338397...; [exact_math] leaves this check out,
    [exact_math_ranged] keeps it. *)
Definition exp_max : R := 709.782712893384%R.

Definition exact_math_ranged : FloatMath R := {|
  fexp := exp;
  exp_in_range := fun x => Rleb x exp_max;
  flog := ln;
  log_in_domain := fun x => Rltb 0 x
|}.

(** The quantities of the error model, as real numbers: the error
    probability 10^(-q/10) of a read of Phred score [q], and the probability
    of what a read shows when [k] of the [tn] reads truly carry top1. *)
Definition error_prob (q : Z) : R :=
  Rtrigo_def.exp (IZR (- q) * 0.23025850929940458)%R.

Definition top1_mass (tn k q : Z) : R :=
  ((1 - error_prob q) * (IZR k / IZR tn)
   + error_prob q * (1 - IZR k / IZR tn))%R.

Definition top2_mass (tn k q : Z) : R :=
  ((1 - error_prob q) * (1 - IZR k / IZR tn)
   + error_prob q * (IZR k / IZR tn))%R.

Definition all_positive (g : Z -> R) (a : list Z) : bool :=
  forallb (fun q => Rltb 0 (g q)) a.

Definition sum_ln (g : Z -> R) (a : list Z) : R :=
  fold_right (fun q s => (ln (g q) + s)%R) 0%R a.

(** The likelihood ratio exp(d) of the score converters, capped at 1 and
    floored at 1e-110 (lines 487-501, 524-533). *)
Definition likelihood_ratio (d : R) : R :=
  let L := Rtrigo_def.exp d in
  let L := if Rgtb L 1 then 1%R else L in
  if Rltb L 1e-110 then 1e-110%R else L.

(** Lower bounds on the real exponential by repeated squaring in fixed
    point: [a / fixed_one <= exp y] gives
    [fixed_square a / fixed_one <= exp (2 y)]. *)
Definition fixed_one : Z := 10 ^ 25.

Definition fixed_square (a : Z) : Z := a * a / fixed_one.

(** *** IEEE-754 binary64 *)

Definition b64_of_int (z : Z) : float :=
  match z with
  | Z0 => PrimFloat.of_uint63 (Uint63.of_Z 0)
  | Zpos _ => PrimFloat.of_uint63 (Uint63.of_Z z)
  | Zneg _ => PrimFloat.opp (PrimFloat.of_uint63 (Uint63.of_Z (- z)))
  end.

Definition b64_to_int (x : float) : Z :=
  match Prim2SF x with
  | S754_finite s m e =>
      let a := if 0 <=? e then Zpos m * 2 ^ e else Zpos m / 2 ^ (- e) in
      if s then - a else a
  | _ => 0
  end.

#[export] Instance binary64_base : FloatBase float := {|
  of_int := b64_of_int;
  to_int := b64_to_int;
  fadd := PrimFloat.add;
  fsub := PrimFloat.sub;
  fmul := PrimFloat.mul;
  fdiv := PrimFloat.div;
  fneg := PrimFloat.opp;
  is_zero := fun x => PrimFloat.eqb x 0%float;
  fgt := fun x y => PrimFloat.ltb y x;
  flt := PrimFloat.ltb;
  fle := PrimFloat.leb;
  lit_0_5 := 0.5%float;
  lit_0_99 := 0x1.fae148p-1%float;
  lit_1e_8 := 1e-8%float;
  lit_1e_110 := 1e-110%float;
  lit_4_34294 := 4.34294%float;
  LN10_tenth := 0.23025850929940458%float
|}.

(** ** Loops *)

(** [for i in range(n)]: the body is run for i = 0, ..., n-1. *)
Definition range (n : Z) : list Z := map Z.of_nat (seq 0 (Z.to_nat n)).

Fixpoint for_loop {A : Type} (body : Z -> A -> run A) (idx : list Z) (acc : A)
  : run A :=
  match idx with
  | [] => Ok acc
  | i :: rest => acc' <- body i acc ;; for_loop body rest acc'
  end.

(** [while guard: body], where the body may [break].  The body returns the
    new state and whether it broke out.  One unit of fuel is used per
    iteration. *)
Fixpoint while_loop {St : Type} (guard : St -> bool)
  (body : St -> run (St * bool)) (fuel : nat) (s : St) : run St :=
  if guard s then
    match fuel with
    | O => OutOfFuel
    | S fuel' =>
        '(s', broke) <- body s ;;
        if broke then Ok s' else while_loop guard body fuel' s'
    end
  else Ok s.

(** A loop over the elements of an array, in order: what
    [for i in range(len(a))] does when its body reads only [a[i]]. *)
Fixpoint for_each {A : Type} (body : Z -> A -> run A) (a : list Z) (acc : A)
  : run A :=
  match a with
  | [] => Ok acc
  | q :: rest => acc' <- body q acc ;; for_each body rest acc'
  end.

(** [a[i]] on an int array. *)
Definition read (a : list Z) (i : Z) : run Z :=
  match nth_error a (Z.to_nat i) with
  | Some q => Ok q
  | None => Raise UncheckedRead
  end.

Section Code.

Context {F : Type} {FB : FloatBase F} {FM : FloatMath F}.
Local Open Scope float64_scope.

(** ** Python's checked operations *)

Definition float_div (x y : F) : run F :=
  if is_zero y then Raise ZeroDivisionError else Ok (fdiv x y).

Definition math_log (x : F) : run F :=
  if log_in_domain x then Ok (flog x) else Raise ValueError.

Definition math_exp (x : F) : run F :=
  if exp_in_range x then Ok (fexp x) else Raise OverflowError.

(** ** calculate_ln (lines 426-470) *)

(** Lines 446-450: the binomial-ratio term. *)
Definition ratio_term (tn : Z) (r : F) (k : Z) (max_allowed_r : F) : run F :=
  if (r >! max_allowed_r) || (r <! of_int 1 -! max_allowed_r) then
    a <- math_log max_allowed_r ;;
    b <- math_log (of_int 1 -! max_allowed_r) ;;
    Ok (of_int k *! a +! of_int (tn - k) *! b)
  else
    a <- math_log r ;;
    b <- math_log (of_int 1 -! r) ;;
    Ok (of_int k *! a +! of_int (tn - k) *! b).

(** Lines 452-460: log C(tn, k), added term by term. *)
Definition binomial_step (tn d : Z) (i : Z) (lnL : F) : run F :=
  q <- float_div (of_int (tn - i)) (of_int (d - i)) ;;
  t <- math_log q ;;
  Ok (lnL +! t).

Definition combinatorial_term (tn k : Z) (lnL : F) : run F :=
  if (k =? 0) || (k =? tn) then Ok lnL
  else
    half <- float_div (of_int tn) (of_int 2) ;;
    if of_int k <=! half then for_loop (binomial_step tn k) (range k) lnL
    else for_loop (binomial_step tn (tn - k)) (range (tn - k)) lnL.

(** Lines 463-464: the term of one read of quality [q] supporting top1. *)
Definition top1_term (tn k : Z) (q : Z) (lnL : F) : run F :=
  e <- math_exp (of_int (- q) *! LN10_tenth) ;;
  x <- float_div (of_int k) (of_int tn) ;;
  y <- float_div (of_int k) (of_int tn) ;;
  t <- math_log ((of_int 1 -! e) *! x +! e *! (of_int 1 -! y)) ;;
  Ok (lnL +! t).

(** Lines 467-468: the term of one read of quality [q] supporting top2. *)
Definition top2_term (tn k : Z) (q : Z) (lnL : F) : run F :=
  e <- math_exp (of_int (- q) *! LN10_tenth) ;;
  x <- float_div (of_int k) (of_int tn) ;;
  y <- float_div (of_int k) (of_int tn) ;;
  t <- math_log ((of_int 1 -! e) *! (of_int 1 -! x) +! e *! y) ;;
  Ok (lnL +! t).

(** The bodies of the loops of lines 462 and 466, reading [me[i]] and
    [ne[i]]. *)
Definition top1_step (tn k : Z) (me : list Z) (i : Z) (lnL : F) : run F :=
  q <- read me i ;; top1_term tn k q lnL.

Definition top2_step (tn k : Z) (ne : list Z) (i : Z) (lnL : F) : run F :=
  q <- read ne i ;; top2_term tn k q lnL.

Definition calculate_ln (m n tn : Z) (me ne : list Z) (r : F) (k : Z)
  (max_allowed_r : F) : run F :=
  let lnL := of_int 0 in
  t <- ratio_term tn r k max_allowed_r ;;
  let lnL := lnL +! t in
  lnL <- combinatorial_term tn k lnL ;;
  lnL <- for_loop (top1_step tn k me) (range m) lnL ;;
  lnL <- for_loop (top2_step tn k ne) (range n) lnL ;;
  Ok lnL.

(** ** The greedy searches *)

(** The decision taken after the three first evaluations (lines 259, 263,
    289 and 317; lines 378, 381, 399 and 419): keep [k0], walk down, walk
    up, or fail. *)
Inductive start : Type := Stay | Down | Up | Inconsistent.

Definition climb_start (d0 d1l d1r : F) : start :=
  if (d0 >! d1l -! lit_1e_8) && (d0 >! d1r -! lit_1e_8) then Stay
  else if d1l >! d0 then Down
  else if d1r >! d0 then Up
  else Inconsistent.

(** *** GreedyMaxFunctionNoAS (lines 324-420) *)

Record walk : Type := { kold : Z; dold : F; btemp : bool }.

(** Lines 385-391. *)
Definition NoAS_down_body (m n tn : Z) (me ne : list Z) (bg_r : F) (s : walk)
  : run (walk * bool) :=
  let knew := kold s - 1 in
  dnew <- calculate_ln m n tn me ne bg_r knew lit_0_99 ;;
  if dnew -! lit_1e_8 <! dold s
  then Ok ({| kold := kold s; dold := dold s; btemp := true |}, true)
  else Ok ({| kold := knew; dold := dnew; btemp := btemp s |}, false).

(** Lines 405-411. *)
Definition NoAS_up_body (m n tn : Z) (me ne : list Z) (bg_r : F) (s : walk)
  : run (walk * bool) :=
  let knew := kold s + 1 in
  dnew <- calculate_ln m n tn me ne bg_r knew lit_0_99 ;;
  if dnew -! lit_1e_8 <! dold s
  then Ok ({| kold := kold s; dold := dold s; btemp := true |}, true)
  else Ok ({| kold := knew; dold := dnew; btemp := btemp s |}, false).

Definition GreedyMaxFunctionNoAS (fuel : nat) (m n tn : Z) (me ne : list Z)
  : run (F * Z) :=
  let btemp0 := false in
  let bg_r := lit_0_5 in
  if tn =? 1 then
    dl <- calculate_ln m n tn me ne bg_r 0 lit_0_99 ;;
    dr <- calculate_ln m n tn me ne bg_r 1 lit_0_99 ;;
    if dl >! dr then Ok (dl, 0) else Ok (dr, 1)
  else if m =? 0 then
    d <- calculate_ln m n tn me ne bg_r m lit_0_99 ;; Ok (d, m)
  else if m =? tn then
    d <- calculate_ln m n tn me ne bg_r m lit_0_99 ;; Ok (d, m)
  else
    let k0 := m in
    d0 <- calculate_ln m n tn me ne bg_r k0 lit_0_99 ;;
    d1l <- calculate_ln m n tn me ne bg_r (k0 - 1) lit_0_99 ;;
    d1r <- calculate_ln m n tn me ne bg_r (k0 + 1) lit_0_99 ;;
    match climb_start d0 d1l d1r with
    | Stay => Ok (d0, k0)
    | Down =>
        s <- while_loop (fun s => kold s >=? 1)
               (NoAS_down_body m n tn me ne bg_r) fuel
               {| kold := k0 - 1; dold := d1l; btemp := btemp0 |} ;;
        if btemp s then Ok (dold s, kold s) else Ok (dold s, kold s)
    | Up =>
        s <- while_loop (fun s => kold s <=? tn - 1)
               (NoAS_up_body m n tn me ne bg_r) fuel
               {| kold := k0 + 1; dold := d1r; btemp := btemp0 |} ;;
        if btemp s then Ok (dold s, kold s) else Ok (dold s, kold s)
    | Inconsistent => Raise (Exception "error in GreedyMaxFunctionNoAS")
    end.

(** *** GreedyMaxFunctionAS (lines 203-318) *)

Record walkAS : Type :=
  { koldAS : Z; doldAS : F; roldAS : F; btempAS : bool }.

(** Lines 268-278. *)
Definition AS_down_body (m n tn : Z) (me ne : list Z) (max_allowed_ar : F)
  (s : walkAS) : run (walkAS * bool) :=
  let knew := koldAS s - 1 in
  rnew <- float_div (of_int knew) (of_int tn) ;;
  dnew <- calculate_ln m n tn me ne rnew knew max_allowed_ar ;;
  if dnew -! lit_1e_8 <! doldAS s
  then Ok ({| koldAS := koldAS s; doldAS := doldAS s; roldAS := roldAS s;
              btempAS := true |}, true)
  else Ok ({| koldAS := knew; doldAS := dnew; roldAS := rnew;
              btempAS := btempAS s |}, false).

(** Lines 296-307. *)
Definition AS_up_body (m n tn : Z) (me ne : list Z) (max_allowed_ar : F)
  (s : walkAS) : run (walkAS * bool) :=
  let knew := koldAS s + 1 in
  rnew <- float_div (of_int knew) (of_int tn) ;;
  dnew <- calculate_ln m n tn me ne rnew knew max_allowed_ar ;;
  if dnew -! lit_1e_8 <! doldAS s
  then Ok ({| koldAS := koldAS s; doldAS := doldAS s; roldAS := roldAS s;
              btempAS := true |}, true)
  else Ok ({| koldAS := knew; doldAS := dnew; roldAS := rnew;
              btempAS := btempAS s |}, false).

Definition GreedyMaxFunctionAS (fuel : nat) (m n tn : Z) (me ne : list Z)
  (max_allowed_ar : F) : run (F * Z * F) :=
  if negb (m + n =? tn) then Raise AssertionError
  else
  let btemp0 := false in
  if tn =? 1 then
    dl <- calculate_ln m n tn me ne (of_int 0) 0 lit_0_99 ;;
    dr <- calculate_ln m n tn me ne (of_int 1) 1 lit_0_99 ;;
    if dl >! dr then Ok (dl, 0, of_int 0) else Ok (dr, 1, of_int 1)
  else if m =? 0 then
    d <- calculate_ln m n tn me ne (of_int 0) m max_allowed_ar ;;
    Ok (d, m, of_int 1 -! max_allowed_ar)
  else if m =? tn then
    d <- calculate_ln m n tn me ne (of_int 1) m max_allowed_ar ;;
    Ok (d, m, max_allowed_ar)
  else
    let k0 := m in
    r0 <- float_div (of_int k0) (of_int tn) ;;
    d0 <- calculate_ln m n tn me ne r0 k0 max_allowed_ar ;;
    r1l <- float_div (of_int (k0 - 1)) (of_int tn) ;;
    d1l <- calculate_ln m n tn me ne r1l (k0 - 1) max_allowed_ar ;;
    r1r <- float_div (of_int (k0 + 1)) (of_int tn) ;;
    d1r <- calculate_ln m n tn me ne r1r (k0 + 1) max_allowed_ar ;;
    match climb_start d0 d1l d1r with
    | Stay =>
        ar <- float_div (of_int k0) (of_int tn) ;;
        Ok (d0, k0, ar)
    | Down =>
        r <- float_div (of_int (k0 - 1)) (of_int tn) ;;
        s <- while_loop (fun s => koldAS s >? 1)
               (AS_down_body m n tn me ne max_allowed_ar) fuel
               {| koldAS := k0 - 1; doldAS := d1l; roldAS := r;
                  btempAS := btemp0 |} ;;
        if btempAS s then Ok (doldAS s, koldAS s, roldAS s)
        else Ok (doldAS s, koldAS s, roldAS s)
    | Up =>
        r <- float_div (of_int (k0 + 1)) (of_int tn) ;;
        s <- while_loop (fun s => koldAS s <? tn - 1)
               (AS_up_body m n tn me ne max_allowed_ar) fuel
               {| koldAS := k0 + 1; doldAS := d1r; roldAS := r;
                  btempAS := btemp0 |} ;;
        if btempAS s then Ok (doldAS s, koldAS s, roldAS s)
        else Ok (doldAS s, koldAS s, roldAS s)
    | Inconsistent => Raise (Exception "error in GreedyMaxFunctionAS")
    end.

(** ** The heterozygous model evaluators *)

(** [a.shape[0]] *)
Definition shape0 (a : list Z) : Z := Z.of_nat (List.length a).

(** CalModel_Heter_noAS (lines 67-125); returns (lnL, BIC). *)
Definition CalModel_Heter_noAS (fuel : nat)
  (top1_bq_T top1_bq_C top2_bq_T top2_bq_C : list Z) : run (F * F) :=
  let lnL := of_int 0 in
  let BIC := of_int 0 in
  let tn_T := shape0 top1_bq_T + shape0 top2_bq_T in
  '(lnL, BIC) <-
    (if tn_T =? 0 then
       Raise (Exception "Total number of treatment reads is 0!")
     else
       '(lnL_T, k_T) <- GreedyMaxFunctionNoAS fuel (shape0 top1_bq_T)
                          (shape0 top2_bq_T) tn_T top1_bq_T top2_bq_T ;;
       Ok (lnL +! lnL_T, BIC +! of_int (-2) *! lnL_T)) ;;
  let tn_C := shape0 top1_bq_C + shape0 top2_bq_C in
  '(lnL, BIC) <-
    (if tn_C =? 0 then Ok (lnL, BIC)
     else
       '(lnL_C, k_C) <- GreedyMaxFunctionNoAS fuel (shape0 top1_bq_C)
                          (shape0 top2_bq_C) tn_C top1_bq_C top2_bq_C ;;
       Ok (lnL +! lnL_C, BIC +! of_int (-2) *! lnL_C)) ;;
  BIC <-
    (if tn_T =? 0 then
       p <- math_log (of_int tn_C) ;; Ok (BIC +! p)
     else if tn_C =? 0 then
       p <- math_log (of_int tn_T) ;; Ok (BIC +! p)
     else
       p <- math_log (of_int tn_T) ;;
       q <- math_log (of_int tn_C) ;;
       Ok (BIC +! (p +! q))) ;;
  Ok (lnL, BIC).

(** CalModel_Heter_AS (lines 131-197); returns (lnL, BIC). *)
Definition CalModel_Heter_AS (fuel : nat)
  (top1_bq_T top1_bq_C top2_bq_T top2_bq_C : list Z) (max_allowed_ar : F)
  : run (F * F) :=
  let lnL := of_int 0 in
  let BIC := of_int 0 in
  let tn_T := shape0 top1_bq_T + shape0 top2_bq_T in
  '(lnL, BIC) <-
    (if tn_T =? 0 then
       Raise (Exception "Total number of treatment reads is 0!")
     else
       '(lnL_T, k_T, AS_alleleratio) <-
         GreedyMaxFunctionAS fuel (shape0 top1_bq_T) (shape0 top2_bq_T)
           tn_T top1_bq_T top2_bq_T max_allowed_ar ;;
       Ok (lnL +! lnL_T, BIC +! of_int (-2) *! lnL_T)) ;;
  let tn_C := shape0 top1_bq_C + shape0 top2_bq_C in
  '(lnL, BIC) <-
    (if tn_C =? 0 then Ok (lnL, BIC)
     else
       '(lnL_C, k_C) <- GreedyMaxFunctionNoAS fuel (shape0 top1_bq_C)
                          (shape0 top2_bq_C) tn_C top1_bq_C top2_bq_C ;;
       Ok (lnL +! lnL_C, BIC +! of_int (-2) *! lnL_C)) ;;
  BIC <-
    (if tn_T =? 0 then
       p <- math_log (of_int tn_C) ;; Ok (BIC +! p)
     else if tn_C =? 0 then
       p <- math_log (of_int tn_T) ;; Ok (BIC +! of_int 2 *! p)
     else
       p <- math_log (of_int tn_T) ;;
       q <- math_log (of_int tn_C) ;;
       Ok (BIC +! (of_int 2 *! p +! q))) ;;
  Ok (lnL, BIC).

(** ** The score converters *)

(** calculate_GQ (lines 474-510). *)
Definition calculate_GQ (lnL1 lnL2 lnL3 : F) : run Z :=
  let L1 := of_int 1 in
  L2 <- math_exp (lnL2 -! lnL1) ;;
  L3 <- math_exp (lnL3 -! lnL1) ;;
  let L2 := if L2 >! of_int 1 then of_int 1 else L2 in
  let L3 := if L3 >! of_int 1 then of_int 1 else L3 in
  let L2 := if L2 <! lit_1e_110 then lit_1e_110 else L2 in
  let L3 := if L3 <! lit_1e_110 then lit_1e_110 else L3 in
  let s := L1 +! L2 +! L3 in
  tmp <- float_div (L2 +! L3) s ;;
  if tmp >! lit_1e_110 then
    t <- math_log tmp ;; Ok (to_int (fneg lit_4_34294 *! t))
  else Ok 255.

(** calculate_GQ_heterASsig (lines 514-542). *)
Definition calculate_GQ_heterASsig (lnL1 lnL2 : F) : run Z :=
  let L1 := of_int 1 in
  L2 <- math_exp (lnL2 -! lnL1) ;;
  let L2 := if L2 >! of_int 1 then of_int 1 else L2 in
  let L2 := if L2 <! lit_1e_110 then lit_1e_110 else L2 in
  let s := L1 +! L2 in
  tmp <- float_div L2 s ;;
  if tmp >! lit_1e_110 then
    t <- math_log tmp ;; Ok (to_int (fneg lit_4_34294 *! t))
  else Ok 255.

End Code.

(** ** The homozygous model evaluator *)

(** math.log1p, which CalModel_Homo alone uses. *)
Class FloatLog1p (F : Type) : Type := {
  flog1p : F -> F;
  log1p_in_domain : F -> bool   (* false where math.log1p raises ValueError *)
}.

#[export] Instance exact_log1p : FloatLog1p R := {|
  flog1p := fun x => ln (1 + x);
  log1p_in_domain := fun x => Rltb (-1) x
|}.

(** The sum of [g q] over the elements [q] of an array. *)
Definition sum_of (g : Z -> R) (a : list Z) : R :=
  fold_right (fun q s => (g q + s)%R) 0%R a.

Section Homozygous.

Context {F : Type} {FB : FloatBase F} {FM : FloatMath F} {FL : FloatLog1p F}.
Local Open Scope float64_scope.

Definition math_log1p (x : F) : run F :=
  if log1p_in_domain x then Ok (flog1p x) else Raise ValueError.

(** Lines 51 and 53: the term of one read of quality [q] supporting top1. *)
Definition homo_top1_term (q : Z) (lnL : F) : run F :=
  e <- math_exp (of_int (- q) *! LN10_tenth) ;;
  t <- math_log1p (fneg e) ;;
  Ok (lnL +! t).

(** Lines 56 and 58: the term of one read of quality [q] supporting top2. *)
Definition homo_top2_term (q : Z) (lnL : F) : run F :=
  e <- math_exp (of_int (- q) *! LN10_tenth) ;;
  t <- math_log e ;;
  Ok (lnL +! t).

Definition homo_top1_step (a : list Z) (i : Z) (lnL : F) : run F :=
  q <- read a i ;; homo_top1_term q lnL.

Definition homo_top2_step (a : list Z) (i : Z) (lnL : F) : run F :=
  q <- read a i ;; homo_top2_term q lnL.

(** CalModel_Homo (lines 36-61); returns (lnL, BIC). *)
Definition CalModel_Homo (top1_bq_T top1_bq_C top2_bq_T top2_bq_C : list Z)
  : run (F * F) :=
  let lnL := of_int 0 in
  lnL <- for_loop (homo_top1_step top1_bq_T) (range (shape0 top1_bq_T)) lnL ;;
  lnL <- for_loop (homo_top1_step top1_bq_C) (range (shape0 top1_bq_C)) lnL ;;
  lnL <- for_loop (homo_top2_step top2_bq_T) (range (shape0 top2_bq_T)) lnL ;;
  lnL <- for_loop (homo_top2_step top2_bq_C) (range (shape0 top2_bq_C)) lnL ;;
  let BIC := of_int (-2) *! lnL in
  Ok (lnL, BIC).

End Homozygous.

(** The product of the first [j] ratios (N - i) / (D - i) of the loop that
    adds log C(tn, k). *)
Definition falling_ratio (N D j : nat) : R :=
  (INR (fact N) / INR (fact (N - j)) / (INR (fact D) / INR (fact (D - j))))%R.

(** The ratio that the binomial-ratio term is computed from (lines
    447-450). *)
Definition clamped_ratio (r max_allowed_r : R) : R :=
  if Rgtb r max_allowed_r || Rltb r (1 - max_allowed_r) then max_allowed_r
  else r.

(** The quantities of the homozygous model, as real numbers: the
    probability 1 - 10^(-q/10) that a read of Phred score [q] is right, and
    the logarithm -q ln(10)/10 of the probability that it is wrong. *)
Definition homo_top1_mass (q : Z) : R := (1 - error_prob q)%R.

Definition homo_top2_cost (q : Z) : R :=
  (IZR (- q) * 0.23025850929940458)%R.

(** * Proofs *)

(** ** The outcome monad *)

Lemma bind_Ok_inv {A B : Type} (c : run A) (k : A -> run B) (b : B) :
  bind c k = Ok b -> exists a, c = Ok a /\ k a = Ok b.
Proof. destruct c as [a| |]; simpl; intros H; [eauto | discriminate..]. Qed.

Lemma bind_fuel_inv {A B : Type} (c : run A) (k : A -> run B) :
  bind c k = OutOfFuel ->
  c = OutOfFuel \/ exists a, c = Ok a /\ k a = OutOfFuel.
Proof.
  destruct c as [a| |]; simpl; intros H;
    [right; exists a; auto | discriminate | auto].
Qed.

Lemma bind_Raise_inv {A B : Type} (c : run A) (k : A -> run B) (e : exn) :
  bind c k = Raise e ->
  c = Raise e \/ exists a, c = Ok a /\ k a = Raise e.
Proof.
  destruct c as [a| |]; simpl; intros H;
    [right; exists a; auto | left; congruence | discriminate].
Qed.

(** ** Exact arithmetic: the comparisons and the checked operations *)

Section ExactArithmetic.

Local Open Scope R_scope.

Lemma Rgtb_true (x y : R) : Rgtb x y = true <-> x > y.
Proof. unfold Rgtb. destruct (Rgt_dec x y); split; (easy || lra). Qed.

Lemma Rgtb_false (x y : R) : Rgtb x y = false <-> x <= y.
Proof. unfold Rgtb. destruct (Rgt_dec x y); split; (easy || lra). Qed.

Lemma Rltb_true (x y : R) : Rltb x y = true <-> x < y.
Proof. unfold Rltb. destruct (Rlt_dec x y); split; (easy || lra). Qed.

Lemma Rltb_false (x y : R) : Rltb x y = false <-> y <= x.
Proof. unfold Rltb. destruct (Rlt_dec x y); split; (easy || lra). Qed.

Lemma Rleb_true (x y : R) : Rleb x y = true <-> x <= y.
Proof. unfold Rleb. destruct (Rle_dec x y); split; (easy || lra). Qed.

Lemma Rleb_false (x y : R) : Rleb x y = false <-> y < x.
Proof. unfold Rleb. destruct (Rle_dec x y); split; (easy || lra). Qed.

Lemma Rzerob_true (x : R) : Rzerob x = true <-> x = 0.
Proof. unfold Rzerob. destruct (Req_dec_T x 0); split; easy. Qed.

Lemma Rzerob_false (x : R) : Rzerob x = false <-> x <> 0.
Proof. unfold Rzerob. destruct (Req_dec_T x 0); split; easy. Qed.

Lemma math_log_pos (x : R) : 0 < x -> math_log x = Ok (ln x).
Proof.
  intros Hx. unfold math_log. cbn.
  now rewrite (proj2 (Rltb_true 0 x) Hx).
Qed.

Lemma math_log_nonpos (x : R) : x <= 0 -> math_log x = Raise ValueError.
Proof.
  intros Hx. unfold math_log. cbn.
  now rewrite (proj2 (Rltb_false 0 x) Hx).
Qed.

Lemma math_exp_exact (x : R) : math_exp x = Ok (exp x).
Proof. reflexivity. Qed.

Lemma float_div_nonzero (x y : R) : y <> 0 -> float_div x y = Ok (x / y).
Proof.
  intros Hy. unfold float_div. cbn.
  now rewrite (proj2 (Rzerob_false y) Hy).
Qed.

Lemma float_div_zero (x : R) : float_div x 0 = Raise ZeroDivisionError.
Proof.
  unfold float_div. cbn. now rewrite (proj2 (Rzerob_true 0) eq_refl).
Qed.

End ExactArithmetic.

(** ** calculate_ln in exact arithmetic *)

Section ExactLikelihood.

Local Open Scope R_scope.

(** Outside the band the term is built from [max_allowed_r] alone, on
    either side. *)
Lemma ratio_term_clamped (tn k : Z) (r max_allowed_r : R) :
  0 < max_allowed_r < 1 ->
  r > max_allowed_r \/ r < 1 - max_allowed_r ->
  ratio_term tn r k max_allowed_r
  = Ok (IZR k * ln max_allowed_r + IZR (tn - k) * ln (1 - max_allowed_r)).
Proof.
  intros Hmax Hout. unfold ratio_term. cbn.
  assert (Hc : Rgtb r max_allowed_r || Rltb r (1 - max_allowed_r) = true).
  { apply orb_true_iff. destruct Hout as [H|H];
      [left; now apply Rgtb_true | right; now apply Rltb_true]. }
  rewrite Hc.
  rewrite (math_log_pos max_allowed_r) by lra. cbn.
  rewrite (math_log_pos (1 - max_allowed_r)) by lra. reflexivity.
Qed.

Lemma ratio_term_in_band (tn k : Z) (r max_allowed_r : R) :
  1 - max_allowed_r <= r <= max_allowed_r ->
  0 < r < 1 ->
  ratio_term tn r k max_allowed_r
  = Ok (IZR k * ln r + IZR (tn - k) * ln (1 - r)).
Proof.
  intros Hband Hr. unfold ratio_term. cbn.
  assert (Hc : Rgtb r max_allowed_r || Rltb r (1 - max_allowed_r) = false).
  { apply orb_false_iff. split; [apply Rgtb_false | apply Rltb_false]; lra. }
  rewrite Hc.
  rewrite (math_log_pos r) by lra. cbn.
  rewrite (math_log_pos (1 - r)) by lra. reflexivity.
Qed.

(** C1, at r = 0.001 < 1 - 0.99 with k = 0 and tn = 1: the code adds
    0*log(0.99) + 1*log(1 - 0.99), the term of the upper boundary 0.99,
    which is not the term 0*log(0.01) + 1*log(1 - 0.01) of the nearest
    boundary 1 - 0.99 = 0.01. *)
Theorem ratio_term_below_band_uses_upper_boundary :
  ratio_term 1 0.001 0 0.99 = Ok (0 * ln 0.99 + 1 * ln (1 - 0.99))
  /\ 0 * ln 0.99 + 1 * ln (1 - 0.99)
     <> 0 * ln (1 - 0.99) + 1 * ln (1 - (1 - 0.99)).
Proof.
  split.
  - rewrite ratio_term_clamped by lra. reflexivity.
  - assert (H : ln (1 - 0.99) < ln (1 - (1 - 0.99))) by (apply ln_increasing; lra).
    lra.
Qed.

End ExactLikelihood.

(** ** Loops *)

Lemma bind_Ok_r {A : Type} (c : run A) : bind c Ok = c.
Proof. now destruct c. Qed.

Lemma in_range (n i : Z) : In i (range n) <-> 0 <= i < n.
Proof.
  unfold range. rewrite in_map_iff. split.
  - intros (j & <- & Hj). apply in_seq in Hj. lia.
  - intros Hi. exists (Z.to_nat i). split; [lia|]. apply in_seq. lia.
Qed.

Lemma for_loop_read_offset {A : Type} (f : Z -> A -> run A)
  (pre a : list Z) (acc : A) :
  for_loop (fun i acc => q <- read (pre ++ a) i ;; f q acc)
    (map Z.of_nat (seq (List.length pre) (List.length a))) acc
  = for_each f a acc.
Proof.
  revert pre acc. induction a as [|q a IH]; intros pre acc; [reflexivity|].
  cbn [List.length seq map for_loop for_each].
  unfold read at 1. rewrite Nat2Z.id.
  rewrite nth_error_app2 by lia. rewrite Nat.sub_diag. cbn [nth_error bind].
  destruct (f q acc) as [acc'| |]; cbn [bind]; [|reflexivity..].
  specialize (IH (pre ++ [q]) acc').
  rewrite <- app_assoc, length_app in IH. cbn [List.length app] in IH.
  rewrite Nat.add_1_r in IH. exact IH.
Qed.

(** A [for i in range(len(a))] loop whose body reads [a[i]] visits the
    elements of [a] in order. *)
Lemma for_loop_read {A : Type} (f : Z -> A -> run A) (a : list Z) (acc : A) :
  for_loop (fun i acc => q <- read a i ;; f q acc) (range (shape0 a)) acc
  = for_each f a acc.
Proof.
  unfold range, shape0. rewrite Nat2Z.id.
  exact (for_loop_read_offset f [] a acc).
Qed.

Lemma for_loop_total {A : Type} (body : Z -> A -> run A) (idx : list Z) :
  (forall i acc, In i idx -> exists acc', body i acc = Ok acc') ->
  forall acc, exists v, for_loop body idx acc = Ok v.
Proof.
  induction idx as [|i idx IH]; intros Hbody acc; cbn [for_loop].
  - eauto.
  - destruct (Hbody i acc (or_introl eq_refl)) as [acc' ->]. cbn [bind].
    apply IH. intros j a Hj. apply Hbody. now right.
Qed.

Lemma for_loop_no_fuel {A : Type} (body : Z -> A -> run A) (idx : list Z) :
  (forall i acc, body i acc <> OutOfFuel) ->
  forall acc, for_loop body idx acc <> OutOfFuel.
Proof.
  intros Hbody. induction idx as [|i idx IH]; intros acc; cbn [for_loop].
  - discriminate.
  - specialize (Hbody i acc). destruct (body i acc); cbn [bind];
      [apply IH | discriminate | congruence].
Qed.

(** With [m] and [n] the lengths of the arrays, the two read loops of
    [calculate_ln] visit every element once (any arithmetic). *)
Lemma calculate_ln_for_each {F : Type} {FB : FloatBase F} {FM : FloatMath F}
  (tn : Z) (me ne : list Z) (r : F) (k : Z) (max_allowed_r : F) :
  calculate_ln (shape0 me) (shape0 ne) tn me ne r k max_allowed_r
  = (t <- ratio_term tn r k max_allowed_r ;;
     lnL <- combinatorial_term tn k (fadd (of_int 0) t) ;;
     lnL <- for_each (top1_term tn k) me lnL ;;
     for_each (top2_term tn k) ne lnL).
Proof.
  unfold calculate_ln.
  destruct (ratio_term tn r k max_allowed_r) as [t| |]; cbn [bind]; try reflexivity.
  destruct (combinatorial_term tn k (fadd (of_int 0) t)) as [l1| |];
    cbn [bind]; try reflexivity.
  unfold top1_step, top2_step. rewrite for_loop_read.
  destruct (for_each (top1_term tn k) me l1) as [l2| |]; cbn [bind];
    try reflexivity.
  rewrite for_loop_read. apply bind_Ok_r.
Qed.

Section ExactReadTerms.

Local Open Scope R_scope.

Lemma top1_term_exact (tn k q : Z) (lnL : R) :
  tn <> 0%Z ->
  top1_term tn k q lnL
  = if Rltb 0 (top1_mass tn k q) then Ok (lnL + ln (top1_mass tn k q))
    else Raise ValueError.
Proof.
  intros Htn. unfold top1_term. rewrite math_exp_exact. cbn [bind].
  assert (Hz : IZR tn <> 0) by (now apply not_0_IZR).
  cbn [of_int exact_base]. rewrite float_div_nonzero by exact Hz.
  cbn [bind]. unfold math_log, top1_mass, error_prob.
  cbn [log_in_domain flog exact_math fadd fsub fmul exact_base LN10_tenth
       of_int].
  destruct (Rltb 0 _); reflexivity.
Qed.

Lemma top2_term_exact (tn k q : Z) (lnL : R) :
  tn <> 0%Z ->
  top2_term tn k q lnL
  = if Rltb 0 (top2_mass tn k q) then Ok (lnL + ln (top2_mass tn k q))
    else Raise ValueError.
Proof.
  intros Htn. unfold top2_term. rewrite math_exp_exact. cbn [bind].
  assert (Hz : IZR tn <> 0) by (now apply not_0_IZR).
  cbn [of_int exact_base]. rewrite float_div_nonzero by exact Hz.
  cbn [bind]. unfold math_log, top2_mass, error_prob.
  cbn [log_in_domain flog exact_math fadd fsub fmul exact_base LN10_tenth
       of_int].
  destruct (Rltb 0 _); reflexivity.
Qed.

Lemma for_each_log_terms (step : Z -> R -> run R) (g : Z -> R) (a : list Z) :
  (forall q acc, step q acc
                 = if Rltb 0 (g q) then Ok (acc + ln (g q))
                   else Raise ValueError) ->
  forall acc, for_each step a acc
              = if all_positive g a then Ok (acc + sum_ln g a)
                else Raise ValueError.
Proof.
  intros Hstep. induction a as [|q a IH]; intros acc;
    cbn [for_each all_positive forallb sum_ln fold_right].
  - f_equal. lra.
  - rewrite Hstep. destruct (Rltb 0 (g q)); cbn [bind andb]; [|reflexivity].
    rewrite IH. fold (all_positive g a). fold (sum_ln g a).
    destruct (all_positive g a); [f_equal; lra | reflexivity].
Qed.

End ExactReadTerms.

(** ** The symmetry of calculate_ln *)

Section Symmetry.

Local Open Scope R_scope.

Lemma error_prob_pos (q : Z) : 0 < error_prob q.
Proof. apply exp_pos. Qed.

Lemma error_prob_upper (q : Z) :
  (0 <= q)%Z -> error_prob q <= / (1 + IZR q * 0.23025850929940458).
Proof.
  intros Hq. unfold error_prob. rewrite opp_IZR.
  replace (- IZR q * 0.23025850929940458)
    with (- (IZR q * 0.23025850929940458)) by lra.
  rewrite exp_Ropp.
  assert (H0 : 0 <= IZR q) by (now apply IZR_le).
  pose proof (exp_ineq1_le (IZR q * 0.23025850929940458)) as H1.
  apply Rinv_le_contravar; [nra | exact H1].
Qed.

Lemma error_prob_lt_1 (q : Z) : (1 <= q)%Z -> error_prob q < 1.
Proof.
  intros Hq. assert (H1 : 1 <= IZR q) by (now apply IZR_le).
  pose proof (error_prob_upper q ltac:(lia)) as Hu.
  assert (H2 : / (1 + IZR q * 0.23025850929940458) < 1).
  { rewrite <- Rinv_1 at 2. apply Rinv_lt_contravar; nra. }
  lra.
Qed.

Lemma mass_mirror_top1 (tn k q : Z) :
  tn <> 0%Z -> top1_mass tn (tn - k) q = top2_mass tn k q.
Proof.
  intros Htn. unfold top1_mass, top2_mass. rewrite minus_IZR.
  assert (Hz : IZR tn <> 0) by (now apply not_0_IZR). field. exact Hz.
Qed.

Lemma mass_mirror_top2 (tn k q : Z) :
  tn <> 0%Z -> top2_mass tn (tn - k) q = top1_mass tn k q.
Proof.
  intros Htn. unfold top1_mass, top2_mass. rewrite minus_IZR.
  assert (Hz : IZR tn <> 0) by (now apply not_0_IZR). field. exact Hz.
Qed.

(** log C(tn, tn-k) is computed by the very loop that computes
    log C(tn, k). *)
Lemma combinatorial_term_mirror (tn k : Z) (lnL : R) :
  (0 <= k <= tn)%Z ->
  combinatorial_term tn (tn - k) lnL = combinatorial_term tn k lnL.
Proof.
  intros Hk. unfold combinatorial_term.
  destruct (Z.eqb_spec k 0) as [->|Hk0].
  { rewrite Z.sub_0_r, Z.eqb_refl, orb_true_r. reflexivity. }
  destruct (Z.eqb_spec k tn) as [->|Hkt].
  { rewrite Z.sub_diag. reflexivity. }
  rewrite (proj2 (Z.eqb_neq (tn - k) 0)) by lia.
  rewrite (proj2 (Z.eqb_neq (tn - k) tn)) by lia.
  cbn [orb of_int exact_base fle].
  rewrite float_div_nonzero by lra. cbn [bind].
  assert (Hsub : IZR (tn - k) = IZR tn - IZR k) by apply minus_IZR.
  destruct (Rleb (IZR (tn - k)) (IZR tn / 2)) eqn:E1;
    destruct (Rleb (IZR k) (IZR tn / 2)) eqn:E2.
  - apply Rleb_true in E1. apply Rleb_true in E2.
    assert (Heq : IZR k = IZR (tn - k)) by lra.
    apply eq_IZR in Heq. rewrite <- Heq. reflexivity.
  - reflexivity.
  - replace (tn - (tn - k))%Z with k by lia. reflexivity.
  - apply Rleb_false in E1. apply Rleb_false in E2. lra.
Qed.

(** The swap of C8, with [k] replaced by [tn - k] as well, for a ratio
    inside the band. *)
Lemma calculate_ln_mirror (tn : Z) (topQ secondQ : list Z)
  (r : R) (k : Z) (max_allowed_r : R) :
  tn = (shape0 topQ + shape0 secondQ)%Z ->
  (0 <= k <= tn)%Z ->
  max_allowed_r < 1 ->
  1 - max_allowed_r <= r <= max_allowed_r ->
  calculate_ln (shape0 topQ) (shape0 secondQ) tn topQ secondQ r k
    max_allowed_r
  = calculate_ln (shape0 secondQ) (shape0 topQ) tn secondQ topQ (1 - r)
      (tn - k) max_allowed_r.
Proof.
  intros Htn Hk Hmax Hband.
  rewrite !calculate_ln_for_each.
  rewrite (ratio_term_in_band tn k r) by lra.
  rewrite (ratio_term_in_band tn (tn - k) (1 - r)) by lra.
  cbn [bind].
  replace (IZR (tn - k) * ln (1 - r) + IZR (tn - (tn - k)) * ln (1 - (1 - r)))
    with (IZR k * ln r + IZR (tn - k) * ln (1 - r)).
  2:{ replace (tn - (tn - k))%Z with k by lia.
      replace (1 - (1 - r)) with r by lra. lra. }
  rewrite combinatorial_term_mirror by exact Hk.
  destruct (combinatorial_term tn k _) as [l1| |]; cbn [bind]; try reflexivity.
  destruct (Z.eq_dec tn 0) as [Hz|Hz].
  { unfold shape0 in Htn.
    destruct topQ; [|cbn [List.length] in Htn; lia].
    destruct secondQ; [|cbn [List.length] in Htn; lia]. reflexivity. }
  rewrite (for_each_log_terms _ (top1_mass tn k))
    by (intros; now apply top1_term_exact).
  rewrite (for_each_log_terms (top1_term tn (tn - k)) (top2_mass tn k)).
  2:{ intros q acc. rewrite top1_term_exact by exact Hz.
      now rewrite mass_mirror_top1. }
  destruct (all_positive (top1_mass tn k) topQ) eqn:E1;
    destruct (all_positive (top2_mass tn k) secondQ) eqn:E2; cbn [bind].
  - rewrite (for_each_log_terms _ (top2_mass tn k))
      by (intros; now apply top2_term_exact).
    rewrite (for_each_log_terms (top2_term tn (tn - k)) (top1_mass tn k)).
    2:{ intros q acc. rewrite top2_term_exact by exact Hz.
        now rewrite mass_mirror_top2. }
    rewrite E1, E2. f_equal. lra.
  - rewrite (for_each_log_terms _ (top2_mass tn k))
      by (intros; now apply top2_term_exact).
    now rewrite E2.
  - rewrite (for_each_log_terms (top2_term tn (tn - k)) (top1_mass tn k)).
    2:{ intros q acc. rewrite top2_term_exact by exact Hz.
        now rewrite mass_mirror_top2. }
    now rewrite E1.
  - reflexivity.
Qed.

(** C8, as stated (the same [k] on both sides), fails: one top1 read of
    Phred score 10, no top2 read, r = 0.5 and k = 1. *)
Lemma calculate_ln_swap_same_k_fails :
  calculate_ln 1 0 1 [10%Z] [] 0.5 1 0.99
  <> calculate_ln 0 1 1 [] [10%Z] (1 - 0.5) 1 0.99.
Proof.
  change (calculate_ln 1 0 1 [10%Z] [] 0.5 1 0.99)
    with (calculate_ln (shape0 [10%Z]) (shape0 []) 1 [10%Z] [] 0.5 1 0.99).
  change (calculate_ln 0 1 1 [] [10%Z] (1 - 0.5) 1 0.99)
    with (calculate_ln (shape0 []) (shape0 [10%Z]) 1 [] [10%Z] (1 - 0.5) 1
            0.99).
  rewrite !calculate_ln_for_each.
  rewrite !ratio_term_in_band by lra. cbn [bind].
  unfold combinatorial_term. cbn [Z.eqb Pos.eqb orb bind for_each].
  rewrite top1_term_exact, top2_term_exact by lia.
  pose proof (error_prob_pos 10) as Hpos.
  pose proof (error_prob_upper 10 ltac:(lia)) as Hup.
  assert (Hhalf : error_prob 10 < 1 / 2).
  { eapply Rle_lt_trans; [exact Hup|].
    apply Rmult_lt_reg_r with (1 + 10 * 0.23025850929940458); [lra|].
    rewrite Rinv_l by lra. lra. }
  assert (H1 : top1_mass 1 1 10 = 1 - error_prob 10)
    by (unfold top1_mass; lra).
  assert (H2 : top2_mass 1 1 10 = error_prob 10)
    by (unfold top2_mass; lra).
  rewrite H1, H2.
  rewrite (proj2 (Rltb_true 0 (1 - error_prob 10))) by lra.
  rewrite (proj2 (Rltb_true 0 (error_prob 10))) by lra.
  assert (Hln : ln (error_prob 10) < ln (1 - error_prob 10))
    by (apply ln_increasing; lra).
  cbn [bind]. change (1 - 1)%Z with 0%Z.
  intros Heq. injection Heq as Heq.
  replace (1 - 0.5) with 0.5 in Heq by lra. lra.
Qed.

(** C8, amended: calculate_ln is unchanged when (m, topQ) and (n, secondQ)
    are swapped, r is replaced by 1 - r and k by tn - k, for every ratio r
    inside the band [1 - maxAllowedRatio, maxAllowedRatio] with
    maxAllowedRatio < 1; both calls raise or both return the same value. *)
Theorem calculate_ln_swap_symmetry (m n tn : Z) (topQ secondQ : list Z)
  (r : R) (k : Z) (max_allowed_r : R) :
  m = shape0 topQ -> n = shape0 secondQ -> tn = (m + n)%Z ->
  (0 <= k <= tn)%Z ->
  max_allowed_r < 1 ->
  1 - max_allowed_r <= r <= max_allowed_r ->
  calculate_ln m n tn topQ secondQ r k max_allowed_r
  = calculate_ln n m tn secondQ topQ (1 - r) (tn - k) max_allowed_r.
Proof.
  intros -> -> Htn Hk Hmax Hband. now apply calculate_ln_mirror.
Qed.

Lemma calculate_ln_swap_symmetry_witness :
  calculate_ln 1 2 3 [30%Z] [20%Z; 0%Z] 0.3 1 0.99
  = calculate_ln 2 1 3 [20%Z; 0%Z] [30%Z] (1 - 0.3) (3 - 1) 0.99.
Proof.
  apply calculate_ln_swap_symmetry;
    [reflexivity | reflexivity | reflexivity | lia | lra | lra].
Defined.

End Symmetry.

(** ** Numeric bounds on exp and ln *)

Section NumericBounds.

Local Open Scope R_scope.

Lemma fixed_one_pos : 0 < IZR fixed_one.
Proof. apply IZR_lt. reflexivity. Qed.

Lemma fixed_square_nonneg (a : Z) : (0 <= a)%Z -> (0 <= fixed_square a)%Z.
Proof.
  intros Ha. unfold fixed_square. apply Z.div_pos; [nia | reflexivity].
Qed.

Lemma fixed_square_sound (a : Z) (y : R) :
  (0 <= a)%Z ->
  IZR a / IZR fixed_one <= exp y ->
  IZR (fixed_square a) / IZR fixed_one <= exp (2 * y).
Proof.
  intros Ha Hy. pose proof fixed_one_pos as HS.
  replace (2 * y) with (y + y) by lra. rewrite exp_plus.
  assert (Hfloor : (fixed_square a * fixed_one <= a * a)%Z).
  { unfold fixed_square.
    pose proof (Z.mul_div_le (a * a) fixed_one ltac:(reflexivity)). lia. }
  apply IZR_le in Hfloor. rewrite !mult_IZR in Hfloor.
  assert (H0 : 0 <= IZR a) by (now apply IZR_le).
  assert (Hu : 0 <= IZR a / IZR fixed_one).
  { apply Rmult_le_pos; [exact H0|]. left. now apply Rinv_0_lt_compat. }
  apply Rle_trans with (IZR a / IZR fixed_one * (IZR a / IZR fixed_one)).
  - apply Rmult_le_reg_r with (IZR fixed_one * IZR fixed_one); [nra|].
    replace (IZR a / IZR fixed_one * (IZR a / IZR fixed_one)
             * (IZR fixed_one * IZR fixed_one)) with (IZR a * IZR a)
      by (field; lra).
    replace (IZR (fixed_square a) / IZR fixed_one
             * (IZR fixed_one * IZR fixed_one))
      with (IZR (fixed_square a) * IZR fixed_one) by (field; lra).
    exact Hfloor.
  - apply Rmult_le_compat; assumption.
Qed.

Lemma fixed_square_iter (n : nat) (a : Z) (y : R) :
  (0 <= a)%Z ->
  IZR a / IZR fixed_one <= exp y ->
  (0 <= Nat.iter n fixed_square a)%Z
  /\ IZR (Nat.iter n fixed_square a) / IZR fixed_one <= exp (2 ^ n * y).
Proof.
  intros Ha Hy. induction n as [|n [IH0 IH]].
  - cbn [Nat.iter pow]. split; [exact Ha|]. now rewrite Rmult_1_l.
  - cbn [Nat.iter]. split; [now apply fixed_square_nonneg|].
    replace (2 ^ S n * y) with (2 * (2 ^ n * y)) by (cbn [pow]; lra).
    now apply fixed_square_sound.
Qed.

Lemma fixed_one_value : fixed_one = 10000000000000000000000000%Z.
Proof. reflexivity. Qed.

Lemma exp_ge_fixed (n : nat) (a0 : Z) (y : R) :
  (0 <= a0)%Z ->
  IZR a0 / IZR fixed_one <= 1 + y ->
  IZR (Nat.iter n fixed_square a0) / IZR fixed_one <= exp (2 ^ n * y).
Proof.
  intros Ha Hy. apply fixed_square_iter; [exact Ha|].
  eapply Rle_trans; [exact Hy | apply exp_ineq1_le].
Qed.

(** 24 squarings, from 1 + 2.3025876 / 2^24. *)
Lemma exp_gt_10 : 10 < exp 2.3025876.
Proof.
  pose proof (exp_ge_fixed 24 10000001372449159622192382
                (2.3025876 / 16777216) ltac:(lia)) as H.
  assert (Hr : Nat.iter 24 fixed_square 10000001372449159622192382%Z
               = 100000234899950683699456472%Z) by (vm_compute; reflexivity).
  rewrite Hr, fixed_one_value in H.
  replace (2 ^ 24 * (2.3025876 / 16777216)) with 2.3025876 in H by lra.
  assert (H1 : 10000001372449159622192382 / 10000000000000000000000000
               <= 1 + 2.3025876 / 16777216) by lra.
  specialize (H H1). lra.
Qed.

Lemma ln_10_upper : ln 10 < 2.3025876.
Proof.
  apply exp_lt_inv. rewrite exp_ln by lra. exact exp_gt_10.
Qed.

End NumericBounds.

(** ** The score converters in exact arithmetic *)

Section ExactScores.

Local Open Scope R_scope.

Lemma Rtrunc_between (z : Z) (v : R) :
  0 <= IZR z -> IZR z <= v < IZR z + 1 -> Rtrunc v = z.
Proof.
  intros Hz Hv. unfold Rtrunc. destruct (Rle_dec 0 v) as [_|Hn]; [|lra].
  symmetry. apply Int_part_spec. lra.
Qed.

Lemma Rtrunc_range (v lo hi : R) (zlo zhi : Z) :
  0 <= v -> IZR zlo <= v -> v < IZR zhi + 1 -> (zlo <= Rtrunc v <= zhi)%Z.
Proof.
  intros H0 Hlo Hhi. unfold Rtrunc. destruct (Rle_dec 0 v) as [_|Hn]; [|lra].
  destruct (base_Int_part v) as [H1 H2]. split.
  - apply Z.lt_succ_r. apply lt_IZR. rewrite succ_IZR. lra.
  - apply Z.lt_succ_r. apply lt_IZR. rewrite succ_IZR. lra.
Qed.

Lemma likelihood_ratio_bounds (d : R) : 1e-110 <= likelihood_ratio d <= 1.
Proof.
  unfold likelihood_ratio.
  destruct (Rgtb (exp d) 1) eqn:E1.
  - rewrite (proj2 (Rltb_false 1 1e-110)) by lra. lra.
  - apply Rgtb_false in E1.
    destruct (Rltb (exp d) 1e-110) eqn:E2; [lra|].
    apply Rltb_false in E2. lra.
Qed.

Lemma calculate_GQ_exact (lnL1 lnL2 lnL3 : R) :
  calculate_GQ lnL1 lnL2 lnL3
  = let L2 := likelihood_ratio (lnL2 - lnL1) in
    let L3 := likelihood_ratio (lnL3 - lnL1) in
    Ok (Rtrunc (- (4.34294) * ln ((L2 + L3) / (1 + L2 + L3)))).
Proof.
  unfold calculate_GQ. rewrite !math_exp_exact. cbn [bind].
  cbn [of_int fgt flt fadd fsub fneg fmul lit_1e_110 lit_4_34294 exact_base].
  fold (likelihood_ratio (lnL2 - lnL1)). fold (likelihood_ratio (lnL3 - lnL1)).
  pose proof (likelihood_ratio_bounds (lnL2 - lnL1)) as H2.
  pose proof (likelihood_ratio_bounds (lnL3 - lnL1)) as H3.
  set (L2 := likelihood_ratio (lnL2 - lnL1)) in *.
  set (L3 := likelihood_ratio (lnL3 - lnL1)) in *.
  rewrite float_div_nonzero by lra. cbn [bind].
  assert (Hs : 0 < / (1 + L2 + L3)) by (apply Rinv_0_lt_compat; lra).
  assert (Htmp : 1e-110 < (L2 + L3) / (1 + L2 + L3)).
  { apply Rmult_lt_reg_r with (1 + L2 + L3); [lra|].
    replace ((L2 + L3) / (1 + L2 + L3) * (1 + L2 + L3)) with (L2 + L3)
      by (field; lra).
    nra. }
  rewrite (proj2 (Rgtb_true _ _)) by lra.
  rewrite math_log_pos by lra. reflexivity.
Qed.

Lemma calculate_GQ_heterASsig_exact (lnL1 lnL2 : R) :
  calculate_GQ_heterASsig lnL1 lnL2
  = let L2 := likelihood_ratio (lnL2 - lnL1) in
    if Rgtb (L2 / (1 + L2)) 1e-110
    then Ok (Rtrunc (- (4.34294) * ln (L2 / (1 + L2))))
    else Ok 255%Z.
Proof.
  unfold calculate_GQ_heterASsig. rewrite !math_exp_exact. cbn [bind].
  cbn [of_int fgt flt fadd fsub fneg fmul lit_1e_110 lit_4_34294 exact_base].
  fold (likelihood_ratio (lnL2 - lnL1)).
  pose proof (likelihood_ratio_bounds (lnL2 - lnL1)) as H2.
  set (L2 := likelihood_ratio (lnL2 - lnL1)) in *.
  rewrite float_div_nonzero by lra. cbn [bind].
  destruct (Rgtb (L2 / (1 + L2)) 1e-110) eqn:E; [|reflexivity].
  apply Rgtb_true in E.
  rewrite math_log_pos by lra. reflexivity.
Qed.

(** The Phred transform of a mass above 1e-110 and at most 2/3 lies
    strictly between 0 and 1100. *)
Lemma phred_bounds (tmp : R) :
  1e-110 < tmp <= 2 / 3 -> 0 < - (4.34294) * ln tmp < 1100.
Proof.
  intros [Hlo Hhi].
  assert (Hneg : ln tmp < 0).
  { rewrite <- ln_1. apply ln_increasing; lra. }
  assert (Hfloor : ln 1e-110 = - (110 * ln 10)).
  { replace 1e-110 with (/ 10 ^ 110) by lra.
    rewrite ln_Rinv by (apply pow_lt; lra).
    rewrite ln_pow by lra.
    replace (INR 110) with 110 by (rewrite INR_IZR_INZ; reflexivity).
    reflexivity. }
  assert (Hln : ln 1e-110 < ln tmp) by (apply ln_increasing; lra).
  pose proof ln_10_upper. lra.
Qed.

Lemma ln_10_lower : 2 < ln 10.
Proof.
  apply exp_lt_inv. rewrite exp_ln by lra.
  replace 2 with (1 + 1) by lra. rewrite exp_plus.
  pose proof exp_le_3. pose proof (exp_pos 1). nra.
Qed.

Lemma ln_2_upper : ln 2 < 1.
Proof.
  apply exp_lt_inv. rewrite exp_ln by lra.
  pose proof (exp_ineq1 1 ltac:(lra)). lra.
Qed.

Lemma ln_three_halves : 0.2303 < ln (3 / 2) < 0.4605.
Proof.
  split.
  - apply exp_lt_inv. rewrite exp_ln by lra.
    pose proof (exp_ineq1_le (- (0.2303))) as H. rewrite exp_Ropp in H.
    pose proof (exp_pos 0.2303) as Hp.
    pose proof (Rinv_r (exp 0.2303) ltac:(lra)) as Hinv.
    nra.
  - apply exp_lt_inv. rewrite exp_ln by lra.
    replace 0.4605 with (0.23025 + 0.23025) by lra. rewrite exp_plus.
    pose proof (exp_ineq1_le 0.23025). nra.
Qed.

Lemma likelihood_ratio_0 : likelihood_ratio 0 = 1.
Proof.
  unfold likelihood_ratio. rewrite exp_0.
  rewrite (proj2 (Rgtb_false 1 1)) by lra.
  now rewrite (proj2 (Rltb_false 1 1e-110)) by lra.
Qed.

(** Three equal log-likelihoods: the mass is 2/3 and the score is the
    integer part of 4.34294 * ln(3/2) = 1.76..., that is 1. *)
Lemma calculate_GQ_equal (lnL : R) : calculate_GQ lnL lnL lnL = Ok 1%Z.
Proof.
  rewrite calculate_GQ_exact. cbv zeta.
  replace (lnL - lnL) with 0 by lra. rewrite likelihood_ratio_0.
  f_equal. apply Rtrunc_between; [lra|].
  replace ((1 + 1) / (1 + 1 + 1)) with (/ (3 / 2)) by lra.
  rewrite ln_Rinv by lra. pose proof ln_three_halves. simpl IZR. lra.
Qed.

(** C7, as stated, fails: the score of three equal log-likelihoods is not
    2. *)
Lemma calculate_GQ_equal_is_not_2 : calculate_GQ 0 0 0 <> Ok 2%Z.
Proof. rewrite calculate_GQ_equal. discriminate. Qed.

(** C7, amended: for every real lnL, calculate_GQ(lnL, lnL, lnL) returns 1,
    the integer part (truncation, not rounding) of -4.34294*log(2/3). *)
Theorem calculate_GQ_equal_likelihoods (lnL : R) :
  calculate_GQ lnL lnL lnL = Ok (Rtrunc (- (4.34294) * ln (2 / 3)))
  /\ Rtrunc (- (4.34294) * ln (2 / 3)) = 1%Z.
Proof.
  assert (H : Rtrunc (- (4.34294) * ln (2 / 3)) = 1%Z).
  { apply Rtrunc_between; [lra|].
    replace (2 / 3) with (/ (3 / 2)) by lra.
    rewrite ln_Rinv by lra. pose proof ln_three_halves. simpl IZR. lra. }
  split; [|exact H]. rewrite H. apply calculate_GQ_equal.
Qed.

Lemma exp_200_lower : 1e60 <= exp 200.
Proof.
  pose proof (exp_ge_fixed 8 17812500000000000000000000 (200 / 256) ltac:(lia)) as H.
  assert (Hz : (1000000000000000000000000000000000000000000000000000000000000 * fixed_one
                <= Nat.iter 8 fixed_square 17812500000000000000000000)%Z)
    by (now vm_compute).
  remember (Nat.iter 8 fixed_square 17812500000000000000000000%Z) as r eqn:Hr.
  clear Hr. apply IZR_le in Hz. rewrite mult_IZR in Hz.
  rewrite fixed_one_value in *.
  replace (2 ^ 8 * (200 / 256)) with 200 in H by lra.
  assert (H1 : 17812500000000000000000000 / 10000000000000000000000000 <= 1 + 200 / 256) by lra.
  specialize (H H1). lra.
Qed.

Lemma mass_upper (x : R) : 0 < x -> 0 < x / (1 + x) < x.
Proof.
  intros Hx. assert (Hs : 0 < / (1 + x)) by (apply Rinv_0_lt_compat; lra).
  assert (H1 : / (1 + x) < 1).
  { rewrite <- Rinv_1 at 2. apply Rinv_lt_contravar; lra. }
  unfold Rdiv. split; nra.
Qed.

Lemma mass_monotone (x b : R) : 0 < x <= b -> x / (1 + x) <= b / (1 + b).
Proof.
  intros Hx. apply Rmult_le_reg_r with ((1 + x) * (1 + b)); [nra|].
  replace (x / (1 + x) * ((1 + x) * (1 + b))) with (x * (1 + b))
    by (field; lra).
  replace (b / (1 + b) * ((1 + x) * (1 + b))) with (b * (1 + x))
    by (field; lra).
  lra.
Qed.

(** C2, as stated, fails: with the two alternative models 200 log units
    below the first, calculate_GQ returns a score above 255. *)
Lemma calculate_GQ_exceeds_255 :
  exists z : Z, calculate_GQ 0 (-200) (-200) = Ok z /\ (255 < z)%Z.
Proof.
  rewrite calculate_GQ_exact. cbv zeta. eexists. split; [reflexivity|].
  pose proof (likelihood_ratio_bounds (-200 - 0)) as Hb.
  assert (HL : likelihood_ratio (-200 - 0) <= 1e-60).
  { unfold likelihood_ratio.
    replace (-200 - 0) with (- (200)) by lra. rewrite exp_Ropp.
    pose proof exp_200_lower as He. pose proof (exp_pos 200) as Hp.
    assert (Hi : / exp 200 <= 1e-60).
    { replace 1e-60 with (/ 1e60) by lra.
      apply Rinv_le_contravar; lra. }
    rewrite (proj2 (Rgtb_false (/ exp 200) 1)) by lra.
    destruct (Rltb (/ exp 200) 1e-110); lra. }
  set (L := likelihood_ratio (-200 - 0)) in *.
  replace (1 + L + L) with (1 + (L + L)) by lra.
  destruct (mass_upper (L + L) ltac:(lra)) as [Hm0 Hm1].
  pose proof (mass_monotone (L + L) 2 ltac:(lra)) as Hm2.
  assert (Hlow : 1e-110 < (L + L) / (1 + (L + L))).
  { apply Rmult_lt_reg_r with (1 + (L + L)); [lra|].
    replace ((L + L) / (1 + (L + L)) * (1 + (L + L))) with (L + L)
      by (field; lra).
    nra. }
  pose proof (phred_bounds ((L + L) / (1 + (L + L))) ltac:(lra)) as Hv.
  assert (Hln : ln ((L + L) / (1 + (L + L))) <= ln (2 * / 10 ^ 60)).
  { destruct (Rle_lt_or_eq_dec ((L + L) / (1 + (L + L))) (2 * / 10 ^ 60))
      as [Hlt|Heq]; [lra | left; apply ln_increasing; lra
                     | right; now rewrite Heq]. }
  rewrite ln_mult in Hln by (try apply Rinv_0_lt_compat; try apply pow_lt; lra).
  rewrite ln_Rinv in Hln by (apply pow_lt; lra).
  rewrite ln_pow in Hln by lra.
  replace (INR 60) with 60 in Hln by (rewrite INR_IZR_INZ; reflexivity).
  pose proof ln_10_lower. pose proof ln_2_upper.
  enough (256 <= Rtrunc (- (4.34294) * ln ((L + L) / (1 + (L + L))))
          <= 1099)%Z by lia.
  apply (Rtrunc_range _ 0 0); simpl IZR; lra.
Qed.

Lemma mass_le_two_thirds (L2 L3 : R) :
  1e-110 <= L2 <= 1 -> 1e-110 <= L3 <= 1 ->
  1e-110 < (L2 + L3) / (1 + L2 + L3) <= 2 / 3.
Proof.
  intros H2 H3. replace (1 + L2 + L3) with (1 + (L2 + L3)) by lra.
  pose proof (mass_monotone (L2 + L3) 2 ltac:(lra)) as Hm. split; [|lra].
  apply Rmult_lt_reg_r with (1 + (L2 + L3)); [lra|].
  replace ((L2 + L3) / (1 + (L2 + L3)) * (1 + (L2 + L3))) with (L2 + L3)
    by (field; lra).
  nra.
Qed.

(** Inside the range of math.exp the converters are those of the arithmetic
    without the check; outside they raise OverflowError. *)
Lemma calculate_GQ_ranged (lnL1 lnL2 lnL3 : R) :
  calculate_GQ (FM := exact_math_ranged) lnL1 lnL2 lnL3
  = if Rleb (lnL2 - lnL1) exp_max && Rleb (lnL3 - lnL1) exp_max
    then calculate_GQ (FM := exact_math) lnL1 lnL2 lnL3
    else Raise OverflowError.
Proof.
  unfold calculate_GQ, math_exp.
  cbn [exp_in_range exact_math_ranged exact_math fsub exact_base].
  destruct (Rleb (lnL2 - lnL1) exp_max); cbn [andb bind]; [|reflexivity].
  destruct (Rleb (lnL3 - lnL1) exp_max); reflexivity.
Qed.

Lemma calculate_GQ_heterASsig_ranged (lnL1 lnL2 : R) :
  calculate_GQ_heterASsig (FM := exact_math_ranged) lnL1 lnL2
  = if Rleb (lnL2 - lnL1) exp_max
    then calculate_GQ_heterASsig (FM := exact_math) lnL1 lnL2
    else Raise OverflowError.
Proof.
  unfold calculate_GQ_heterASsig, math_exp.
  cbn [exp_in_range exact_math_ranged exact_math fsub exact_base].
  destruct (Rleb (lnL2 - lnL1) exp_max); reflexivity.
Qed.

(** C2, amended: in exact arithmetic with the range check of math.exp, for
    all inputs, calculate_GQ raises OverflowError when lnL2 - lnL1 or
    lnL3 - lnL1 exceeds the largest argument of exp, and otherwise returns
    the integer part of -4.34294*log(mass); calculate_GQ_heterASsig raises
    OverflowError when lnL2 - lnL1 exceeds it, and otherwise returns the
    integer part of -4.34294*log(mass) when the mass is above 1e-110 and
    255 when it is not.  The scores lie in [0, 1099], not in [0, 255]: 255
    is a fallback value, not a bound. *)
Theorem score_converters_range (lnL1 lnL2 lnL3 : R) :
  let L2 := likelihood_ratio (lnL2 - lnL1) in
  let L3 := likelihood_ratio (lnL3 - lnL1) in
  let GQ := Rtrunc (- (4.34294) * ln ((L2 + L3) / (1 + L2 + L3))) in
  let ASsig := if Rgtb (L2 / (1 + L2)) 1e-110
               then Rtrunc (- (4.34294) * ln (L2 / (1 + L2)))
               else 255%Z in
  calculate_GQ (FM := exact_math_ranged) lnL1 lnL2 lnL3
  = (if Rleb (lnL2 - lnL1) exp_max && Rleb (lnL3 - lnL1) exp_max
     then Ok GQ else Raise OverflowError)
  /\ calculate_GQ_heterASsig (FM := exact_math_ranged) lnL1 lnL2
     = (if Rleb (lnL2 - lnL1) exp_max then Ok ASsig else Raise OverflowError)
  /\ (0 <= GQ <= 1099)%Z
  /\ (0 <= ASsig <= 1099)%Z.
Proof.
  intros L2 L3 GQ ASsig.
  pose proof (likelihood_ratio_bounds (lnL2 - lnL1)) as H2.
  pose proof (likelihood_ratio_bounds (lnL3 - lnL1)) as H3.
  fold L2 in H2. fold L3 in H3.
  split; [|split; [|split]].
  - rewrite calculate_GQ_ranged, calculate_GQ_exact. reflexivity.
  - rewrite calculate_GQ_heterASsig_ranged, calculate_GQ_heterASsig_exact.
    cbv zeta. fold L2. unfold ASsig.
    destruct (Rleb (lnL2 - lnL1) exp_max); [|reflexivity].
    destruct (Rgtb (L2 / (1 + L2)) 1e-110); reflexivity.
  - unfold GQ.
    pose proof (phred_bounds _ (mass_le_two_thirds L2 L3 H2 H3)) as Hv.
    apply (Rtrunc_range _ 0 0); simpl IZR; lra.
  - unfold ASsig. destruct (Rgtb (L2 / (1 + L2)) 1e-110) eqn:E; [|lia].
    apply Rgtb_true in E.
    pose proof (mass_monotone L2 1 ltac:(lra)) as Hm.
    pose proof (phred_bounds (L2 / (1 + L2)) ltac:(lra)) as Hv.
    apply (Rtrunc_range _ 0 0); simpl IZR; lra.
Qed.

End ExactScores.

(** ** The while loop *)

Section WhileLoop.

Context {St : Type} (guard : St -> bool) (body : St -> run (St * bool)).

(** Fuel equal to a variant that each unbroken iteration lowers is enough. *)
Lemma while_loop_fuel (variant : St -> nat) :
  (forall s, guard s = true -> (0 < variant s)%nat) ->
  (forall s s', guard s = true -> body s = Ok (s', false) ->
                (variant s' < variant s)%nat) ->
  (forall s, body s <> OutOfFuel) ->
  forall fuel s, (variant s <= fuel)%nat ->
                 while_loop guard body fuel s <> OutOfFuel.
Proof.
  intros Hpos Hdec Hbody.
  induction fuel as [|fuel IH]; intros s Hs; cbn [while_loop].
  - destruct (guard s) eqn:G; [|discriminate].
    specialize (Hpos s G). lia.
  - destruct (guard s) eqn:G; [|discriminate].
    specialize (Hbody s). specialize (Hdec s).
    destruct (body s) as [[s' broke]| |]; cbn [bind];
      [|discriminate|congruence].
    destruct broke; [discriminate|].
    apply IH. specialize (Hdec s' G eq_refl). lia.
Qed.

(** The invariant rule: [Inv] is kept by the unbroken iterations, [Post]
    holds after a [break] and when the guard fails. *)
Lemma while_loop_invariant (Inv Post : St -> Prop) :
  (forall s s', Inv s -> guard s = true -> body s = Ok (s', false) -> Inv s') ->
  (forall s s', Inv s -> guard s = true -> body s = Ok (s', true) -> Post s') ->
  (forall s, Inv s -> guard s = false -> Post s) ->
  forall fuel s s', Inv s -> while_loop guard body fuel s = Ok s' -> Post s'.
Proof.
  intros Hstep Hbreak Hexit.
  induction fuel as [|fuel IH]; intros s s' HI; cbn [while_loop];
    destruct (guard s) eqn:G; intros H;
    try (injection H as <-; now apply Hexit); try discriminate.
  destruct (body s) as [[s1 broke]| |] eqn:B; cbn [bind] in H;
    try discriminate.
  destruct broke.
  - injection H as <-. now apply (Hbreak s).
  - apply (IH s1); [now apply (Hstep s)|exact H].
Qed.

(** An exception of the loop is an exception of its body. *)
Lemma while_loop_raise (fuel : nat) (s : St) (e : exn) :
  while_loop guard body fuel s = Raise e -> exists s0, body s0 = Raise e.
Proof.
  revert s. induction fuel as [|fuel IH]; intros s; cbn [while_loop];
    destruct (guard s); intros H; try discriminate.
  destruct (body s) as [[s1 broke]| |] eqn:B; cbn [bind] in H;
    try discriminate.
  - destruct broke; [discriminate|]. now apply (IH s1).
  - injection H as <-. now exists s.
Qed.

(** With enough fuel the loop returns when its body returns. *)
Lemma while_loop_returns (Inv : St -> Prop) (variant : St -> nat) :
  (forall s, guard s = true -> (0 < variant s)%nat) ->
  (forall s, Inv s -> guard s = true ->
             exists s' broke, body s = Ok (s', broke)
                              /\ (broke = false ->
                                  Inv s' /\ (variant s' < variant s)%nat)) ->
  forall fuel s, Inv s -> (variant s <= fuel)%nat ->
                 exists s', while_loop guard body fuel s = Ok s'.
Proof.
  intros Hpos Hbody.
  induction fuel as [|fuel IH]; intros s HI Hs; cbn [while_loop];
    destruct (guard s) eqn:G; eauto.
  - specialize (Hpos s G). lia.
  - destruct (Hbody s HI G) as (s1 & broke & -> & Hnext). cbn [bind].
    destruct broke; [eauto|].
    destruct (Hnext eq_refl) as [HI1 Hv]. apply IH; [exact HI1|lia].
Qed.

End WhileLoop.

(** ** calculate_ln is loop-free arithmetic (any arithmetic) *)

Lemma plain_bind {A B : Type} (c : run A) (k : A -> run B) :
  plain c -> (forall a, plain (k a)) -> plain (bind c k).
Proof. destruct c; cbn; auto. Qed.

Lemma plain_no_fuel {A : Type} (c : run A) : plain c -> c <> OutOfFuel.
Proof. destruct c; cbn; [discriminate.. | intros []]. Qed.

Lemma plain_no_Exception {A : Type} (c : run A) (msg : string) :
  plain c -> c <> Raise (Exception msg).
Proof.
  destruct c as [a|e|]; cbn; [discriminate| |intros []].
  intros He Heq. injection Heq as ->. exact He.
Qed.

Lemma plain_for_loop {A : Type} (body : Z -> A -> run A) (idx : list Z) :
  (forall i acc, plain (body i acc)) ->
  forall acc, plain (for_loop body idx acc).
Proof.
  intros Hbody. induction idx as [|i idx IH]; intros acc; cbn [for_loop].
  - exact I.
  - apply plain_bind; [apply Hbody | exact IH].
Qed.

Section PlainCode.

Context {F : Type} {FB : FloatBase F} {FM : FloatMath F}.

Lemma plain_float_div (x y : F) : plain (float_div x y).
Proof. unfold float_div. destruct (is_zero y); exact I. Qed.

Lemma plain_math_log (x : F) : plain (math_log x).
Proof. unfold math_log. destruct (log_in_domain x); exact I. Qed.

Lemma plain_math_exp (x : F) : plain (math_exp x).
Proof. unfold math_exp. destruct (exp_in_range x); exact I. Qed.

Lemma plain_read (a : list Z) (i : Z) : plain (read a i).
Proof. unfold read. destruct (nth_error a (Z.to_nat i)); exact I. Qed.

Create HintDb plain.

#[local] Hint Resolve plain_float_div plain_math_log plain_math_exp
  plain_read : plain.

Ltac plain_steps :=
  repeat first
    [ exact I
    | apply plain_bind; [solve [auto with plain] | intros ?]
    | apply plain_for_loop; intros ? ?
    | match goal with |- plain (if ?b then _ else _) => destruct b end ].

Lemma plain_ratio_term (tn : Z) (r : F) (k : Z) (max_allowed_r : F) :
  plain (ratio_term tn r k max_allowed_r).
Proof. unfold ratio_term. plain_steps. Qed.

Lemma plain_binomial_step (tn d i : Z) (lnL : F) :
  plain (binomial_step tn d i lnL).
Proof. unfold binomial_step. plain_steps. Qed.

Lemma plain_combinatorial_term (tn k : Z) (lnL : F) :
  plain (combinatorial_term tn k lnL).
Proof.
  unfold combinatorial_term. plain_steps; apply plain_binomial_step.
Qed.

Lemma plain_top1_step (tn k : Z) (me : list Z) (i : Z) (lnL : F) :
  plain (top1_step tn k me i lnL).
Proof. unfold top1_step, top1_term. plain_steps. Qed.

Lemma plain_top2_step (tn k : Z) (ne : list Z) (i : Z) (lnL : F) :
  plain (top2_step tn k ne i lnL).
Proof. unfold top2_step, top2_term. plain_steps. Qed.

Lemma plain_calculate_ln (m n tn : Z) (me ne : list Z) (r : F) (k : Z)
  (max_allowed_r : F) :
  plain (calculate_ln m n tn me ne r k max_allowed_r).
Proof.
  unfold calculate_ln.
  apply plain_bind; [apply plain_ratio_term | intros t].
  apply plain_bind; [apply plain_combinatorial_term | intros l1].
  apply plain_bind;
    [apply plain_for_loop; intros; apply plain_top1_step | intros l2].
  apply plain_bind;
    [apply plain_for_loop; intros; apply plain_top2_step | intros l3].
  exact I.
Qed.

End PlainCode.

(** ** The walks of the greedy searches (any arithmetic) *)

Section Walks.

Context {F : Type} {FB : FloatBase F} {FM : FloatMath F}.
Local Open Scope float64_scope.

Lemma NoAS_down_body_inv (m n tn : Z) (me ne : list Z) (bg_r : F)
  (s s' : walk) (broke : bool) :
  NoAS_down_body m n tn me ne bg_r s = Ok (s', broke) ->
  exists dnew,
    calculate_ln m n tn me ne bg_r (kold s - 1) lit_0_99 = Ok dnew
    /\ (dnew -! lit_1e_8 <! dold s) = broke
    /\ s' = if broke
            then {| kold := kold s; dold := dold s; btemp := true |}
            else {| kold := kold s - 1; dold := dnew; btemp := btemp s |}.
Proof.
  unfold NoAS_down_body. intros H.
  apply bind_Ok_inv in H as (dnew & Hd & H). exists dnew.
  split; [exact Hd|].
  destruct (dnew -! lit_1e_8 <! dold s); injection H as <- <-; auto.
Qed.

Lemma NoAS_up_body_inv (m n tn : Z) (me ne : list Z) (bg_r : F)
  (s s' : walk) (broke : bool) :
  NoAS_up_body m n tn me ne bg_r s = Ok (s', broke) ->
  exists dnew,
    calculate_ln m n tn me ne bg_r (kold s + 1) lit_0_99 = Ok dnew
    /\ (dnew -! lit_1e_8 <! dold s) = broke
    /\ s' = if broke
            then {| kold := kold s; dold := dold s; btemp := true |}
            else {| kold := kold s + 1; dold := dnew; btemp := btemp s |}.
Proof.
  unfold NoAS_up_body. intros H.
  apply bind_Ok_inv in H as (dnew & Hd & H). exists dnew.
  split; [exact Hd|].
  destruct (dnew -! lit_1e_8 <! dold s); injection H as <- <-; auto.
Qed.

Lemma AS_down_body_inv (m n tn : Z) (me ne : list Z) (max_allowed_ar : F)
  (s s' : walkAS) (broke : bool) :
  AS_down_body m n tn me ne max_allowed_ar s = Ok (s', broke) ->
  exists rnew dnew,
    float_div (of_int (koldAS s - 1)) (of_int tn) = Ok rnew
    /\ calculate_ln m n tn me ne rnew (koldAS s - 1) max_allowed_ar = Ok dnew
    /\ (dnew -! lit_1e_8 <! doldAS s) = broke
    /\ s' = if broke
            then {| koldAS := koldAS s; doldAS := doldAS s;
                    roldAS := roldAS s; btempAS := true |}
            else {| koldAS := koldAS s - 1; doldAS := dnew; roldAS := rnew;
                    btempAS := btempAS s |}.
Proof.
  unfold AS_down_body. intros H.
  apply bind_Ok_inv in H as (rnew & Hr & H).
  apply bind_Ok_inv in H as (dnew & Hd & H). exists rnew, dnew.
  split; [exact Hr|]. split; [exact Hd|].
  destruct (dnew -! lit_1e_8 <! doldAS s); injection H as <- <-; auto.
Qed.

Lemma AS_up_body_inv (m n tn : Z) (me ne : list Z) (max_allowed_ar : F)
  (s s' : walkAS) (broke : bool) :
  AS_up_body m n tn me ne max_allowed_ar s = Ok (s', broke) ->
  exists rnew dnew,
    float_div (of_int (koldAS s + 1)) (of_int tn) = Ok rnew
    /\ calculate_ln m n tn me ne rnew (koldAS s + 1) max_allowed_ar = Ok dnew
    /\ (dnew -! lit_1e_8 <! doldAS s) = broke
    /\ s' = if broke
            then {| koldAS := koldAS s; doldAS := doldAS s;
                    roldAS := roldAS s; btempAS := true |}
            else {| koldAS := koldAS s + 1; doldAS := dnew; roldAS := rnew;
                    btempAS := btempAS s |}.
Proof.
  unfold AS_up_body. intros H.
  apply bind_Ok_inv in H as (rnew & Hr & H).
  apply bind_Ok_inv in H as (dnew & Hd & H). exists rnew, dnew.
  split; [exact Hr|]. split; [exact Hd|].
  destruct (dnew -! lit_1e_8 <! doldAS s); injection H as <- <-; auto.
Qed.

Lemma plain_NoAS_down_body (m n tn : Z) (me ne : list Z) (bg_r : F)
  (s : walk) : plain (NoAS_down_body m n tn me ne bg_r s).
Proof.
  unfold NoAS_down_body.
  apply plain_bind; [apply plain_calculate_ln | intros d].
  destruct (d -! lit_1e_8 <! dold s); exact I.
Qed.

Lemma plain_NoAS_up_body (m n tn : Z) (me ne : list Z) (bg_r : F)
  (s : walk) : plain (NoAS_up_body m n tn me ne bg_r s).
Proof.
  unfold NoAS_up_body.
  apply plain_bind; [apply plain_calculate_ln | intros d].
  destruct (d -! lit_1e_8 <! dold s); exact I.
Qed.

Lemma plain_AS_down_body (m n tn : Z) (me ne : list Z) (max_allowed_ar : F)
  (s : walkAS) : plain (AS_down_body m n tn me ne max_allowed_ar s).
Proof.
  unfold AS_down_body.
  apply plain_bind; [apply plain_float_div | intros r].
  apply plain_bind; [apply plain_calculate_ln | intros d].
  destruct (d -! lit_1e_8 <! doldAS s); exact I.
Qed.

Lemma plain_AS_up_body (m n tn : Z) (me ne : list Z) (max_allowed_ar : F)
  (s : walkAS) : plain (AS_up_body m n tn me ne max_allowed_ar s).
Proof.
  unfold AS_up_body.
  apply plain_bind; [apply plain_float_div | intros r].
  apply plain_bind; [apply plain_calculate_ln | intros d].
  destruct (d -! lit_1e_8 <! doldAS s); exact I.
Qed.

(** Each walk needs at most as many iterations as the distance of its
    start from the end of the range. *)
Lemma NoAS_down_fuel (m n tn : Z) (me ne : list Z) (bg_r : F)
  (fuel : nat) (s : walk) :
  (Z.to_nat (kold s) <= fuel)%nat ->
  while_loop (fun s => kold s >=? 1) (NoAS_down_body m n tn me ne bg_r)
    fuel s <> OutOfFuel.
Proof.
  apply (while_loop_fuel _ _ (fun s => Z.to_nat (kold s))).
  - intros s0 G. apply Z.geb_le in G. lia.
  - intros s0 s1 G B. apply Z.geb_le in G.
    apply NoAS_down_body_inv in B as (d & _ & _ & ->). cbn [kold]. lia.
  - intros s0. apply plain_no_fuel, plain_NoAS_down_body.
Qed.

Lemma NoAS_up_fuel (m n tn : Z) (me ne : list Z) (bg_r : F)
  (fuel : nat) (s : walk) :
  (Z.to_nat (tn - kold s) <= fuel)%nat ->
  while_loop (fun s => kold s <=? tn - 1) (NoAS_up_body m n tn me ne bg_r)
    fuel s <> OutOfFuel.
Proof.
  apply (while_loop_fuel _ _ (fun s => Z.to_nat (tn - kold s))).
  - intros s0 G. apply Z.leb_le in G. lia.
  - intros s0 s1 G B. apply Z.leb_le in G.
    apply NoAS_up_body_inv in B as (d & _ & _ & ->). cbn [kold]. lia.
  - intros s0. apply plain_no_fuel, plain_NoAS_up_body.
Qed.

Lemma AS_down_fuel (m n tn : Z) (me ne : list Z) (max_allowed_ar : F)
  (fuel : nat) (s : walkAS) :
  (Z.to_nat (koldAS s) <= fuel)%nat ->
  while_loop (fun s => koldAS s >? 1)
    (AS_down_body m n tn me ne max_allowed_ar) fuel s <> OutOfFuel.
Proof.
  apply (while_loop_fuel _ _ (fun s => Z.to_nat (koldAS s))).
  - intros s0 G. apply Z.gtb_lt in G. lia.
  - intros s0 s1 G B. apply Z.gtb_lt in G.
    apply AS_down_body_inv in B as (r & d & _ & _ & _ & ->).
    cbn [koldAS]. lia.
  - intros s0. apply plain_no_fuel, plain_AS_down_body.
Qed.

Lemma AS_up_fuel (m n tn : Z) (me ne : list Z) (max_allowed_ar : F)
  (fuel : nat) (s : walkAS) :
  (Z.to_nat (tn - koldAS s) <= fuel)%nat ->
  while_loop (fun s => koldAS s <? tn - 1)
    (AS_up_body m n tn me ne max_allowed_ar) fuel s <> OutOfFuel.
Proof.
  apply (while_loop_fuel _ _ (fun s => Z.to_nat (tn - koldAS s))).
  - intros s0 G. apply Z.ltb_lt in G. lia.
  - intros s0 s1 G B. apply Z.ltb_lt in G.
    apply AS_up_body_inv in B as (r & d & _ & _ & _ & ->).
    cbn [koldAS]. lia.
  - intros s0. apply plain_no_fuel, plain_AS_up_body.
Qed.

End Walks.

(** ** Termination of the greedy searches (any arithmetic) *)

Lemma bind_no_fuel {A B : Type} (c : run A) (k : A -> run B) :
  c <> OutOfFuel -> (forall a, k a <> OutOfFuel) -> bind c k <> OutOfFuel.
Proof. destruct c; cbn; auto; discriminate. Qed.

Section Termination.

Context {F : Type} {FB : FloatBase F} {FM : FloatMath F}.

Ltac fuel_steps :=
  repeat first
    [ discriminate
    | apply bind_no_fuel;
      [ first [ apply plain_no_fuel, plain_calculate_ln
              | apply plain_no_fuel, plain_float_div ]
      | intros ? ]
    | match goal with
      | |- (if ?b then _ else _) <> OutOfFuel => destruct b eqn:?
      | |- match climb_start ?a ?b ?c with _ => _ end <> OutOfFuel =>
          destruct (climb_start a b c)
      end ].

Lemma GreedyMaxFunctionNoAS_fuel (fuel : nat) (m n tn : Z) (me ne : list Z) :
  0 <= m -> 0 <= n -> m + n = tn -> 1 <= tn ->
  (Z.to_nat tn <= fuel)%nat ->
  GreedyMaxFunctionNoAS fuel m n tn me ne <> OutOfFuel.
Proof.
  intros Hm Hn Hsum Htn Hfuel. unfold GreedyMaxFunctionNoAS. fuel_steps.
  - apply bind_no_fuel; [|intros s; fuel_steps].
    apply NoAS_down_fuel. cbn [kold]. lia.
  - apply bind_no_fuel; [|intros s; fuel_steps].
    apply NoAS_up_fuel. cbn [kold]. lia.
Qed.

Lemma GreedyMaxFunctionAS_fuel (fuel : nat) (m n tn : Z) (me ne : list Z)
  (max_allowed_ar : F) :
  0 <= m -> 0 <= n -> m + n = tn -> 1 <= tn ->
  (Z.to_nat tn <= fuel)%nat ->
  GreedyMaxFunctionAS fuel m n tn me ne max_allowed_ar <> OutOfFuel.
Proof.
  intros Hm Hn Hsum Htn Hfuel. unfold GreedyMaxFunctionAS. fuel_steps.
  - apply bind_no_fuel; [|intros s; fuel_steps].
    apply AS_down_fuel. cbn [koldAS]. lia.
  - apply bind_no_fuel; [|intros s; fuel_steps].
    apply AS_up_fuel. cbn [koldAS]. lia.
Qed.

(** C10: with m, n >= 0 and m + n = tn >= 1, both searches terminate: every
    unbroken iteration of a downward (upward) walk lowers (raises) kold by
    exactly one, and tn iterations of fuel are enough for either search. *)
Theorem greedy_searches_terminate (fuel : nat) (m n tn : Z)
  (me ne : list Z) (max_allowed_ar : F) :
  0 <= m -> 0 <= n -> m + n = tn -> 1 <= tn ->
  (Z.to_nat tn <= fuel)%nat ->
  GreedyMaxFunctionNoAS fuel m n tn me ne <> OutOfFuel
  /\ GreedyMaxFunctionAS fuel m n tn me ne max_allowed_ar <> OutOfFuel
  /\ (forall bg_r s s',
         NoAS_down_body m n tn me ne bg_r s = Ok (s', false) ->
         kold s' = kold s - 1)
  /\ (forall bg_r s s',
         NoAS_up_body m n tn me ne bg_r s = Ok (s', false) ->
         kold s' = kold s + 1)
  /\ (forall s s',
         AS_down_body m n tn me ne max_allowed_ar s = Ok (s', false) ->
         koldAS s' = koldAS s - 1)
  /\ (forall s s',
         AS_up_body m n tn me ne max_allowed_ar s = Ok (s', false) ->
         koldAS s' = koldAS s + 1).
Proof.
  intros Hm Hn Hsum Htn Hfuel.
  split; [now apply GreedyMaxFunctionNoAS_fuel|].
  split; [now apply GreedyMaxFunctionAS_fuel|].
  repeat split.
  - intros bg_r s s' H.
    now apply NoAS_down_body_inv in H as (d & _ & _ & ->).
  - intros bg_r s s' H.
    now apply NoAS_up_body_inv in H as (d & _ & _ & ->).
  - intros s s' H.
    now apply AS_down_body_inv in H as (r & d & _ & _ & _ & ->).
  - intros s s' H.
    now apply AS_up_body_inv in H as (r & d & _ & _ & _ & ->).
Qed.

End Termination.

Lemma greedy_searches_terminate_witness :
  GreedyMaxFunctionNoAS (F := R) 5 2 3 5 [30; 20] [10; 30; 40] <> OutOfFuel
  /\ GreedyMaxFunctionAS (F := R) 5 2 3 5 [30; 20] [10; 30; 40] 0.99%R
     <> OutOfFuel.
Proof.
  pose proof (greedy_searches_terminate (F := R) 5 2 3 5 [30; 20]
                [10; 30; 40] 0.99%R) as H.
  destruct H as (H1 & H2 & _); [lia | lia | reflexivity | lia | | tauto].
  vm_compute. lia.
Defined.

(** ** The failing branch of the greedy searches *)

(** In any arithmetic, a search raises its own exception only from the
    last branch of the decision on the three first likelihoods. *)
Section FailingBranch.

Context {F : Type} {FB : FloatBase F} {FM : FloatMath F}.

Ltac raise_step H :=
  apply bind_Raise_inv in H as [H | (? & ? & H)];
  [ exfalso; revert H; apply plain_no_Exception;
    first [ apply plain_calculate_ln | apply plain_float_div ] | ].

Ltac raise_step_as H x Hx :=
  apply bind_Raise_inv in H as [H | (x & Hx & H)];
  [ exfalso; revert H; apply plain_no_Exception;
    first [ apply plain_calculate_ln | apply plain_float_div ] | ].

Lemma GreedyMaxFunctionNoAS_Exception (fuel : nat) (m n tn : Z)
  (me ne : list Z) (msg : string) :
  GreedyMaxFunctionNoAS fuel m n tn me ne = Raise (Exception msg) ->
  exists d0 d1l d1r : F,
    calculate_ln m n tn me ne lit_0_5 m lit_0_99 = Ok d0
    /\ calculate_ln m n tn me ne lit_0_5 (m - 1) lit_0_99 = Ok d1l
    /\ calculate_ln m n tn me ne lit_0_5 (m + 1) lit_0_99 = Ok d1r
    /\ climb_start d0 d1l d1r = Inconsistent.
Proof.
  unfold GreedyMaxFunctionNoAS. intros H.
  destruct (tn =? 1).
  { do 2 raise_step H. now destruct (fgt _ _). }
  destruct (m =? 0); [raise_step H; discriminate|].
  destruct (m =? tn); [raise_step H; discriminate|].
  do 3 raise_step H.
  destruct (climb_start _ _ _) eqn:E.
  - discriminate.
  - apply bind_Raise_inv in H as [H | (s & _ & H)].
    + apply while_loop_raise in H as [s0 H]. exfalso. revert H.
      apply plain_no_Exception, plain_NoAS_down_body.
    + now destruct (btemp s).
  - apply bind_Raise_inv in H as [H | (s & _ & H)].
    + apply while_loop_raise in H as [s0 H]. exfalso. revert H.
      apply plain_no_Exception, plain_NoAS_up_body.
    + now destruct (btemp s).
  - eauto 8.
Qed.

Lemma GreedyMaxFunctionAS_Exception (fuel : nat) (m n tn : Z)
  (me ne : list Z) (max_allowed_ar : F) (msg : string) :
  GreedyMaxFunctionAS fuel m n tn me ne max_allowed_ar
  = Raise (Exception msg) ->
  exists r0 r1l r1r d0 d1l d1r : F,
    float_div (of_int m) (of_int tn) = Ok r0
    /\ float_div (of_int (m - 1)) (of_int tn) = Ok r1l
    /\ float_div (of_int (m + 1)) (of_int tn) = Ok r1r
    /\ calculate_ln m n tn me ne r0 m max_allowed_ar = Ok d0
    /\ calculate_ln m n tn me ne r1l (m - 1) max_allowed_ar = Ok d1l
    /\ calculate_ln m n tn me ne r1r (m + 1) max_allowed_ar = Ok d1r
    /\ climb_start d0 d1l d1r = Inconsistent.
Proof.
  unfold GreedyMaxFunctionAS. intros H.
  destruct (negb (m + n =? tn)); [discriminate|].
  destruct (tn =? 1).
  { do 2 raise_step H. now destruct (fgt _ _). }
  destruct (m =? 0); [raise_step H; discriminate|].
  destruct (m =? tn); [raise_step H; discriminate|].
  raise_step_as H r0 Hr0. raise_step_as H d0 Hd0.
  raise_step_as H r1l Hr1l. raise_step_as H d1l Hd1l.
  raise_step_as H r1r Hr1r. raise_step_as H d1r Hd1r.
  destruct (climb_start _ _ _) eqn:E.
  - raise_step H. discriminate.
  - raise_step H.
    apply bind_Raise_inv in H as [H | (s & _ & H)].
    + apply while_loop_raise in H as [s0 H]. exfalso. revert H.
      apply plain_no_Exception, plain_AS_down_body.
    + now destruct (btempAS s).
  - raise_step H.
    apply bind_Raise_inv in H as [H | (s & _ & H)].
    + apply while_loop_raise in H as [s0 H]. exfalso. revert H.
      apply plain_no_Exception, plain_AS_up_body.
    + now destruct (btempAS s).
  - exists r0, r1l, r1r, d0, d1l, d1r. repeat split; assumption.
Qed.

End FailingBranch.

(** In exact arithmetic one of the three first branches is always taken. *)
Lemma climb_start_exact (d0 d1l d1r : R) :
  climb_start d0 d1l d1r <> Inconsistent.
Proof.
  unfold climb_start. cbn [fgt fsub lit_1e_8 exact_base].
  destruct (Rgtb d0 (d1l - 1e-8)) eqn:E1;
    destruct (Rgtb d0 (d1r - 1e-8)) eqn:E2; cbn [andb]; try discriminate;
    destruct (Rgtb d1l d0) eqn:E3; try discriminate;
    destruct (Rgtb d1r d0) eqn:E4; try discriminate;
    repeat match goal with
      | H : Rgtb _ _ = true |- _ => apply Rgtb_true in H
      | H : Rgtb _ _ = false |- _ => apply Rgtb_false in H
      end; lra.
Qed.

(** The order of binary64, read on the specification of the floats. *)
Ltac split_compares :=
  repeat match goal with
    | H : context [Z.compare ?x ?y] |- _ => destruct (Z.compare_spec x y)
    | |- context [Z.compare ?x ?y] => destruct (Z.compare_spec x y)
    | H : context [Pos.compare ?x ?y] |- _ => destruct (Pos.compare_spec x y)
    | |- context [Pos.compare ?x ?y] => destruct (Pos.compare_spec x y)
    end.

Lemma SFcompare_le_lt_trans (a b c : spec_float) :
  SFcompare a a = Some Eq ->
  SFcompare b c = Some Lt ->
  SFcompare b a <> Some Lt ->
  SFcompare a c = Some Lt.
Proof.
  destruct a as [sa|sa| |sa ma ea], b as [sb|sb| |sb mb eb],
    c as [sc|sc| |sc mc ec]; cbn; intros Ha Hbc Hba;
    try discriminate; try congruence;
    repeat match goal with s : bool |- _ => destruct s end;
    cbn in *; try discriminate; try congruence;
    change (Pos.compare_cont Eq) with Pos.compare in *;
    split_compares; cbn in *; subst; try discriminate; try congruence;
    try lia.
Qed.

Lemma binary64_le_lt_trans (a b c : float) :
  PrimFloat.eqb a a = true ->
  PrimFloat.ltb b c = true ->
  PrimFloat.ltb b a = false ->
  PrimFloat.ltb a c = true.
Proof.
  rewrite !ltb_spec, eqb_spec. unfold SFltb, SFeqb. intros Ha Hbc Hba.
  rewrite (SFcompare_le_lt_trans (Prim2SF a) (Prim2SF b) (Prim2SF c)).
  - reflexivity.
  - destruct (SFcompare (Prim2SF a) (Prim2SF a)) as [[]|];
      (reflexivity || discriminate).
  - destruct (SFcompare (Prim2SF b) (Prim2SF c)) as [[]|];
      (reflexivity || discriminate).
  - intros E. rewrite E in Hba. discriminate.
Qed.

Lemma climb_start_binary64 (d0 d1l d1r : float) :
  PrimFloat.eqb d0 d0 = true ->
  PrimFloat.ltb (PrimFloat.sub d1l 1e-8) d1l = true ->
  PrimFloat.ltb (PrimFloat.sub d1r 1e-8) d1r = true ->
  climb_start d0 d1l d1r <> Inconsistent.
Proof.
  intros H0 Hl Hr. unfold climb_start.
  cbn [fgt fsub lit_1e_8 binary64_base].
  destruct (PrimFloat.ltb (PrimFloat.sub d1l 1e-8) d0) eqn:E1.
  - destruct (PrimFloat.ltb (PrimFloat.sub d1r 1e-8) d0) eqn:E2;
      cbn [andb]; [discriminate|].
    destruct (PrimFloat.ltb d0 d1l); [discriminate|].
    now rewrite (binary64_le_lt_trans d0 _ d1r H0 Hr E2).
  - cbn [andb]. now rewrite (binary64_le_lt_trans d0 _ d1l H0 Hl E1).
Qed.

(** C9, as stated, fails in binary64: three equal likelihoods -1e9 are not
    NaN, the subtraction of 1e-8 is absorbed by rounding, and none of the
    three first branches is taken. *)
Lemma else_branch_fires_without_NaN :
  PrimFloat.eqb (-1e9)%float (-1e9)%float = true
  /\ climb_start (-1e9)%float (-1e9)%float (-1e9)%float = Inconsistent.
Proof. split; vm_compute; reflexivity. Qed.

(** C9, amended: in exact real arithmetic neither search ever raises its
    "error in GreedyMaxFunction..." exception; in binary64 the last branch
    is not taken when d0 is not NaN and the subtraction of 1e-8 lowers both
    d1l and d1r (it is not absorbed by rounding). *)
Theorem else_branch_reachability :
  (forall fuel m n tn me ne msg,
      GreedyMaxFunctionNoAS (F := R) fuel m n tn me ne
      <> Raise (Exception msg))
  /\ (forall fuel m n tn me ne max_allowed_ar msg,
         GreedyMaxFunctionAS (F := R) fuel m n tn me ne max_allowed_ar
         <> Raise (Exception msg))
  /\ (forall d0 d1l d1r : float,
         PrimFloat.eqb d0 d0 = true ->
         PrimFloat.ltb (PrimFloat.sub d1l 1e-8) d1l = true ->
         PrimFloat.ltb (PrimFloat.sub d1r 1e-8) d1r = true ->
         climb_start d0 d1l d1r <> Inconsistent).
Proof.
  split; [|split].
  - intros fuel m n tn me ne msg H.
    apply GreedyMaxFunctionNoAS_Exception in H
      as (d0 & d1l & d1r & _ & _ & _ & H).
    now apply climb_start_exact in H.
  - intros fuel m n tn me ne max_allowed_ar msg H.
    apply GreedyMaxFunctionAS_Exception in H
      as (r0 & r1l & r1r & d0 & d1l & d1r & _ & _ & _ & _ & _ & _ & H).
    now apply climb_start_exact in H.
  - exact climb_start_binary64.
Qed.

Lemma else_branch_reachability_witness :
  climb_start (-3)%float (-2)%float (-5)%float <> Inconsistent.
Proof.
  apply (proj2 (proj2 else_branch_reachability)); vm_compute; reflexivity.
Defined.

(** * Further properties of the code *)

(** ** What the greedy searches return (any arithmetic) *)

Section SearchResults.

Context {F : Type} {FB : FloatBase F} {FM : FloatMath F}.
Local Open Scope float64_scope.

Lemma NoAS_down_walk (m n tn : Z) (me ne : list Z) (bg_r : F)
  (fuel : nat) (s s' : walk) :
  0 <= kold s <= tn ->
  calculate_ln m n tn me ne bg_r (kold s) lit_0_99 = Ok (dold s) ->
  while_loop (fun s => kold s >=? 1) (NoAS_down_body m n tn me ne bg_r)
    fuel s = Ok s' ->
  0 <= kold s' <= tn
  /\ calculate_ln m n tn me ne bg_r (kold s') lit_0_99 = Ok (dold s').
Proof.
  intros Hk Hd Hw.
  pose (Inv := fun s : walk =>
                 0 <= kold s <= tn
                 /\ calculate_ln m n tn me ne bg_r (kold s) lit_0_99
                    = Ok (dold s)).
  refine (while_loop_invariant _ _ Inv Inv _ _ _ fuel s s' (conj Hk Hd) Hw);
    unfold Inv; [| | auto].
  - intros s0 s1 [Hk0 Hd0] G B. apply Z.geb_le in G.
    apply NoAS_down_body_inv in B as (d & Hc & _ & ->). cbn [kold dold].
    split; [lia | exact Hc].
  - intros s0 s1 [Hk0 Hd0] G B.
    apply NoAS_down_body_inv in B as (d & _ & _ & ->). cbn [kold dold]. auto.
Qed.

Lemma NoAS_up_walk (m n tn : Z) (me ne : list Z) (bg_r : F)
  (fuel : nat) (s s' : walk) :
  0 <= kold s <= tn ->
  calculate_ln m n tn me ne bg_r (kold s) lit_0_99 = Ok (dold s) ->
  while_loop (fun s => kold s <=? tn - 1) (NoAS_up_body m n tn me ne bg_r)
    fuel s = Ok s' ->
  0 <= kold s' <= tn
  /\ calculate_ln m n tn me ne bg_r (kold s') lit_0_99 = Ok (dold s').
Proof.
  intros Hk Hd Hw.
  pose (Inv := fun s : walk =>
                 0 <= kold s <= tn
                 /\ calculate_ln m n tn me ne bg_r (kold s) lit_0_99
                    = Ok (dold s)).
  refine (while_loop_invariant _ _ Inv Inv _ _ _ fuel s s' (conj Hk Hd) Hw);
    unfold Inv; [| | auto].
  - intros s0 s1 [Hk0 Hd0] G B. apply Z.leb_le in G.
    apply NoAS_up_body_inv in B as (d & Hc & _ & ->). cbn [kold dold].
    split; [lia | exact Hc].
  - intros s0 s1 [Hk0 Hd0] G B.
    apply NoAS_up_body_inv in B as (d & _ & _ & ->). cbn [kold dold]. auto.
Qed.

(** X1: the count returned by GreedyMaxFunctionNoAS lies in [0, tn] and
    the returned likelihood is calculate_ln at that count (r = 0.5, default
    max_allowed_r), in any arithmetic. *)
Theorem GreedyMaxFunctionNoAS_result (fuel : nat) (m n tn : Z)
  (me ne : list Z) (d : F) (k : Z) :
  0 <= m -> 0 <= n -> m + n = tn ->
  GreedyMaxFunctionNoAS fuel m n tn me ne = Ok (d, k) ->
  0 <= k <= tn
  /\ calculate_ln m n tn me ne lit_0_5 k lit_0_99 = Ok d.
Proof.
  intros Hm Hn Hsum. unfold GreedyMaxFunctionNoAS.
  destruct (Z.eqb_spec tn 1) as [Htn|Htn].
  { intros H. apply bind_Ok_inv in H as (dl & Hdl & H).
    apply bind_Ok_inv in H as (dr & Hdr & H).
    destruct (fgt dl dr); injection H as <- <-; split; (lia || assumption). }
  destruct (Z.eqb_spec m 0) as [Hm0|Hm0].
  { intros H. apply bind_Ok_inv in H as (d0 & Hd0 & H).
    injection H as <- <-. split; [lia | exact Hd0]. }
  destruct (Z.eqb_spec m tn) as [Hmt|Hmt].
  { intros H. apply bind_Ok_inv in H as (d0 & Hd0 & H).
    injection H as <- <-. split; [lia | exact Hd0]. }
  intros H. apply bind_Ok_inv in H as (d0 & Hd0 & H).
  apply bind_Ok_inv in H as (d1l & Hd1l & H).
  apply bind_Ok_inv in H as (d1r & Hd1r & H).
  destruct (climb_start d0 d1l d1r).
  - injection H as <- <-. split; [lia | exact Hd0].
  - apply bind_Ok_inv in H as (s & Hs & H).
    apply NoAS_down_walk in Hs as [Hk Hd]; cbn [kold dold];
      [|lia|exact Hd1l].
    destruct (btemp s); injection H as <- <-; auto.
  - apply bind_Ok_inv in H as (s & Hs & H).
    apply NoAS_up_walk in Hs as [Hk Hd]; cbn [kold dold];
      [|lia|exact Hd1r].
    destruct (btemp s); injection H as <- <-; auto.
  - discriminate.
Qed.

Lemma AS_down_walk (m n tn : Z) (me ne : list Z) (max_allowed_ar : F)
  (fuel : nat) (s s' : walkAS) :
  0 <= koldAS s <= tn ->
  float_div (of_int (koldAS s)) (of_int tn) = Ok (roldAS s) ->
  calculate_ln m n tn me ne (roldAS s) (koldAS s) max_allowed_ar
  = Ok (doldAS s) ->
  while_loop (fun s => koldAS s >? 1)
    (AS_down_body m n tn me ne max_allowed_ar) fuel s = Ok s' ->
  0 <= koldAS s' <= tn
  /\ float_div (of_int (koldAS s')) (of_int tn) = Ok (roldAS s')
  /\ calculate_ln m n tn me ne (roldAS s') (koldAS s') max_allowed_ar
     = Ok (doldAS s').
Proof.
  intros Hk Hr Hd Hw.
  pose (Inv := fun s : walkAS =>
                 0 <= koldAS s <= tn
                 /\ float_div (of_int (koldAS s)) (of_int tn) = Ok (roldAS s)
                 /\ calculate_ln m n tn me ne (roldAS s) (koldAS s)
                      max_allowed_ar = Ok (doldAS s)).
  refine (while_loop_invariant _ _ Inv Inv _ _ _ fuel s s'
            (conj Hk (conj Hr Hd)) Hw); unfold Inv; [| | auto].
  - intros s0 s1 (Hk0 & Hr0 & Hd0) G B. apply Z.gtb_lt in G.
    apply AS_down_body_inv in B as (r & d & Hr1 & Hc & _ & ->).
    cbn [koldAS doldAS roldAS]. repeat split; (lia || assumption).
  - intros s0 s1 (Hk0 & Hr0 & Hd0) G B.
    apply AS_down_body_inv in B as (r & d & _ & _ & _ & ->).
    cbn [koldAS doldAS roldAS]. auto.
Qed.

Lemma AS_up_walk (m n tn : Z) (me ne : list Z) (max_allowed_ar : F)
  (fuel : nat) (s s' : walkAS) :
  0 <= koldAS s <= tn ->
  float_div (of_int (koldAS s)) (of_int tn) = Ok (roldAS s) ->
  calculate_ln m n tn me ne (roldAS s) (koldAS s) max_allowed_ar
  = Ok (doldAS s) ->
  while_loop (fun s => koldAS s <? tn - 1)
    (AS_up_body m n tn me ne max_allowed_ar) fuel s = Ok s' ->
  0 <= koldAS s' <= tn
  /\ float_div (of_int (koldAS s')) (of_int tn) = Ok (roldAS s')
  /\ calculate_ln m n tn me ne (roldAS s') (koldAS s') max_allowed_ar
     = Ok (doldAS s').
Proof.
  intros Hk Hr Hd Hw.
  pose (Inv := fun s : walkAS =>
                 0 <= koldAS s <= tn
                 /\ float_div (of_int (koldAS s)) (of_int tn) = Ok (roldAS s)
                 /\ calculate_ln m n tn me ne (roldAS s) (koldAS s)
                      max_allowed_ar = Ok (doldAS s)).
  refine (while_loop_invariant _ _ Inv Inv _ _ _ fuel s s'
            (conj Hk (conj Hr Hd)) Hw); unfold Inv; [| | auto].
  - intros s0 s1 (Hk0 & Hr0 & Hd0) G B. apply Z.ltb_lt in G.
    apply AS_up_body_inv in B as (r & d & Hr1 & Hc & _ & ->).
    cbn [koldAS doldAS roldAS]. repeat split; (lia || assumption).
  - intros s0 s1 (Hk0 & Hr0 & Hd0) G B.
    apply AS_up_body_inv in B as (r & d & _ & _ & _ & ->).
    cbn [koldAS doldAS roldAS]. auto.
Qed.

(** X2: what GreedyMaxFunctionAS returns, in any arithmetic.  The count
    lies in [0, tn].  With a single read the ratio is the count itself (0
    or 1) and the likelihood is computed with the default max_allowed_r
    0.99, whatever max_allowed_ar was passed; with no top1 read the ratio
    is 1 - max_allowed_ar, with only top1 reads it is max_allowed_ar;
    otherwise the ratio is k / tn, not clamped, and the likelihood is
    calculate_ln at (k / tn, k). *)
Theorem GreedyMaxFunctionAS_result (fuel : nat) (m n tn : Z)
  (me ne : list Z) (max_allowed_ar d : F) (k : Z) (ar : F) :
  0 <= m -> 0 <= n ->
  GreedyMaxFunctionAS fuel m n tn me ne max_allowed_ar = Ok (d, k, ar) ->
  m + n = tn /\ 0 <= k <= tn
  /\ ((tn = 1 /\ ar = of_int k
       /\ calculate_ln m n tn me ne (of_int k) k lit_0_99 = Ok d)
      \/ (tn <> 1 /\ m = 0 /\ k = 0 /\ ar = of_int 1 -! max_allowed_ar
          /\ calculate_ln m n tn me ne (of_int 0) 0 max_allowed_ar = Ok d)
      \/ (tn <> 1 /\ m = tn /\ k = tn /\ ar = max_allowed_ar
          /\ calculate_ln m n tn me ne (of_int 1) tn max_allowed_ar = Ok d)
      \/ (tn <> 1 /\ 0 < m < tn
          /\ float_div (of_int k) (of_int tn) = Ok ar
          /\ calculate_ln m n tn me ne ar k max_allowed_ar = Ok d)).
Proof.
  intros Hm Hn. unfold GreedyMaxFunctionAS.
  destruct (Z.eqb_spec (m + n) tn) as [Hsum|Hsum]; cbn [negb];
    [|discriminate].
  intros H. split; [exact Hsum|]. revert H.
  destruct (Z.eqb_spec tn 1) as [Htn|Htn].
  { intros H. apply bind_Ok_inv in H as (dl & Hdl & H).
    apply bind_Ok_inv in H as (dr & Hdr & H).
    destruct (fgt dl dr); injection H as <- <- <-;
      (split; [lia|]); left; auto. }
  destruct (Z.eqb_spec m 0) as [Hm0|Hm0].
  { intros H. apply bind_Ok_inv in H as (d0 & Hd0 & H).
    injection H as <- <- <-.
    split; [lia|]. right; left. subst m. auto. }
  destruct (Z.eqb_spec m tn) as [Hmt|Hmt].
  { intros H. apply bind_Ok_inv in H as (d0 & Hd0 & H).
    injection H as <- <- <-.
    split; [lia|]. right; right; left. subst m. auto. }
  intros H. apply bind_Ok_inv in H as (r0 & Hr0 & H).
  apply bind_Ok_inv in H as (d0 & Hd0 & H).
  apply bind_Ok_inv in H as (r1l & Hr1l & H).
  apply bind_Ok_inv in H as (d1l & Hd1l & H).
  apply bind_Ok_inv in H as (r1r & Hr1r & H).
  apply bind_Ok_inv in H as (d1r & Hd1r & H).
  assert (Hin : 0 < m < tn) by lia.
  destruct (climb_start d0 d1l d1r).
  - apply bind_Ok_inv in H as (a & Ha & H). injection H as <- <- <-.
    split; [lia|]. right; right; right.
    rewrite Hr0 in Ha. injection Ha as <-. auto.
  - apply bind_Ok_inv in H as (r & Hr & H).
    apply bind_Ok_inv in H as (s & Hs & H).
    rewrite Hr1l in Hr. injection Hr as <-.
    apply AS_down_walk in Hs as (Hk & Hrr & Hd);
      cbn [koldAS doldAS roldAS]; [|lia|exact Hr1l|exact Hd1l].
    destruct (btempAS s); injection H as <- <- <-;
      (split; [exact Hk|]); right; right; right; auto.
  - apply bind_Ok_inv in H as (r & Hr & H).
    apply bind_Ok_inv in H as (s & Hs & H).
    rewrite Hr1r in Hr. injection Hr as <-.
    apply AS_up_walk in Hs as (Hk & Hrr & Hd);
      cbn [koldAS doldAS roldAS]; [|lia|exact Hr1r|exact Hd1r].
    destruct (btempAS s); injection H as <- <- <-;
      (split; [exact Hk|]); right; right; right; auto.
  - discriminate.
Qed.

End SearchResults.

(** ** calculate_ln in closed form (exact arithmetic) *)

Lemma for_loop_app {A : Type} (body : Z -> A -> run A) (l1 l2 : list Z)
  (acc : A) :
  for_loop body (l1 ++ l2) acc
  = bind (for_loop body l1 acc) (for_loop body l2).
Proof.
  revert acc. induction l1 as [|i l1 IH]; intros acc; cbn [app for_loop bind].
  - reflexivity.
  - destruct (body i acc) as [a| |]; cbn [bind]; [apply IH | reflexivity..].
Qed.

Lemma range_succ (j : nat) :
  range (Z.of_nat (S j)) = range (Z.of_nat j) ++ [Z.of_nat j].
Proof.
  unfold range. rewrite !Nat2Z.id, seq_S, map_app. reflexivity.
Qed.

Section Binomial.
Local Open Scope R_scope.

Lemma falling_ratio_pos (N D j : nat) : 0 < falling_ratio N D j.
Proof.
  unfold falling_ratio.
  assert (H : forall n, 0 < INR (fact n)) by (intros; apply INR_fact_lt_0).
  repeat apply Rdiv_lt_0_compat; apply H.
Qed.

Lemma falling_ratio_0 (N D : nat) : falling_ratio N D 0 = 1.
Proof.
  unfold falling_ratio. rewrite !Nat.sub_0_r.
  pose proof (INR_fact_neq_0 N). pose proof (INR_fact_neq_0 D).
  field. split; assumption.
Qed.

Lemma falling_ratio_succ (N D j : nat) :
  (S j <= D)%nat -> (D <= N)%nat ->
  falling_ratio N D (S j)
  = falling_ratio N D j * (INR (N - j) / INR (D - j)).
Proof.
  intros HjD HDN. unfold falling_ratio.
  replace (N - j)%nat with (S (N - S j)) by lia.
  replace (D - j)%nat with (S (D - S j)) by lia.
  rewrite !fact_simpl, !mult_INR.
  pose proof (INR_fact_neq_0 N). pose proof (INR_fact_neq_0 D).
  pose proof (INR_fact_neq_0 (N - S j)). pose proof (INR_fact_neq_0 (D - S j)).
  assert (INR (S (N - S j)) <> 0) by (apply not_0_INR; lia).
  assert (INR (S (D - S j)) <> 0) by (apply not_0_INR; lia).
  field. repeat split; assumption.
Qed.

Lemma binomial_step_exact (N D j : nat) (lnL : R) :
  (S j <= D)%nat -> (D <= N)%nat ->
  binomial_step (Z.of_nat N) (Z.of_nat D) (Z.of_nat j) lnL
  = Ok (lnL + ln (INR (N - j) / INR (D - j))).
Proof.
  intros HjD HDN. unfold binomial_step.
  cbn [of_int exact_base fadd].
  rewrite <- !Nat2Z.inj_sub by lia. rewrite <- !INR_IZR_INZ.
  assert (HD : 0 < INR (D - j)) by (apply lt_0_INR; lia).
  assert (HN : 0 < INR (N - j)) by (apply lt_0_INR; lia).
  rewrite float_div_nonzero by lra. cbn [bind].
  rewrite math_log_pos by (now apply Rdiv_lt_0_compat). reflexivity.
Qed.

Lemma binomial_loop (N D j : nat) (lnL : R) :
  (j <= D)%nat -> (D <= N)%nat ->
  for_loop (binomial_step (Z.of_nat N) (Z.of_nat D)) (range (Z.of_nat j)) lnL
  = Ok (lnL + ln (falling_ratio N D j)).
Proof.
  intros HjD HDN. induction j as [|j IH].
  - cbn. rewrite falling_ratio_0, ln_1. f_equal. lra.
  - rewrite range_succ, for_loop_app, IH by lia. cbn [bind for_loop].
    rewrite binomial_step_exact by lia. cbn [bind].
    rewrite falling_ratio_succ by lia.
    rewrite ln_mult.
    + f_equal. lra.
    + apply falling_ratio_pos.
    + apply Rdiv_lt_0_compat; apply lt_0_INR; lia.
Qed.

Lemma falling_ratio_full (N D : nat) :
  (D <= N)%nat -> falling_ratio N D D = C N D.
Proof.
  intros HDN. unfold falling_ratio, C. rewrite Nat.sub_diag. cbn [fact].
  pose proof (INR_fact_neq_0 N). pose proof (INR_fact_neq_0 D).
  pose proof (INR_fact_neq_0 (N - D)). simpl INR. field. repeat split; assumption.
Qed.

End Binomial.

Section ClosedForm.
Local Open Scope R_scope.

Lemma combinatorial_term_exact (tn k : Z) (lnL : R) :
  (0 <= k <= tn)%Z ->
  combinatorial_term tn k lnL
  = Ok (lnL + ln (C (Z.to_nat tn) (Z.to_nat k))).
Proof.
  intros Hk. unfold combinatorial_term.
  destruct (Z.eqb_spec k 0) as [->|Hk0].
  { cbn [orb]. f_equal. unfold C. cbn [Z.to_nat fact]. rewrite Nat.sub_0_r.
    pose proof (INR_fact_neq_0 (Z.to_nat tn)).
    replace (INR (fact (Z.to_nat tn)) / (INR 1 * INR (fact (Z.to_nat tn))))
      with 1 by (simpl INR; field; assumption).
    rewrite ln_1. lra. }
  destruct (Z.eqb_spec k tn) as [->|Hkt].
  { cbn [orb]. f_equal. unfold C. rewrite Nat.sub_diag. cbn [fact].
    pose proof (INR_fact_neq_0 (Z.to_nat tn)).
    replace (INR (fact (Z.to_nat tn)) / (INR (fact (Z.to_nat tn)) * INR 1))
      with 1 by (simpl INR; field; assumption).
    rewrite ln_1. lra. }
  cbn [orb of_int exact_base fle].
  rewrite float_div_nonzero by lra. cbn [bind].
  set (N := Z.to_nat tn). set (K := Z.to_nat k).
  assert (HN : tn = Z.of_nat N) by (unfold N; lia).
  assert (HK : k = Z.of_nat K) by (unfold K; lia).
  assert (HKN : (K <= N)%nat) by lia.
  destruct (Rleb (IZR k) (IZR tn / 2)).
  - rewrite HN, HK at 1. rewrite HK at 1.
    rewrite binomial_loop, falling_ratio_full by lia. reflexivity.
  - replace (tn - k)%Z with (Z.of_nat (N - K)) by lia. rewrite HN at 1.
    rewrite binomial_loop, falling_ratio_full by lia.
    rewrite <- pascal_step1 by exact HKN. reflexivity.
Qed.

Lemma ratio_term_exact (tn k : Z) (r max_allowed_r : R) :
  0 < max_allowed_r < 1 ->
  ratio_term tn r k max_allowed_r
  = Ok (IZR k * ln (clamped_ratio r max_allowed_r)
        + IZR (tn - k) * ln (1 - clamped_ratio r max_allowed_r)).
Proof.
  intros Hmax. unfold clamped_ratio.
  destruct (Rgtb r max_allowed_r || Rltb r (1 - max_allowed_r)) eqn:E.
  - apply ratio_term_clamped; [exact Hmax|].
    apply orb_true_iff in E as [E|E];
      [left; now apply Rgtb_true | right; now apply Rltb_true].
  - apply orb_false_iff in E as [E1 E2].
    apply Rgtb_false in E1. apply Rltb_false in E2.
    apply ratio_term_in_band; lra.
Qed.

Lemma top1_mass_pos (tn k q : Z) :
  (1 <= tn)%Z -> (0 <= k <= tn)%Z -> (1 <= q)%Z -> 0 < top1_mass tn k q.
Proof.
  intros Htn Hk Hq. unfold top1_mass.
  pose proof (error_prob_pos q) as He0. pose proof (error_prob_lt_1 q Hq) as He1.
  assert (Ht : 0 < IZR tn) by (apply IZR_lt; lia).
  assert (Hx0 : 0 <= IZR k / IZR tn).
  { apply Rmult_le_pos; [apply IZR_le; lia|]. left. now apply Rinv_0_lt_compat. }
  assert (Hx1 : IZR k / IZR tn <= 1).
  { apply Rmult_le_reg_r with (IZR tn); [exact Ht|].
    replace (IZR k / IZR tn * IZR tn) with (IZR k) by (field; lra).
    rewrite Rmult_1_l. apply IZR_le; lia. }
  set (x := IZR k / IZR tn) in *.
  destruct (Rle_dec x (1 / 2)); nra.
Qed.

Lemma top2_mass_pos (tn k q : Z) :
  (1 <= tn)%Z -> (0 <= k <= tn)%Z -> (1 <= q)%Z -> 0 < top2_mass tn k q.
Proof.
  intros Htn Hk Hq. rewrite <- mass_mirror_top1 by lia.
  apply top1_mass_pos; lia.
Qed.

Lemma all_positive_Forall (g : Z -> R) (a : list Z) :
  Forall (fun q => 0 < g q) a -> all_positive g a = true.
Proof.
  intros H. unfold all_positive. apply forallb_forall. intros q Hq.
  apply Rltb_true. rewrite Forall_forall in H. now apply H.
Qed.

Lemma calculate_ln_value (tn : Z) (me ne : list Z) (r : R)
  (k : Z) (max_allowed_r : R) :
  (1 <= tn)%Z -> (0 <= k <= tn)%Z ->
  0 < max_allowed_r < 1 ->
  Forall (fun q => (1 <= q)%Z) me -> Forall (fun q => (1 <= q)%Z) ne ->
  calculate_ln (shape0 me) (shape0 ne) tn me ne r k max_allowed_r
  = Ok (0 + (IZR k * ln (clamped_ratio r max_allowed_r)
             + IZR (tn - k) * ln (1 - clamped_ratio r max_allowed_r))
        + ln (C (Z.to_nat tn) (Z.to_nat k))
        + sum_ln (top1_mass tn k) me
        + sum_ln (top2_mass tn k) ne).
Proof.
  intros Htn Hk Hmax Hme Hne.
  rewrite calculate_ln_for_each, ratio_term_exact by exact Hmax.
  cbn [bind of_int fadd exact_base].
  rewrite combinatorial_term_exact by exact Hk. cbn [bind].
  rewrite (for_each_log_terms _ (top1_mass tn k))
    by (intros; apply top1_term_exact; lia).
  rewrite all_positive_Forall.
  2:{ eapply Forall_impl; [|exact Hme]. intros q Hq.
      now apply top1_mass_pos. }
  cbn [bind].
  rewrite (for_each_log_terms _ (top2_mass tn k))
    by (intros; apply top2_term_exact; lia).
  rewrite all_positive_Forall.
  2:{ eapply Forall_impl; [|exact Hne]. intros q Hq.
      now apply top2_mass_pos. }
  reflexivity.
Qed.

(** X3: for Phred scores of at least 1, 0 <= k <= tn, tn >= 1 and
    0 < max_allowed_r < 1, in exact arithmetic calculate_ln never raises
    and returns the binomial log-likelihood: the ratio term at the ratio
    the code substitutes (max_allowed_r outside the band, on either side),
    plus log C(tn, k), plus the logarithms of the error mixtures of the
    reads. *)
Theorem calculate_ln_closed_form (m n tn : Z) (me ne : list Z) (r : R)
  (k : Z) (max_allowed_r : R) :
  m = shape0 me -> n = shape0 ne ->
  (1 <= tn)%Z -> (0 <= k <= tn)%Z ->
  0 < max_allowed_r < 1 ->
  Forall (fun q => (1 <= q)%Z) me -> Forall (fun q => (1 <= q)%Z) ne ->
  calculate_ln m n tn me ne r k max_allowed_r
  = Ok (0 + (IZR k * ln (clamped_ratio r max_allowed_r)
             + IZR (tn - k) * ln (1 - clamped_ratio r max_allowed_r))
        + ln (C (Z.to_nat tn) (Z.to_nat k))
        + sum_ln (top1_mass tn k) me
        + sum_ln (top2_mass tn k) ne).
Proof.
  intros -> -> Htn Hk Hmax Hme Hne.
  now apply calculate_ln_value.
Qed.

End ClosedForm.

(** ** The greedy searches in exact arithmetic *)

Section ExactSearchNoAS.

Local Open Scope R_scope.

Variables (m n tn : Z) (me ne : list Z).

Let L (k : Z) : run R := calculate_ln m n tn me ne 0.5 k 0.99.

(** What is known when the downward walk of GreedyMaxFunctionNoAS stops at
    [s], having started above the likelihood [dstart]. *)
Let came_down (dstart : R) (s : walk) : Prop :=
  L (kold s) = Ok (dold s)
  /\ dstart < dold s
  /\ exists dr, L (kold s + 1) = Ok dr /\ dr < dold s.

Let came_up (dstart : R) (s : walk) : Prop :=
  L (kold s) = Ok (dold s)
  /\ dstart < dold s
  /\ exists dl, L (kold s - 1) = Ok dl /\ dl < dold s.

Lemma NoAS_down_walk_exact (dstart : R) (fuel : nat) (s s' : walk) :
  came_down dstart s ->
  while_loop (fun s => (kold s >=? 1)%Z) (NoAS_down_body m n tn me ne 0.5)
    fuel s = Ok s' ->
  came_down dstart s'
  /\ ((kold s' < 1)%Z
      \/ exists dl, L (kold s' - 1) = Ok dl /\ dl - 1e-8 < dold s').
Proof.
  intros HI Hw.
  refine (while_loop_invariant _ _ (came_down dstart)
            (fun s' => came_down dstart s'
                       /\ ((kold s' < 1)%Z
                           \/ exists dl, L (kold s' - 1) = Ok dl
                                         /\ dl - 1e-8 < dold s'))
            _ _ _ fuel s s' HI Hw).
  - intros s0 s1 (Hc & Hs & dr & Hr & Hlt) G B.
    apply NoAS_down_body_inv in B as (d & Hd & Ht & ->).
    cbn [flt fsub lit_1e_8 exact_base] in Ht. apply Rltb_false in Ht.
    unfold came_down. cbn [kold dold].
    split; [exact Hd|]. split; [lra|].
    exists (dold s0). replace (kold s0 - 1 + 1)%Z with (kold s0) by lia.
    split; [exact Hc | lra].
  - intros s0 s1 (Hc & Hs & dr & Hr & Hlt) G B.
    apply NoAS_down_body_inv in B as (d & Hd & Ht & ->).
    cbn [flt fsub lit_1e_8 exact_base] in Ht. apply Rltb_true in Ht.
    unfold came_down. cbn [kold dold]. split; [eauto|].
    right. exists d. split; [exact Hd | lra].
  - intros s0 HI0 G. split; [exact HI0|]. left.
    destruct (Z.geb_spec (kold s0) 1); [discriminate | lia].
Qed.

Lemma NoAS_up_walk_exact (dstart : R) (fuel : nat) (s s' : walk) :
  came_up dstart s ->
  while_loop (fun s => (kold s <=? tn - 1)%Z) (NoAS_up_body m n tn me ne 0.5)
    fuel s = Ok s' ->
  came_up dstart s'
  /\ ((kold s' > tn - 1)%Z
      \/ exists dr, L (kold s' + 1) = Ok dr /\ dr - 1e-8 < dold s').
Proof.
  intros HI Hw.
  refine (while_loop_invariant _ _ (came_up dstart)
            (fun s' => came_up dstart s'
                       /\ ((kold s' > tn - 1)%Z
                           \/ exists dr, L (kold s' + 1) = Ok dr
                                         /\ dr - 1e-8 < dold s'))
            _ _ _ fuel s s' HI Hw).
  - intros s0 s1 (Hc & Hs & dl & Hl & Hlt) G B.
    apply NoAS_up_body_inv in B as (d & Hd & Ht & ->).
    cbn [flt fsub lit_1e_8 exact_base] in Ht. apply Rltb_false in Ht.
    unfold came_up. cbn [kold dold].
    split; [exact Hd|]. split; [lra|].
    exists (dold s0). replace (kold s0 + 1 - 1)%Z with (kold s0) by lia.
    split; [exact Hc | lra].
  - intros s0 s1 (Hc & Hs & dl & Hl & Hlt) G B.
    apply NoAS_up_body_inv in B as (d & Hd & Ht & ->).
    cbn [flt fsub lit_1e_8 exact_base] in Ht. apply Rltb_true in Ht.
    unfold came_up. cbn [kold dold]. split; [eauto|].
    right. exists d. split; [exact Hd | lra].
  - intros s0 HI0 G. split; [exact HI0|]. left.
    destruct (Z.leb_spec (kold s0) (tn - 1)); [discriminate | lia].
Qed.

Lemma climb_start_cases (d0 d1l d1r : R) :
  match climb_start d0 d1l d1r with
  | Stay => d1l - 1e-8 < d0 /\ d1r - 1e-8 < d0
  | Down => d0 < d1l
  | Up => d0 < d1r
  | Inconsistent => False
  end.
Proof.
  unfold climb_start. cbn [fgt fsub lit_1e_8 exact_base].
  destruct (Rgtb d0 (d1l - 1e-8)) eqn:E1;
    destruct (Rgtb d0 (d1r - 1e-8)) eqn:E2; cbn [andb];
    try destruct (Rgtb d1l d0) eqn:E3;
    try destruct (Rgtb d1r d0) eqn:E4;
    repeat match goal with
      | H : Rgtb _ _ = true |- _ => apply Rgtb_true in H
      | H : Rgtb _ _ = false |- _ => apply Rgtb_false in H
      end; try lra.
Qed.

(** The result of the search, with what is known of the likelihood at the
    neighbours of the returned count and at the observed count m. *)
Lemma GreedyMaxFunctionNoAS_exact (fuel : nat) (d : R) (k : Z) :
  (0 <= m)%Z -> (0 <= n)%Z -> (m + n = tn)%Z ->
  (tn = 1 \/ 0 < m < tn)%Z ->
  GreedyMaxFunctionNoAS fuel m n tn me ne = Ok (d, k) ->
  L k = Ok d
  /\ (forall j, (j = k - 1 \/ j = k + 1)%Z -> (0 <= j <= tn)%Z ->
                exists dj, L j = Ok dj /\ dj - 1e-8 < d)
  /\ ((0 < m < tn)%Z ->
      exists d0, L m = Ok d0 /\ d0 <= d /\ (k <> m -> d0 < d)).
Proof.
  intros Hm Hn Hsum Hcase. unfold GreedyMaxFunctionNoAS.
  cbn [lit_0_5 lit_0_99 exact_base]. fold L.
  destruct (Z.eqb_spec tn 1) as [Htn|Htn].
  { intros H. apply bind_Ok_inv in H as (dl & Hdl & H).
    apply bind_Ok_inv in H as (dr & Hdr & H).
    cbn [fgt exact_base] in H.
    destruct (Rgtb dl dr) eqn:E; injection H as <- <-.
    - apply Rgtb_true in E. split; [exact Hdl|]. split; [|lia].
      intros j [-> | ->] Hj; [lia|]. exists dr. split; [exact Hdr | lra].
    - apply Rgtb_false in E. split; [exact Hdr|]. split; [|lia].
      intros j [-> | ->] Hj; [|lia]. exists dl. split; [exact Hdl | lra]. }
  destruct Hcase as [Hcase|Hcase]; [contradiction|].
  destruct (Z.eqb_spec m 0) as [Hm0|Hm0]; [lia|].
  destruct (Z.eqb_spec m tn) as [Hmt|Hmt]; [lia|].
  intros H. apply bind_Ok_inv in H as (d0 & Hd0 & H).
  apply bind_Ok_inv in H as (d1l & Hd1l & H).
  apply bind_Ok_inv in H as (d1r & Hd1r & H).
  pose proof (climb_start_cases d0 d1l d1r) as Hstart.
  destruct (climb_start d0 d1l d1r).
  - injection H as <- <-. split; [exact Hd0|]. split.
    + intros j [-> | ->] Hj; eexists; (split; [eassumption | lra]).
    + intros _. exists d0. split; [exact Hd0|]. split; [lra | congruence].
  - apply bind_Ok_inv in H as (s & Hs & H).
    apply (NoAS_down_walk_exact d0) in Hs
      as ((Hc & Hgt & dr & Hr & Hlt) & Hleft).
    2:{ unfold came_down. cbn [kold dold]. split; [exact Hd1l|].
        split; [exact Hstart|]. exists d0.
        replace (m - 1 + 1)%Z with m by lia. auto. }
    assert (Hres : d = dold s /\ k = kold s)
      by (destruct (btemp s); injection H as <- <-; auto).
    destruct Hres as [-> ->]. split; [exact Hc|]. split.
    + intros j [-> | ->] Hj.
      * destruct Hleft as [Hout|(dl & Hl & Hlt')]; [lia|].
        exists dl. auto.
      * exists dr. split; [exact Hr | lra].
    + intros _. exists d0. split; [exact Hd0|]. split; lra.
  - apply bind_Ok_inv in H as (s & Hs & H).
    apply (NoAS_up_walk_exact d0) in Hs
      as ((Hc & Hgt & dl & Hl & Hlt) & Hright).
    2:{ unfold came_up. cbn [kold dold]. split; [exact Hd1r|].
        split; [exact Hstart|]. exists d0.
        replace (m + 1 - 1)%Z with m by lia. auto. }
    assert (Hres : d = dold s /\ k = kold s)
      by (destruct (btemp s); injection H as <- <-; auto).
    destruct Hres as [-> ->]. split; [exact Hc|]. split.
    + intros j [-> | ->] Hj.
      * exists dl. split; [exact Hl | lra].
      * destruct Hright as [Hout|(dr & Hr & Hlt')]; [lia|].
        exists dr. auto.
    + intros _. exists d0. split; [exact Hd0|]. split; lra.
  - contradiction.
Qed.

End ExactSearchNoAS.

Section ExactSearchAS.

Local Open Scope R_scope.

Variables (m n tn : Z) (me ne : list Z) (max_allowed_ar : R).
Hypothesis tn_nonzero : tn <> 0%Z.

Let L (k : Z) : run R :=
  calculate_ln m n tn me ne (IZR k / IZR tn) k max_allowed_ar.

Let came_down (dstart : R) (s : walkAS) : Prop :=
  roldAS s = IZR (koldAS s) / IZR tn
  /\ L (koldAS s) = Ok (doldAS s)
  /\ dstart < doldAS s
  /\ exists dr, L (koldAS s + 1) = Ok dr /\ dr < doldAS s.

Let came_up (dstart : R) (s : walkAS) : Prop :=
  roldAS s = IZR (koldAS s) / IZR tn
  /\ L (koldAS s) = Ok (doldAS s)
  /\ dstart < doldAS s
  /\ exists dl, L (koldAS s - 1) = Ok dl /\ dl < doldAS s.

Lemma ratio_of_count (k : Z) :
  float_div (of_int k) (of_int tn) = Ok (IZR k / IZR tn).
Proof.
  cbn [of_int exact_base]. apply float_div_nonzero. now apply not_0_IZR.
Qed.

Lemma AS_down_walk_exact (dstart : R) (fuel : nat) (s s' : walkAS) :
  came_down dstart s ->
  while_loop (fun s => (koldAS s >? 1)%Z)
    (AS_down_body m n tn me ne max_allowed_ar) fuel s = Ok s' ->
  came_down dstart s'
  /\ ((koldAS s' <= 1)%Z
      \/ exists dl, L (koldAS s' - 1) = Ok dl /\ dl - 1e-8 < doldAS s').
Proof.
  intros HI Hw.
  refine (while_loop_invariant _ _ (came_down dstart)
            (fun s' => came_down dstart s'
                       /\ ((koldAS s' <= 1)%Z
                           \/ exists dl, L (koldAS s' - 1) = Ok dl
                                         /\ dl - 1e-8 < doldAS s'))
            _ _ _ fuel s s' HI Hw).
  - intros s0 s1 (Hro & Hc & Hs & dr & Hr & Hlt) G B.
    apply AS_down_body_inv in B as (r & d & Hrn & Hd & Ht & ->).
    rewrite ratio_of_count in Hrn. injection Hrn as <-.
    cbn [flt fsub lit_1e_8 exact_base] in Ht. apply Rltb_false in Ht.
    unfold came_down. cbn [koldAS doldAS roldAS].
    split; [reflexivity|]. split; [exact Hd|]. split; [lra|].
    exists (doldAS s0). replace (koldAS s0 - 1 + 1)%Z with (koldAS s0) by lia.
    split; [exact Hc | lra].
  - intros s0 s1 (Hro & Hc & Hs & dr & Hr & Hlt) G B.
    apply AS_down_body_inv in B as (r & d & Hrn & Hd & Ht & ->).
    rewrite ratio_of_count in Hrn. injection Hrn as <-.
    cbn [flt fsub lit_1e_8 exact_base] in Ht. apply Rltb_true in Ht.
    unfold came_down. cbn [koldAS doldAS roldAS]. split; [eauto 8|].
    right. exists d. split; [exact Hd | lra].
  - intros s0 HI0 G. split; [exact HI0|]. left.
    destruct (Z.gtb_spec (koldAS s0) 1); [discriminate | lia].
Qed.

Lemma AS_up_walk_exact (dstart : R) (fuel : nat) (s s' : walkAS) :
  came_up dstart s ->
  while_loop (fun s => (koldAS s <? tn - 1)%Z)
    (AS_up_body m n tn me ne max_allowed_ar) fuel s = Ok s' ->
  came_up dstart s'
  /\ ((koldAS s' >= tn - 1)%Z
      \/ exists dr, L (koldAS s' + 1) = Ok dr /\ dr - 1e-8 < doldAS s').
Proof.
  intros HI Hw.
  refine (while_loop_invariant _ _ (came_up dstart)
            (fun s' => came_up dstart s'
                       /\ ((koldAS s' >= tn - 1)%Z
                           \/ exists dr, L (koldAS s' + 1) = Ok dr
                                         /\ dr - 1e-8 < doldAS s'))
            _ _ _ fuel s s' HI Hw).
  - intros s0 s1 (Hro & Hc & Hs & dl & Hl & Hlt) G B.
    apply AS_up_body_inv in B as (r & d & Hrn & Hd & Ht & ->).
    rewrite ratio_of_count in Hrn. injection Hrn as <-.
    cbn [flt fsub lit_1e_8 exact_base] in Ht. apply Rltb_false in Ht.
    unfold came_up. cbn [koldAS doldAS roldAS].
    split; [reflexivity|]. split; [exact Hd|]. split; [lra|].
    exists (doldAS s0). replace (koldAS s0 + 1 - 1)%Z with (koldAS s0) by lia.
    split; [exact Hc | lra].
  - intros s0 s1 (Hro & Hc & Hs & dl & Hl & Hlt) G B.
    apply AS_up_body_inv in B as (r & d & Hrn & Hd & Ht & ->).
    rewrite ratio_of_count in Hrn. injection Hrn as <-.
    cbn [flt fsub lit_1e_8 exact_base] in Ht. apply Rltb_true in Ht.
    unfold came_up. cbn [koldAS doldAS roldAS]. split; [eauto 8|].
    right. exists d. split; [exact Hd | lra].
  - intros s0 HI0 G. split; [exact HI0|]. left.
    destruct (Z.ltb_spec (koldAS s0) (tn - 1)); [discriminate | lia].
Qed.

Lemma GreedyMaxFunctionAS_exact (fuel : nat) (d : R) (k : Z) (ar : R) :
  (0 < m < tn)%Z ->
  GreedyMaxFunctionAS fuel m n tn me ne max_allowed_ar = Ok (d, k, ar) ->
  ar = IZR k / IZR tn
  /\ L k = Ok d
  /\ (forall j, (j = k - 1 \/ j = k + 1)%Z -> (1 <= j <= tn - 1)%Z ->
                exists dj, L j = Ok dj /\ dj - 1e-8 < d)
  /\ exists d0, L m = Ok d0 /\ d0 <= d /\ (k <> m -> d0 < d).
Proof.
  intros Hin. unfold GreedyMaxFunctionAS.
  destruct (negb (m + n =? tn)%Z); [discriminate|].
  destruct (Z.eqb_spec tn 1) as [Htn|Htn]; [lia|].
  destruct (Z.eqb_spec m 0) as [Hm0|Hm0]; [lia|].
  destruct (Z.eqb_spec m tn) as [Hmt|Hmt]; [lia|].
  rewrite !ratio_of_count. cbn [bind]. fold (L m) (L (m - 1)) (L (m + 1)).
  intros H. apply bind_Ok_inv in H as (d0 & Hd0 & H).
  apply bind_Ok_inv in H as (d1l & Hd1l & H).
  apply bind_Ok_inv in H as (d1r & Hd1r & H).
  pose proof (climb_start_cases d0 d1l d1r) as Hstart.
  destruct (climb_start d0 d1l d1r).
  - injection H as <- <- <-. split; [reflexivity|]. split; [exact Hd0|]. split.
    + intros j [-> | ->] Hj; eexists; (split; [eassumption | lra]).
    + exists d0. split; [exact Hd0|]. split; [lra | congruence].
  - apply bind_Ok_inv in H as (s & Hs & H).
    apply (AS_down_walk_exact d0) in Hs
      as ((Hro & Hc & Hgt & dr & Hr & Hlt) & Hleft).
    2:{ unfold came_down. cbn [koldAS doldAS roldAS]. split; [reflexivity|].
        split; [exact Hd1l|]. split; [exact Hstart|]. exists d0.
        replace (m - 1 + 1)%Z with m by lia. auto. }
    assert (Hres : d = doldAS s /\ k = koldAS s /\ ar = roldAS s)
      by (destruct (btempAS s); injection H as <- <- <-; auto).
    destruct Hres as (-> & -> & ->). split; [exact Hro|].
    split; [exact Hc|]. split.
    + intros j [-> | ->] Hj.
      * destruct Hleft as [Hout|(dl & Hl & Hlt')]; [lia|].
        exists dl. auto.
      * exists dr. split; [exact Hr | lra].
    + exists d0. split; [exact Hd0|]. split; lra.
  - apply bind_Ok_inv in H as (s & Hs & H).
    apply (AS_up_walk_exact d0) in Hs
      as ((Hro & Hc & Hgt & dl & Hl & Hlt) & Hright).
    2:{ unfold came_up. cbn [koldAS doldAS roldAS]. split; [reflexivity|].
        split; [exact Hd1r|]. split; [exact Hstart|]. exists d0.
        replace (m + 1 - 1)%Z with m by lia. auto. }
    assert (Hres : d = doldAS s /\ k = koldAS s /\ ar = roldAS s)
      by (destruct (btempAS s); injection H as <- <- <-; auto).
    destruct Hres as (-> & -> & ->). split; [exact Hro|].
    split; [exact Hc|]. split.
    + intros j [-> | ->] Hj.
      * exists dl. split; [exact Hl | lra].
      * destruct Hright as [Hout|(dr & Hr & Hlt')]; [lia|].
        exists dr. auto.
    + exists d0. split; [exact Hd0|]. split; lra.
  - contradiction.
Qed.

End ExactSearchAS.

Section ExactSearchReturns.

Local Open Scope R_scope.

Variables (m n tn : Z) (me ne : list Z).
Hypothesis m_len : m = shape0 me.
Hypothesis n_len : n = shape0 ne.
Hypothesis tn_sum : (tn = m + n)%Z.
Hypothesis tn_pos : (1 <= tn)%Z.
Hypothesis me_phred : Forall (fun q => (1 <= q)%Z) me.
Hypothesis ne_phred : Forall (fun q => (1 <= q)%Z) ne.

Lemma calculate_ln_returns (r : R) (k : Z) (max_allowed_r : R) :
  (0 <= k <= tn)%Z -> 0 < max_allowed_r < 1 ->
  exists v, calculate_ln m n tn me ne r k max_allowed_r = Ok v.
Proof.
  intros Hk Hmax. rewrite m_len, n_len. eexists.
  now apply calculate_ln_value.
Qed.

Lemma GreedyMaxFunctionNoAS_returns (fuel : nat) :
  (Z.to_nat tn <= fuel)%nat ->
  exists d k, GreedyMaxFunctionNoAS fuel m n tn me ne = Ok (d, k).
Proof.
  intros Hfuel.
  assert (HL : forall k, (0 <= k <= tn)%Z ->
                         exists v, calculate_ln m n tn me ne 0.5 k 0.99 = Ok v)
    by (intros; apply calculate_ln_returns; [assumption | lra]).
  assert (Hm : (0 <= m)%Z) by (rewrite m_len; unfold shape0; lia).
  assert (Hn : (0 <= n)%Z) by (rewrite n_len; unfold shape0; lia).
  unfold GreedyMaxFunctionNoAS. cbn [lit_0_5 lit_0_99 exact_base].
  destruct (Z.eqb_spec tn 1) as [Htn|Htn].
  { destruct (HL 0%Z ltac:(lia)) as [dl ->].
    destruct (HL 1%Z ltac:(lia)) as [dr ->]. cbn [bind].
    destruct (fgt dl dr); eauto. }
  destruct (Z.eqb_spec m 0) as [Hm0|Hm0].
  { destruct (HL m ltac:(lia)) as [d ->]. cbn [bind]. eauto. }
  destruct (Z.eqb_spec m tn) as [Hmt|Hmt].
  { destruct (HL m ltac:(lia)) as [d ->]. cbn [bind]. eauto. }
  destruct (HL m ltac:(lia)) as [d0 ->].
  destruct (HL (m - 1)%Z ltac:(lia)) as [d1l ->].
  destruct (HL (m + 1)%Z ltac:(lia)) as [d1r ->]. cbn [bind].
  pose proof (climb_start_cases d0 d1l d1r) as Hstart.
  destruct (climb_start d0 d1l d1r); [eauto | | | contradiction].
  - destruct (while_loop_returns (fun s => (kold s >=? 1)%Z)
                (NoAS_down_body m n tn me ne 0.5)
                (fun s => (0 <= kold s <= tn)%Z)
                (fun s => Z.to_nat (kold s))) with (fuel := fuel)
      (s := {| kold := (m - 1)%Z; dold := d1l; btemp := false |})
      as [s ->]; cbn [kold]; try lia.
    + intros s Hs G. apply Z.geb_le in G. unfold NoAS_down_body.
      cbn [lit_0_99 exact_base].
      destruct (HL (kold s - 1)%Z ltac:(lia)) as [d ->]. cbn [bind].
      destruct (flt _ _); do 2 eexists; (split; [reflexivity|]);
        intros E; [discriminate|]. cbn [kold]. lia.
    + cbn [bind]. destruct (btemp s); eauto.
  - destruct (while_loop_returns (fun s => (kold s <=? tn - 1)%Z)
                (NoAS_up_body m n tn me ne 0.5)
                (fun s => (0 <= kold s <= tn)%Z)
                (fun s => Z.to_nat (tn - kold s))) with (fuel := fuel)
      (s := {| kold := (m + 1)%Z; dold := d1r; btemp := false |})
      as [s ->]; cbn [kold]; try lia.
    + intros s Hs G. apply Z.leb_le in G. unfold NoAS_up_body.
      cbn [lit_0_99 exact_base].
      destruct (HL (kold s + 1)%Z ltac:(lia)) as [d ->]. cbn [bind].
      destruct (flt _ _); do 2 eexists; (split; [reflexivity|]);
        intros E; [discriminate|]. cbn [kold]. lia.
    + cbn [bind]. destruct (btemp s); eauto.
Qed.

Lemma GreedyMaxFunctionAS_returns (fuel : nat) (max_allowed_ar : R) :
  0 < max_allowed_ar < 1 ->
  (Z.to_nat tn <= fuel)%nat ->
  exists d k ar,
    GreedyMaxFunctionAS fuel m n tn me ne max_allowed_ar = Ok (d, k, ar).
Proof.
  intros Hmax Hfuel.
  assert (HL : forall r k mx, (0 <= k <= tn)%Z -> 0 < mx < 1 ->
                  exists v, calculate_ln m n tn me ne r k mx = Ok v)
    by (intros; now apply calculate_ln_returns).
  assert (Hm : (0 <= m)%Z) by (rewrite m_len; unfold shape0; lia).
  assert (Hn : (0 <= n)%Z) by (rewrite n_len; unfold shape0; lia).
  assert (Hz : tn <> 0%Z) by lia.
  unfold GreedyMaxFunctionAS.
  rewrite (proj2 (Z.eqb_eq (m + n) tn)) by lia. cbn [negb].
  destruct (Z.eqb_spec tn 1) as [Htn|Htn].
  { cbn [lit_0_99 of_int exact_base].
    destruct (HL (IZR 0) 0%Z 0.99 ltac:(lia) ltac:(lra)) as [dl ->].
    destruct (HL (IZR 1) 1%Z 0.99 ltac:(lia) ltac:(lra)) as [dr ->].
    cbn [bind]. destruct (fgt dl dr); eauto. }
  destruct (Z.eqb_spec m 0) as [Hm0|Hm0].
  { cbn [of_int exact_base].
    destruct (HL (IZR 0) m max_allowed_ar ltac:(lia) Hmax) as [d ->].
    cbn [bind]. eauto. }
  destruct (Z.eqb_spec m tn) as [Hmt|Hmt].
  { cbn [of_int exact_base].
    destruct (HL (IZR 1) m max_allowed_ar ltac:(lia) Hmax) as [d ->].
    cbn [bind]. eauto. }
  rewrite !(ratio_of_count tn Hz). cbn [bind].
  destruct (HL (IZR m / IZR tn) m max_allowed_ar ltac:(lia) Hmax) as [d0 ->].
  destruct (HL (IZR (m - 1) / IZR tn) (m - 1)%Z max_allowed_ar ltac:(lia) Hmax)
    as [d1l ->].
  destruct (HL (IZR (m + 1) / IZR tn) (m + 1)%Z max_allowed_ar ltac:(lia) Hmax)
    as [d1r ->]. cbn [bind].
  pose proof (climb_start_cases d0 d1l d1r) as Hstart.
  destruct (climb_start d0 d1l d1r); [eauto | | | contradiction].
  - destruct (while_loop_returns (fun s => (koldAS s >? 1)%Z)
                (AS_down_body m n tn me ne max_allowed_ar)
                (fun s => (0 <= koldAS s <= tn)%Z)
                (fun s => Z.to_nat (koldAS s))) with (fuel := fuel)
      (s := {| koldAS := (m - 1)%Z; doldAS := d1l;
               roldAS := IZR (m - 1) / IZR tn; btempAS := false |})
      as [s ->]; cbn [koldAS]; try lia.
    + intros s Hs G. apply Z.gtb_lt in G. unfold AS_down_body.
      rewrite (ratio_of_count tn Hz). cbn [bind].
      destruct (HL (IZR (koldAS s - 1) / IZR tn) (koldAS s - 1)%Z
                  max_allowed_ar ltac:(lia) Hmax) as [d ->]. cbn [bind].
      destruct (flt _ _); do 2 eexists; (split; [reflexivity|]);
        intros E; [discriminate|]. cbn [koldAS]. lia.
    + cbn [bind]. destruct (btempAS s); eauto.
  - destruct (while_loop_returns (fun s => (koldAS s <? tn - 1)%Z)
                (AS_up_body m n tn me ne max_allowed_ar)
                (fun s => (0 <= koldAS s <= tn)%Z)
                (fun s => Z.to_nat (tn - koldAS s))) with (fuel := fuel)
      (s := {| koldAS := (m + 1)%Z; doldAS := d1r;
               roldAS := IZR (m + 1) / IZR tn; btempAS := false |})
      as [s ->]; cbn [koldAS]; try lia.
    + intros s Hs G. apply Z.ltb_lt in G. unfold AS_up_body.
      rewrite (ratio_of_count tn Hz). cbn [bind].
      destruct (HL (IZR (koldAS s + 1) / IZR tn) (koldAS s + 1)%Z
                  max_allowed_ar ltac:(lia) Hmax) as [d ->]. cbn [bind].
      destruct (flt _ _); do 2 eexists; (split; [reflexivity|]);
        intros E; [discriminate|]. cbn [koldAS]. lia.
    + cbn [bind]. destruct (btempAS s); eauto.
Qed.

End ExactSearchReturns.

Section SearchTheorems.

Local Open Scope R_scope.

(** X4: in exact arithmetic, with a single read or with 0 < m < tn, the
    count k returned by GreedyMaxFunctionNoAS is a local maximum of
    calculate_ln (r = 0.5) over [0, tn]: the likelihood at k - 1 and at
    k + 1, where inside [0, tn], is below the returned likelihood plus
    1e-8. *)
Theorem GreedyMaxFunctionNoAS_local_maximum (fuel : nat) (m n tn : Z)
  (me ne : list Z) (d : R) (k : Z) :
  (0 <= m)%Z -> (0 <= n)%Z -> (m + n = tn)%Z ->
  (tn = 1 \/ 0 < m < tn)%Z ->
  GreedyMaxFunctionNoAS fuel m n tn me ne = Ok (d, k) ->
  forall j, (j = k - 1 \/ j = k + 1)%Z -> (0 <= j <= tn)%Z ->
            exists dj, calculate_ln m n tn me ne 0.5 j 0.99 = Ok dj
                       /\ dj - 1e-8 < d.
Proof.
  intros Hm Hn Hsum Hcase H.
  exact (proj1 (proj2 (GreedyMaxFunctionNoAS_exact m n tn me ne fuel d k
                         Hm Hn Hsum Hcase H))).
Qed.

Lemma GreedyMaxFunctionNoAS_local_maximum_witness :
  exists (d : R) (k : Z),
    GreedyMaxFunctionNoAS 3 1 2 3 [30%Z] [20%Z; 20%Z] = Ok (d, k)
    /\ forall j, (j = k - 1 \/ j = k + 1)%Z -> (0 <= j <= 3)%Z ->
                 exists dj, calculate_ln 1 2 3 [30%Z] [20%Z; 20%Z] 0.5 j 0.99
                            = Ok dj /\ dj - 1e-8 < d.
Proof.
  destruct (GreedyMaxFunctionNoAS_returns 1 2 3 [30%Z] [20%Z; 20%Z]
              eq_refl eq_refl eq_refl ltac:(lia)
              ltac:(repeat constructor; lia) ltac:(repeat constructor; lia)
              3%nat ltac:(lia)) as (d & k & H).
  exists d, k. split; [exact H|].
  apply (GreedyMaxFunctionNoAS_local_maximum 3 1 2 3 [30%Z] [20%Z; 20%Z] d k);
    [lia | lia | lia | lia | exact H].
Defined.

(** X5: in exact arithmetic, with 0 < m < tn, the count k returned by
    GreedyMaxFunctionAS is a local maximum of calculate_ln (r = k / tn)
    over the interior counts [1, tn - 1]; the counts 0 and tn are not
    compared with their neighbours 1 and tn - 1. *)
Theorem GreedyMaxFunctionAS_local_maximum (fuel : nat) (m n tn : Z)
  (me ne : list Z) (max_allowed_ar d : R) (k : Z) (ar : R) :
  (0 < m < tn)%Z ->
  GreedyMaxFunctionAS fuel m n tn me ne max_allowed_ar = Ok (d, k, ar) ->
  forall j, (j = k - 1 \/ j = k + 1)%Z -> (1 <= j <= tn - 1)%Z ->
            exists dj,
              calculate_ln m n tn me ne (IZR j / IZR tn) j max_allowed_ar
              = Ok dj
              /\ dj - 1e-8 < d.
Proof.
  intros Hin H.
  exact (proj1 (proj2 (proj2
           (GreedyMaxFunctionAS_exact m n tn me ne max_allowed_ar
              ltac:(lia) fuel d k ar Hin H)))).
Qed.

Lemma GreedyMaxFunctionAS_local_maximum_witness :
  exists (d : R) (k : Z) (ar : R),
    GreedyMaxFunctionAS 4 2 2 4 [30%Z; 30%Z] [20%Z; 20%Z] 0.99 = Ok (d, k, ar)
    /\ forall j, (j = k - 1 \/ j = k + 1)%Z -> (1 <= j <= 4 - 1)%Z ->
                 exists dj,
                   calculate_ln 2 2 4 [30%Z; 30%Z] [20%Z; 20%Z] (IZR j / 4) j
                     0.99 = Ok dj
                   /\ dj - 1e-8 < d.
Proof.
  destruct (GreedyMaxFunctionAS_returns 2 2 4 [30%Z; 30%Z] [20%Z; 20%Z]
              eq_refl eq_refl eq_refl ltac:(lia)
              ltac:(repeat constructor; lia) ltac:(repeat constructor; lia)
              4%nat 0.99 ltac:(lra) ltac:(lia)) as (d & k & ar & H).
  exists d, k, ar. split; [exact H|].
  apply (GreedyMaxFunctionAS_local_maximum 4 2 2 4 [30%Z; 30%Z]
           [20%Z; 20%Z] 0.99 d k ar); [lia | exact H].
Defined.

(** X6: in exact arithmetic, with 0 < m < tn, neither search returns a
    likelihood below the likelihood of the observed count m, and a
    returned count other than m has a strictly greater likelihood. *)
Theorem greedy_searches_improve (fuel : nat) (m n tn : Z) (me ne : list Z)
  (max_allowed_ar : R) :
  (0 <= n)%Z -> (m + n = tn)%Z -> (0 < m < tn)%Z ->
  (forall d k,
      GreedyMaxFunctionNoAS fuel m n tn me ne = Ok (d, k) ->
      exists d0, calculate_ln m n tn me ne 0.5 m 0.99 = Ok d0
                 /\ d0 <= d /\ (k <> m -> d0 < d))
  /\ (forall d k ar,
         GreedyMaxFunctionAS fuel m n tn me ne max_allowed_ar = Ok (d, k, ar) ->
         exists d0,
           calculate_ln m n tn me ne (IZR m / IZR tn) m max_allowed_ar = Ok d0
           /\ d0 <= d /\ (k <> m -> d0 < d)).
Proof.
  intros Hn Hsum Hin. split.
  - intros d k H.
    exact (proj2 (proj2 (GreedyMaxFunctionNoAS_exact m n tn me ne fuel d k
                           ltac:(lia) Hn Hsum (or_intror Hin) H)) Hin).
  - intros d k ar H.
    exact (proj2 (proj2 (proj2
             (GreedyMaxFunctionAS_exact m n tn me ne max_allowed_ar
                ltac:(lia) fuel d k ar Hin H)))).
Qed.

Lemma greedy_searches_improve_witness :
  exists (d : R) (k : Z),
    GreedyMaxFunctionNoAS 4 3 1 4 [30%Z; 30%Z; 30%Z] [20%Z] = Ok (d, k)
    /\ exists d0,
         calculate_ln 3 1 4 [30%Z; 30%Z; 30%Z] [20%Z] 0.5 3 0.99 = Ok d0
         /\ d0 <= d /\ (k <> 3%Z -> d0 < d).
Proof.
  destruct (GreedyMaxFunctionNoAS_returns 3 1 4 [30%Z; 30%Z; 30%Z] [20%Z]
              eq_refl eq_refl eq_refl ltac:(lia)
              ltac:(repeat constructor; lia) ltac:(repeat constructor; lia)
              4%nat ltac:(lia)) as (d & k & H).
  exists d, k. split; [exact H|].
  apply (proj1 (greedy_searches_improve 4 3 1 4 [30%Z; 30%Z; 30%Z] [20%Z]
                  0.99 ltac:(lia) ltac:(lia) ltac:(lia)) d k H).
Defined.

(** X7: in exact arithmetic both searches return, without raising, on
    arrays of Phred scores of at least 1 with m and n their lengths,
    tn = m + n >= 1, 0 < max_allowed_ar < 1 and tn iterations of fuel. *)
Theorem greedy_searches_return (fuel : nat) (m n tn : Z) (me ne : list Z)
  (max_allowed_ar : R) :
  m = shape0 me -> n = shape0 ne -> (tn = m + n)%Z -> (1 <= tn)%Z ->
  Forall (fun q => (1 <= q)%Z) me -> Forall (fun q => (1 <= q)%Z) ne ->
  0 < max_allowed_ar < 1 ->
  (Z.to_nat tn <= fuel)%nat ->
  (exists d k, GreedyMaxFunctionNoAS fuel m n tn me ne = Ok (d, k))
  /\ (exists d k ar,
         GreedyMaxFunctionAS fuel m n tn me ne max_allowed_ar = Ok (d, k, ar)).
Proof.
  intros Hm Hn Hsum Htn Hme Hne Hmax Hfuel. split.
  - now apply GreedyMaxFunctionNoAS_returns.
  - now apply GreedyMaxFunctionAS_returns.
Qed.

Lemma greedy_searches_return_witness :
  (exists (d : R) k,
      GreedyMaxFunctionNoAS 3 2 1 3 [30%Z; 2%Z] [40%Z] = Ok (d, k))
  /\ (exists (d : R) k ar,
         GreedyMaxFunctionAS 3 2 1 3 [30%Z; 2%Z] [40%Z] 0.99 = Ok (d, k, ar)).
Proof.
  apply greedy_searches_return;
    [reflexivity | reflexivity | reflexivity | lia
    | repeat constructor; lia | repeat constructor; lia | lra | lia].
Defined.

End SearchTheorems.

Section ResultWitnesses.

Local Open Scope R_scope.

Lemma GreedyMaxFunctionNoAS_result_witness :
  exists (d : R) (k : Z),
    GreedyMaxFunctionNoAS 3 1 2 3 [30%Z] [20%Z; 20%Z] = Ok (d, k)
    /\ (0 <= k <= 3)%Z
    /\ calculate_ln 1 2 3 [30%Z] [20%Z; 20%Z] 0.5 k 0.99 = Ok d.
Proof.
  destruct (GreedyMaxFunctionNoAS_returns 1 2 3 [30%Z] [20%Z; 20%Z]
              eq_refl eq_refl eq_refl ltac:(lia)
              ltac:(repeat constructor; lia) ltac:(repeat constructor; lia)
              3%nat ltac:(lia)) as (d & k & H).
  exists d, k. split; [exact H|].
  exact (GreedyMaxFunctionNoAS_result 3 1 2 3 [30%Z] [20%Z; 20%Z] d k
           ltac:(lia) ltac:(lia) ltac:(lia) H).
Defined.

Lemma GreedyMaxFunctionAS_result_witness :
  exists (d : R) (k : Z) (ar : R),
    GreedyMaxFunctionAS 3 0 3 3 [] [20%Z; 20%Z; 30%Z] 0.9 = Ok (d, k, ar)
    /\ k = 0%Z /\ ar = 1 - 0.9.
Proof.
  destruct (GreedyMaxFunctionAS_returns 0 3 3 [] [20%Z; 20%Z; 30%Z]
              eq_refl eq_refl eq_refl ltac:(lia)
              ltac:(repeat constructor; lia) ltac:(repeat constructor; lia)
              3%nat 0.9 ltac:(lra) ltac:(lia)) as (d & k & ar & H).
  exists d, k, ar. split; [exact H|].
  destruct (GreedyMaxFunctionAS_result 3 0 3 3 [] [20%Z; 20%Z; 30%Z] 0.9 d k ar
              ltac:(lia) ltac:(lia) H) as (_ & _ & Hcases).
  destruct Hcases as [(E & _) | [(_ & _ & Hk & Har & _)
                     | [(_ & E & _) | (_ & E & _)]]];
    [lia | split; [exact Hk | exact Har] | lia | lia].
Defined.

Lemma calculate_ln_closed_form_witness :
  calculate_ln 1 2 3 [30%Z] [20%Z; 10%Z] 0.001 1 0.99
  = Ok (0 + (1 * ln (clamped_ratio 0.001 0.99)
             + IZR (3 - 1) * ln (1 - clamped_ratio 0.001 0.99))
        + ln (C (Z.to_nat 3) (Z.to_nat 1))
        + sum_ln (top1_mass 3 1) [30%Z]
        + sum_ln (top2_mass 3 1) [20%Z; 10%Z]).
Proof.
  apply calculate_ln_closed_form;
    [reflexivity | reflexivity | lia | lia | lra
    | repeat constructor; lia | repeat constructor; lia].
Defined.

End ResultWitnesses.

(** ** The heterozygous model evaluators *)

Section EvaluatorErrors.

Context {F : Type} {FB : FloatBase F} {FM : FloatMath F}.

Ltac plain_raise H :=
  apply bind_Raise_inv in H as [H | (? & ? & H)];
  [ exfalso; revert H; apply plain_no_Exception;
    first [ apply plain_calculate_ln | apply plain_float_div
          | apply plain_math_log ] | ].

Lemma GreedyMaxFunctionNoAS_message (fuel : nat) (m n tn : Z)
  (me ne : list Z) (msg : string) :
  GreedyMaxFunctionNoAS fuel m n tn me ne = Raise (Exception msg) ->
  msg = "error in GreedyMaxFunctionNoAS"%string.
Proof.
  unfold GreedyMaxFunctionNoAS. intros H.
  destruct (tn =? 1).
  { do 2 plain_raise H. now destruct (fgt _ _). }
  destruct (m =? 0); [plain_raise H; discriminate|].
  destruct (m =? tn); [plain_raise H; discriminate|].
  do 3 plain_raise H.
  destruct (climb_start _ _ _) eqn:E.
  - discriminate.
  - apply bind_Raise_inv in H as [H | (s & _ & H)].
    + apply while_loop_raise in H as [s0 H]. exfalso. revert H.
      apply plain_no_Exception, plain_NoAS_down_body.
    + now destruct (btemp s).
  - apply bind_Raise_inv in H as [H | (s & _ & H)].
    + apply while_loop_raise in H as [s0 H]. exfalso. revert H.
      apply plain_no_Exception, plain_NoAS_up_body.
    + now destruct (btemp s).
  - now injection H as <-.
Qed.

Lemma GreedyMaxFunctionAS_message (fuel : nat) (m n tn : Z)
  (me ne : list Z) (max_allowed_ar : F) (msg : string) :
  GreedyMaxFunctionAS fuel m n tn me ne max_allowed_ar
  = Raise (Exception msg) ->
  msg = "error in GreedyMaxFunctionAS"%string.
Proof.
  unfold GreedyMaxFunctionAS. intros H.
  destruct (negb (m + n =? tn)); [discriminate|].
  destruct (tn =? 1).
  { do 2 plain_raise H. now destruct (fgt _ _). }
  destruct (m =? 0); [plain_raise H; discriminate|].
  destruct (m =? tn); [plain_raise H; discriminate|].
  do 6 plain_raise H.
  destruct (climb_start _ _ _) eqn:E.
  - plain_raise H. discriminate.
  - plain_raise H.
    apply bind_Raise_inv in H as [H | (s & _ & H)].
    + apply while_loop_raise in H as [s0 H]. exfalso. revert H.
      apply plain_no_Exception, plain_AS_down_body.
    + now destruct (btempAS s).
  - plain_raise H.
    apply bind_Raise_inv in H as [H | (s & _ & H)].
    + apply while_loop_raise in H as [s0 H]. exfalso. revert H.
      apply plain_no_Exception, plain_AS_up_body.
    + now destruct (btempAS s).
  - now injection H as <-.
Qed.

Lemma shape0_sum_zero (a b : list Z) :
  shape0 a + shape0 b = 0 <-> a = [] /\ b = [].
Proof.
  unfold shape0. split.
  - intros H. destruct a, b; cbn [List.length] in H; try lia. auto.
  - intros [-> ->]. reflexivity.
Qed.

(** X8: in any arithmetic, both heterozygous evaluators raise
    Exception("Total number of treatment reads is 0!") exactly when both
    treatment arrays are empty, whatever the control arrays hold. *)
Theorem treatment_empty_exception (fuel : nat)
  (top1_bq_T top1_bq_C top2_bq_T top2_bq_C : list Z) (max_allowed_ar : F) :
  (CalModel_Heter_noAS fuel top1_bq_T top1_bq_C top2_bq_T top2_bq_C
   = Raise (Exception "Total number of treatment reads is 0!")
   <-> top1_bq_T = [] /\ top2_bq_T = [])
  /\ (CalModel_Heter_AS fuel top1_bq_T top1_bq_C top2_bq_T top2_bq_C
        max_allowed_ar
      = Raise (Exception "Total number of treatment reads is 0!")
      <-> top1_bq_T = [] /\ top2_bq_T = []).
Proof.
  split; split.
  - unfold CalModel_Heter_noAS.
    destruct (Z.eqb_spec (shape0 top1_bq_T + shape0 top2_bq_T) 0) as [E|E].
    { intros _. now apply shape0_sum_zero. }
    intros H. exfalso.
    apply bind_Raise_inv in H as [H | ([lnL BIC] & _ & H)].
    { apply bind_Raise_inv in H as [H | ([lnL_T k_T] & _ & H)];
        [|discriminate].
      apply GreedyMaxFunctionNoAS_message in H. discriminate. }
    apply bind_Raise_inv in H as [H | ([lnL' BIC'] & _ & H)].
    { destruct (shape0 top1_bq_C + shape0 top2_bq_C =? 0); [discriminate|].
      apply bind_Raise_inv in H as [H | ([lnL_C k_C] & _ & H)];
        [|discriminate].
      apply GreedyMaxFunctionNoAS_message in H. discriminate. }
    apply bind_Raise_inv in H as [H | (b & _ & H)]; [|discriminate].
    destruct (shape0 top1_bq_C + shape0 top2_bq_C =? 0).
    + plain_raise H. discriminate.
    + do 2 plain_raise H. discriminate.
  - intros [-> ->]. reflexivity.
  - unfold CalModel_Heter_AS.
    destruct (Z.eqb_spec (shape0 top1_bq_T + shape0 top2_bq_T) 0) as [E|E].
    { intros _. now apply shape0_sum_zero. }
    intros H. exfalso.
    apply bind_Raise_inv in H as [H | ([lnL BIC] & _ & H)].
    { apply bind_Raise_inv in H as [H | ([[lnL_T k_T] ar] & _ & H)];
        [|discriminate].
      apply GreedyMaxFunctionAS_message in H. discriminate. }
    apply bind_Raise_inv in H as [H | ([lnL' BIC'] & _ & H)].
    { destruct (shape0 top1_bq_C + shape0 top2_bq_C =? 0); [discriminate|].
      apply bind_Raise_inv in H as [H | ([lnL_C k_C] & _ & H)];
        [|discriminate].
      apply GreedyMaxFunctionNoAS_message in H. discriminate. }
    apply bind_Raise_inv in H as [H | (b & _ & H)]; [|discriminate].
    destruct (shape0 top1_bq_C + shape0 top2_bq_C =? 0).
    + plain_raise H. discriminate.
    + do 2 plain_raise H. discriminate.
  - intros [-> ->]. reflexivity.
Qed.

End EvaluatorErrors.

Section EvaluatorValues.

Local Open Scope R_scope.

Lemma shape0_nonneg (a : list Z) : (0 <= shape0 a)%Z.
Proof. unfold shape0. lia. Qed.

Lemma log_of_count (tn : Z) : (0 < tn)%Z -> math_log (of_int tn) = Ok (ln (IZR tn)).
Proof.
  intros H. cbn [of_int exact_base]. apply math_log_pos. now apply IZR_lt.
Qed.

Lemma CalModel_Heter_noAS_no_control (fuel : nat)
  (top1_bq_T top1_bq_C top2_bq_T top2_bq_C : list Z) (lnL_T : R) (k_T : Z) :
  let tn_T := (shape0 top1_bq_T + shape0 top2_bq_T)%Z in
  let tn_C := (shape0 top1_bq_C + shape0 top2_bq_C)%Z in
  tn_T <> 0%Z ->
  GreedyMaxFunctionNoAS fuel (shape0 top1_bq_T) (shape0 top2_bq_T) tn_T
    top1_bq_T top2_bq_T = Ok (lnL_T, k_T) ->
  tn_C = 0%Z ->
  CalModel_Heter_noAS fuel top1_bq_T top1_bq_C top2_bq_T top2_bq_C
  = Ok (lnL_T, -2 * lnL_T + ln (IZR tn_T)).
Proof.
  intros tn_T tn_C HT HG HC.
  pose proof (shape0_nonneg top1_bq_T). pose proof (shape0_nonneg top2_bq_T).
  unfold CalModel_Heter_noAS. fold tn_T tn_C.
  rewrite (proj2 (Z.eqb_neq tn_T 0) HT), HG, HC. cbn [bind Z.eqb].
  rewrite log_of_count by lia. cbn [bind of_int fadd fmul exact_base].
  f_equal. f_equal; lra.
Qed.

Lemma CalModel_Heter_noAS_with_control (fuel : nat)
  (top1_bq_T top1_bq_C top2_bq_T top2_bq_C : list Z) (lnL_T : R) (k_T : Z)
  (lnL_C : R) (k_C : Z) :
  let tn_T := (shape0 top1_bq_T + shape0 top2_bq_T)%Z in
  let tn_C := (shape0 top1_bq_C + shape0 top2_bq_C)%Z in
  tn_T <> 0%Z ->
  GreedyMaxFunctionNoAS fuel (shape0 top1_bq_T) (shape0 top2_bq_T) tn_T
    top1_bq_T top2_bq_T = Ok (lnL_T, k_T) ->
  tn_C <> 0%Z ->
  GreedyMaxFunctionNoAS fuel (shape0 top1_bq_C) (shape0 top2_bq_C) tn_C
    top1_bq_C top2_bq_C = Ok (lnL_C, k_C) ->
  CalModel_Heter_noAS fuel top1_bq_T top1_bq_C top2_bq_T top2_bq_C
  = Ok (lnL_T + lnL_C, -2 * (lnL_T + lnL_C) + ln (IZR tn_T) + ln (IZR tn_C)).
Proof.
  intros tn_T tn_C HT HG HC HGC.
  pose proof (shape0_nonneg top1_bq_T). pose proof (shape0_nonneg top2_bq_T).
  pose proof (shape0_nonneg top1_bq_C). pose proof (shape0_nonneg top2_bq_C).
  unfold CalModel_Heter_noAS. fold tn_T tn_C.
  rewrite (proj2 (Z.eqb_neq tn_T 0) HT), HG. cbn [bind].
  rewrite (proj2 (Z.eqb_neq tn_C 0) HC), HGC. cbn [bind].
  rewrite !log_of_count by lia. cbn [bind of_int fadd fmul exact_base].
  f_equal. f_equal; lra.
Qed.

(** X9: in exact arithmetic, with a non-empty treatment group whose search
    returns lnL_T, CalModel_Heter_noAS returns (lnL_T, -2 lnL_T + log tn_T)
    when the control group is empty, and
    (lnL_T + lnL_C, -2 (lnL_T + lnL_C) + log tn_T + log tn_C) when the
    control search returns lnL_C. *)
Theorem CalModel_Heter_noAS_value (fuel : nat)
  (top1_bq_T top1_bq_C top2_bq_T top2_bq_C : list Z) (lnL_T : R) (k_T : Z) :
  let tn_T := (shape0 top1_bq_T + shape0 top2_bq_T)%Z in
  let tn_C := (shape0 top1_bq_C + shape0 top2_bq_C)%Z in
  tn_T <> 0%Z ->
  GreedyMaxFunctionNoAS fuel (shape0 top1_bq_T) (shape0 top2_bq_T) tn_T
    top1_bq_T top2_bq_T = Ok (lnL_T, k_T) ->
  (tn_C = 0%Z ->
   CalModel_Heter_noAS fuel top1_bq_T top1_bq_C top2_bq_T top2_bq_C
   = Ok (lnL_T, -2 * lnL_T + ln (IZR tn_T)))
  /\ (forall lnL_C k_C,
         tn_C <> 0%Z ->
         GreedyMaxFunctionNoAS fuel (shape0 top1_bq_C) (shape0 top2_bq_C) tn_C
           top1_bq_C top2_bq_C = Ok (lnL_C, k_C) ->
         CalModel_Heter_noAS fuel top1_bq_T top1_bq_C top2_bq_T top2_bq_C
         = Ok (lnL_T + lnL_C,
               -2 * (lnL_T + lnL_C) + ln (IZR tn_T) + ln (IZR tn_C))).
Proof.
  intros tn_T tn_C HT HG. split.
  - intros HC. now apply (CalModel_Heter_noAS_no_control fuel _ _ _ _ _ k_T).
  - intros lnL_C k_C HC HGC.
    now apply (CalModel_Heter_noAS_with_control fuel _ _ _ _ _ k_T _ k_C).
Qed.

Lemma CalModel_Heter_AS_no_control (fuel : nat)
  (top1_bq_T top1_bq_C top2_bq_T top2_bq_C : list Z)
  (max_allowed_ar lnL_T : R) (k_T : Z) (AS_alleleratio : R) :
  let tn_T := (shape0 top1_bq_T + shape0 top2_bq_T)%Z in
  let tn_C := (shape0 top1_bq_C + shape0 top2_bq_C)%Z in
  tn_T <> 0%Z ->
  GreedyMaxFunctionAS fuel (shape0 top1_bq_T) (shape0 top2_bq_T) tn_T
    top1_bq_T top2_bq_T max_allowed_ar = Ok (lnL_T, k_T, AS_alleleratio) ->
  tn_C = 0%Z ->
  CalModel_Heter_AS fuel top1_bq_T top1_bq_C top2_bq_T top2_bq_C
    max_allowed_ar
  = Ok (lnL_T, -2 * lnL_T + 2 * ln (IZR tn_T)).
Proof.
  intros tn_T tn_C HT HG HC.
  pose proof (shape0_nonneg top1_bq_T). pose proof (shape0_nonneg top2_bq_T).
  unfold CalModel_Heter_AS. fold tn_T tn_C.
  rewrite (proj2 (Z.eqb_neq tn_T 0) HT), HG, HC. cbn [bind Z.eqb].
  rewrite log_of_count by lia. cbn [bind of_int fadd fmul exact_base].
  f_equal. f_equal; lra.
Qed.

Lemma CalModel_Heter_AS_with_control (fuel : nat)
  (top1_bq_T top1_bq_C top2_bq_T top2_bq_C : list Z)
  (max_allowed_ar lnL_T : R) (k_T : Z) (AS_alleleratio : R)
  (lnL_C : R) (k_C : Z) :
  let tn_T := (shape0 top1_bq_T + shape0 top2_bq_T)%Z in
  let tn_C := (shape0 top1_bq_C + shape0 top2_bq_C)%Z in
  tn_T <> 0%Z ->
  GreedyMaxFunctionAS fuel (shape0 top1_bq_T) (shape0 top2_bq_T) tn_T
    top1_bq_T top2_bq_T max_allowed_ar = Ok (lnL_T, k_T, AS_alleleratio) ->
  tn_C <> 0%Z ->
  GreedyMaxFunctionNoAS fuel (shape0 top1_bq_C) (shape0 top2_bq_C) tn_C
    top1_bq_C top2_bq_C = Ok (lnL_C, k_C) ->
  CalModel_Heter_AS fuel top1_bq_T top1_bq_C top2_bq_T top2_bq_C
    max_allowed_ar
  = Ok (lnL_T + lnL_C, -2 * (lnL_T + lnL_C) + 2 * ln (IZR tn_T) + ln (IZR tn_C)).
Proof.
  intros tn_T tn_C HT HG HC HGC.
  pose proof (shape0_nonneg top1_bq_T). pose proof (shape0_nonneg top2_bq_T).
  pose proof (shape0_nonneg top1_bq_C). pose proof (shape0_nonneg top2_bq_C).
  unfold CalModel_Heter_AS. fold tn_T tn_C.
  rewrite (proj2 (Z.eqb_neq tn_T 0) HT), HG. cbn [bind].
  rewrite (proj2 (Z.eqb_neq tn_C 0) HC), HGC. cbn [bind].
  rewrite !log_of_count by lia. cbn [bind of_int fadd fmul exact_base].
  f_equal. f_equal; lra.
Qed.

(** X10: the same for CalModel_Heter_AS, whose penalty counts log tn_T
    twice: (lnL_T, -2 lnL_T + 2 log tn_T) with an empty control group, and
    (lnL_T + lnL_C, -2 (lnL_T + lnL_C) + 2 log tn_T + log tn_C)
    otherwise; the control group is searched without allele-specific
    bias. *)
Theorem CalModel_Heter_AS_value (fuel : nat)
  (top1_bq_T top1_bq_C top2_bq_T top2_bq_C : list Z)
  (max_allowed_ar lnL_T : R) (k_T : Z) (AS_alleleratio : R) :
  let tn_T := (shape0 top1_bq_T + shape0 top2_bq_T)%Z in
  let tn_C := (shape0 top1_bq_C + shape0 top2_bq_C)%Z in
  tn_T <> 0%Z ->
  GreedyMaxFunctionAS fuel (shape0 top1_bq_T) (shape0 top2_bq_T) tn_T
    top1_bq_T top2_bq_T max_allowed_ar = Ok (lnL_T, k_T, AS_alleleratio) ->
  (tn_C = 0%Z ->
   CalModel_Heter_AS fuel top1_bq_T top1_bq_C top2_bq_T top2_bq_C
     max_allowed_ar
   = Ok (lnL_T, -2 * lnL_T + 2 * ln (IZR tn_T)))
  /\ (forall lnL_C k_C,
         tn_C <> 0%Z ->
         GreedyMaxFunctionNoAS fuel (shape0 top1_bq_C) (shape0 top2_bq_C) tn_C
           top1_bq_C top2_bq_C = Ok (lnL_C, k_C) ->
         CalModel_Heter_AS fuel top1_bq_T top1_bq_C top2_bq_T top2_bq_C
           max_allowed_ar
         = Ok (lnL_T + lnL_C,
               -2 * (lnL_T + lnL_C) + 2 * ln (IZR tn_T) + ln (IZR tn_C))).
Proof.
  intros tn_T tn_C HT HG. split.
  - intros HC.
    now apply (CalModel_Heter_AS_no_control fuel _ _ _ _ _ _ k_T
                 AS_alleleratio).
  - intros lnL_C k_C HC HGC.
    now apply (CalModel_Heter_AS_with_control fuel _ _ _ _ _ _ k_T
                 AS_alleleratio _ k_C).
Qed.

(** X11: in exact arithmetic, with Phred scores of at least 1, a non-empty
    treatment group, 0 < max_allowed_ar < 1 and fuel for the larger group,
    both heterozygous evaluators return a pair and raise nothing; the
    control group may be empty. *)
Theorem heterozygous_evaluators_return (fuel : nat)
  (top1_bq_T top1_bq_C top2_bq_T top2_bq_C : list Z) (max_allowed_ar : R) :
  let tn_T := (shape0 top1_bq_T + shape0 top2_bq_T)%Z in
  let tn_C := (shape0 top1_bq_C + shape0 top2_bq_C)%Z in
  tn_T <> 0%Z ->
  Forall (fun q => (1 <= q)%Z) top1_bq_T ->
  Forall (fun q => (1 <= q)%Z) top2_bq_T ->
  Forall (fun q => (1 <= q)%Z) top1_bq_C ->
  Forall (fun q => (1 <= q)%Z) top2_bq_C ->
  0 < max_allowed_ar < 1 ->
  (Z.to_nat tn_T <= fuel)%nat -> (Z.to_nat tn_C <= fuel)%nat ->
  (exists lnL BIC,
      CalModel_Heter_noAS fuel top1_bq_T top1_bq_C top2_bq_T top2_bq_C
      = Ok (lnL, BIC))
  /\ (exists lnL BIC,
         CalModel_Heter_AS fuel top1_bq_T top1_bq_C top2_bq_T top2_bq_C
           max_allowed_ar = Ok (lnL, BIC)).
Proof.
  intros tn_T tn_C HT H1T H2T H1C H2C Hmax HfT HfC.
  pose proof (shape0_nonneg top1_bq_T). pose proof (shape0_nonneg top2_bq_T).
  pose proof (shape0_nonneg top1_bq_C). pose proof (shape0_nonneg top2_bq_C).
  destruct (GreedyMaxFunctionNoAS_returns (shape0 top1_bq_T)
              (shape0 top2_bq_T) tn_T top1_bq_T top2_bq_T eq_refl eq_refl
              eq_refl ltac:(unfold tn_T in *; lia) H1T H2T fuel HfT)
    as (dT & kT & HGT).
  destruct (GreedyMaxFunctionAS_returns (shape0 top1_bq_T)
              (shape0 top2_bq_T) tn_T top1_bq_T top2_bq_T eq_refl eq_refl
              eq_refl ltac:(unfold tn_T in *; lia) H1T H2T fuel
              max_allowed_ar Hmax HfT)
    as (dA & kA & arA & HGA).
  destruct (Z.eq_dec tn_C 0) as [HC|HC].
  - split; do 2 eexists.
    + now apply (CalModel_Heter_noAS_no_control fuel _ _ _ _ dT kT).
    + now apply (CalModel_Heter_AS_no_control fuel _ _ _ _ _ dA kA arA).
  - destruct (GreedyMaxFunctionNoAS_returns (shape0 top1_bq_C)
                (shape0 top2_bq_C) tn_C top1_bq_C top2_bq_C eq_refl eq_refl
                eq_refl ltac:(unfold tn_C in *; lia) H1C H2C fuel HfC)
      as (dC & kC & HGC).
    split; do 2 eexists.
    + now apply (CalModel_Heter_noAS_with_control fuel _ _ _ _ dT kT dC kC).
    + now apply (CalModel_Heter_AS_with_control fuel _ _ _ _ _ dA kA arA
                   dC kC).
Qed.

Lemma CalModel_Heter_noAS_value_witness :
  exists (lnL_T : R) (k_T : Z),
    GreedyMaxFunctionNoAS 3 2 1 3 [30%Z; 30%Z] [20%Z] = Ok (lnL_T, k_T)
    /\ CalModel_Heter_noAS 3 [30%Z; 30%Z] [] [20%Z] []
       = Ok (lnL_T, -2 * lnL_T + ln 3).
Proof.
  destruct (GreedyMaxFunctionNoAS_returns 2 1 3 [30%Z; 30%Z] [20%Z]
              eq_refl eq_refl eq_refl ltac:(lia)
              ltac:(repeat constructor; lia) ltac:(repeat constructor; lia)
              3%nat ltac:(lia)) as (d & k & H).
  exists d, k. split; [exact H|].
  exact (proj1 (CalModel_Heter_noAS_value 3 [30%Z; 30%Z] [] [20%Z] [] d k
                  ltac:(discriminate) H) eq_refl).
Defined.

Lemma CalModel_Heter_AS_value_witness :
  exists (lnL_T : R) (k_T : Z) (ar : R),
    GreedyMaxFunctionAS 3 2 1 3 [30%Z; 30%Z] [20%Z] 0.99 = Ok (lnL_T, k_T, ar)
    /\ CalModel_Heter_AS 3 [30%Z; 30%Z] [] [20%Z] [] 0.99
       = Ok (lnL_T, -2 * lnL_T + 2 * ln 3).
Proof.
  destruct (GreedyMaxFunctionAS_returns 2 1 3 [30%Z; 30%Z] [20%Z]
              eq_refl eq_refl eq_refl ltac:(lia)
              ltac:(repeat constructor; lia) ltac:(repeat constructor; lia)
              3%nat 0.99 ltac:(lra) ltac:(lia)) as (d & k & ar & H).
  exists d, k, ar. split; [exact H|].
  exact (proj1 (CalModel_Heter_AS_value 3 [30%Z; 30%Z] [] [20%Z] [] 0.99 d k
                  ar ltac:(discriminate) H) eq_refl).
Defined.

Lemma heterozygous_evaluators_return_witness :
  (exists lnL BIC : R,
      CalModel_Heter_noAS 3 [30%Z; 30%Z] [25%Z] [20%Z] [] = Ok (lnL, BIC))
  /\ (exists lnL BIC : R,
         CalModel_Heter_AS 3 [30%Z; 30%Z] [25%Z] [20%Z] [] 0.99
         = Ok (lnL, BIC)).
Proof.
  apply heterozygous_evaluators_return;
    [discriminate | repeat constructor; lia | repeat constructor; lia
    | repeat constructor; lia | repeat constructor; lia | lra
    | cbn; lia | cbn; lia].
Defined.

End EvaluatorValues.

(** ** CalModel_Homo in exact arithmetic *)

Section ExactHomozygous.

Local Open Scope R_scope.

Lemma for_each_sum_terms (step : Z -> R -> run R) (h : Z -> R) (a : list Z) :
  (forall q acc, step q acc = Ok (acc + h q)) ->
  forall acc, for_each step a acc = Ok (acc + sum_of h a).
Proof.
  intros Hstep. induction a as [|q a IH]; intros acc;
    cbn [for_each sum_of fold_right].
  - f_equal. lra.
  - rewrite Hstep. cbn [bind]. rewrite IH. fold (sum_of h a). f_equal. lra.
Qed.

Lemma homo_top1_term_exact (q : Z) (lnL : R) :
  homo_top1_term q lnL
  = if Rltb 0 (homo_top1_mass q) then Ok (lnL + ln (homo_top1_mass q))
    else Raise ValueError.
Proof.
  unfold homo_top1_term. rewrite math_exp_exact. cbn [bind].
  unfold math_log1p, homo_top1_mass, error_prob.
  cbn [log1p_in_domain flog1p exact_log1p fneg fmul fadd of_int exact_base
       LN10_tenth].
  set (e := exp (IZR (- q) * 0.23025850929940458)).
  assert (Hb : Rltb (-1) (- e) = Rltb 0 (1 - e)).
  { destruct (Rltb 0 (1 - e)) eqn:E.
    - apply Rltb_true in E. apply Rltb_true. lra.
    - apply Rltb_false in E. apply Rltb_false. lra. }
  rewrite Hb. destruct (Rltb 0 (1 - e)); reflexivity.
Qed.

Lemma homo_top2_term_exact (q : Z) (lnL : R) :
  homo_top2_term q lnL = Ok (lnL + homo_top2_cost q).
Proof.
  unfold homo_top2_term. rewrite math_exp_exact. cbn [bind].
  cbn [of_int fmul LN10_tenth exact_base].
  rewrite math_log_pos by apply exp_pos. cbn [bind fadd exact_base].
  rewrite ln_exp. reflexivity.
Qed.

Lemma homo_top1_mass_pos (q : Z) : 0 < homo_top1_mass q <-> (1 <= q)%Z.
Proof.
  unfold homo_top1_mass. split.
  - intros H. destruct (Z_lt_le_dec q 1) as [Hq|Hq]; [|exact Hq].
    exfalso. unfold error_prob in H.
    assert (H0 : 0 <= IZR (- q) * 0.23025850929940458).
    { apply Rmult_le_pos; [apply IZR_le; lia | lra]. }
    pose proof (exp_ineq1_le (IZR (- q) * 0.23025850929940458)). lra.
  - intros Hq. pose proof (error_prob_lt_1 q Hq). lra.
Qed.

Lemma all_positive_homo (a : list Z) :
  all_positive homo_top1_mass a = true <-> Forall (fun q => (1 <= q)%Z) a.
Proof.
  unfold all_positive. rewrite forallb_forall, Forall_forall.
  split; intros H q Hq.
  - apply homo_top1_mass_pos, Rltb_true. now apply H.
  - apply Rltb_true, homo_top1_mass_pos. now apply H.
Qed.

Lemma CalModel_Homo_exact (top1_bq_T top1_bq_C top2_bq_T top2_bq_C : list Z) :
  CalModel_Homo top1_bq_T top1_bq_C top2_bq_T top2_bq_C
  = if all_positive homo_top1_mass top1_bq_T
       && all_positive homo_top1_mass top1_bq_C
    then
      let lnL := 0 + sum_ln homo_top1_mass top1_bq_T
                 + sum_ln homo_top1_mass top1_bq_C
                 + sum_of homo_top2_cost top2_bq_T
                 + sum_of homo_top2_cost top2_bq_C in
      Ok (lnL, -2 * lnL)
    else Raise ValueError.
Proof.
  unfold CalModel_Homo, homo_top1_step, homo_top2_step.
  rewrite !for_loop_read.
  rewrite (for_each_log_terms _ homo_top1_mass)
    by (intros; apply homo_top1_term_exact).
  destruct (all_positive homo_top1_mass top1_bq_T); cbn [bind andb];
    [|reflexivity].
  rewrite for_loop_read.
  rewrite (for_each_log_terms _ homo_top1_mass)
    by (intros; apply homo_top1_term_exact).
  destruct (all_positive homo_top1_mass top1_bq_C); cbn [bind];
    [|reflexivity].
  rewrite for_loop_read.
  rewrite (for_each_sum_terms _ homo_top2_cost)
    by (intros; apply homo_top2_term_exact).
  cbn [bind]. rewrite for_loop_read.
  rewrite (for_each_sum_terms _ homo_top2_cost)
    by (intros; apply homo_top2_term_exact).
  cbn [bind of_int fmul exact_base]. reflexivity.
Qed.

Lemma sum_ln_app (g : Z -> R) (a b : list Z) :
  sum_ln g (a ++ b) = sum_ln g a + sum_ln g b.
Proof.
  induction a as [|q a IH]; cbn [app sum_ln fold_right].
  - fold (sum_ln g b). lra.
  - fold (sum_ln g (a ++ b)) (sum_ln g a). rewrite IH. lra.
Qed.

Lemma sum_of_app (h : Z -> R) (a b : list Z) :
  sum_of h (a ++ b) = sum_of h a + sum_of h b.
Proof.
  induction a as [|q a IH]; cbn [app sum_of fold_right].
  - fold (sum_of h b). lra.
  - fold (sum_of h (a ++ b)) (sum_of h a). rewrite IH. lra.
Qed.

Lemma all_positive_app (g : Z -> R) (a b : list Z) :
  all_positive g (a ++ b) = all_positive g a && all_positive g b.
Proof. unfold all_positive. apply forallb_app. Qed.

Lemma sum_ln_homo_nonpos (a : list Z) :
  Forall (fun q => (1 <= q)%Z) a -> sum_ln homo_top1_mass a <= 0.
Proof.
  induction 1 as [|q a Hq _ IH]; cbn [sum_ln fold_right]; [lra|].
  fold (sum_ln homo_top1_mass a).
  assert (H : ln (homo_top1_mass q) < 0).
  { rewrite <- ln_1. apply ln_increasing.
    - now apply homo_top1_mass_pos.
    - unfold homo_top1_mass. pose proof (error_prob_pos q). lra. }
  lra.
Qed.

Lemma sum_of_cost_nonpos (a : list Z) :
  Forall (fun q => (0 <= q)%Z) a -> sum_of homo_top2_cost a <= 0.
Proof.
  induction 1 as [|q a Hq _ IH]; cbn [sum_of fold_right]; [lra|].
  fold (sum_of homo_top2_cost a).
  assert (H : homo_top2_cost q <= 0).
  { unfold homo_top2_cost. rewrite opp_IZR.
    assert (0 <= IZR q) by (now apply IZR_le). nra. }
  lra.
Qed.

Lemma for_each_ext_in {A : Type} (f g : Z -> A -> run A) (a : list Z) :
  (forall q, In q a -> forall acc, f q acc = g q acc) ->
  forall acc, for_each f a acc = for_each g a acc.
Proof.
  induction a as [|q a IH]; intros H acc; cbn [for_each]; [reflexivity|].
  rewrite (H q (or_introl eq_refl)).
  destruct (g q acc) as [acc'| |]; cbn [bind]; [|reflexivity..].
  apply IH. intros q' Hq'. apply H. now right.
Qed.

(** The exponent of a read of Phred score q >= 0 is not positive: math.exp
    is inside its range. *)
Lemma phred_exp_in_range (q : Z) :
  (0 <= q)%Z -> Rleb (IZR (- q) * 0.23025850929940458) exp_max = true.
Proof.
  intros Hq. apply Rleb_true. unfold exp_max. rewrite opp_IZR.
  assert (0 <= IZR q) by (now apply IZR_le). nra.
Qed.

Lemma homo_top1_term_ranged (q : Z) (lnL : R) :
  (0 <= q)%Z ->
  homo_top1_term (FM := exact_math_ranged) q lnL
  = homo_top1_term (FM := exact_math) q lnL.
Proof.
  intros Hq. unfold homo_top1_term, math_exp.
  cbn [exp_in_range exact_math_ranged exact_math of_int fmul LN10_tenth
       exact_base].
  now rewrite phred_exp_in_range.
Qed.

Lemma homo_top2_term_ranged (q : Z) (lnL : R) :
  (0 <= q)%Z ->
  homo_top2_term (FM := exact_math_ranged) q lnL
  = homo_top2_term (FM := exact_math) q lnL.
Proof.
  intros Hq. unfold homo_top2_term, math_exp.
  cbn [exp_in_range exact_math_ranged exact_math of_int fmul LN10_tenth
       exact_base].
  now rewrite phred_exp_in_range.
Qed.

(** On Phred scores that are not negative the range check never fires. *)
Lemma CalModel_Homo_ranged
  (top1_bq_T top1_bq_C top2_bq_T top2_bq_C : list Z) :
  Forall (fun q => (0 <= q)%Z) top1_bq_T ->
  Forall (fun q => (0 <= q)%Z) top1_bq_C ->
  Forall (fun q => (0 <= q)%Z) top2_bq_T ->
  Forall (fun q => (0 <= q)%Z) top2_bq_C ->
  CalModel_Homo (FM := exact_math_ranged) top1_bq_T top1_bq_C top2_bq_T
    top2_bq_C
  = CalModel_Homo (FM := exact_math) top1_bq_T top1_bq_C top2_bq_T top2_bq_C.
Proof.
  intros H1T H1C H2T H2C. rewrite Forall_forall in H1T, H1C, H2T, H2C.
  unfold CalModel_Homo, homo_top1_step, homo_top2_step.
  rewrite !for_loop_read.
  rewrite (for_each_ext_in _ (homo_top1_term (FM := exact_math)) top1_bq_T)
    by (intros; apply homo_top1_term_ranged; auto).
  destruct (for_each _ top1_bq_T _) as [l1| |]; cbn [bind]; [|reflexivity..].
  rewrite !for_loop_read.
  rewrite (for_each_ext_in _ (homo_top1_term (FM := exact_math)) top1_bq_C)
    by (intros; apply homo_top1_term_ranged; auto).
  destruct (for_each _ top1_bq_C _) as [l2| |]; cbn [bind]; [|reflexivity..].
  rewrite !for_loop_read.
  rewrite (for_each_ext_in _ (homo_top2_term (FM := exact_math)) top2_bq_T)
    by (intros; apply homo_top2_term_ranged; auto).
  destruct (for_each _ top2_bq_T _) as [l3| |]; cbn [bind]; [|reflexivity..].
  rewrite !for_loop_read.
  rewrite (for_each_ext_in _ (homo_top2_term (FM := exact_math)) top2_bq_C)
    by (intros; apply homo_top2_term_ranged; auto).
  reflexivity.
Qed.

Lemma Forall_phred_weaken (a : list Z) :
  Forall (fun q => (1 <= q)%Z) a -> Forall (fun q => (0 <= q)%Z) a.
Proof. apply Forall_impl. intros q Hq. lia. Qed.



Lemma phred_zero_among (a : list Z) :
  Forall (fun q => (0 <= q)%Z) a ->
  (Forall (fun q => (1 <= q)%Z) a <-> ~ In 0%Z a).
Proof.
  intros H0. rewrite Forall_forall in H0. rewrite Forall_forall. split.
  - intros H Hin. specialize (H _ Hin). lia.
  - intros H q Hq. specialize (H0 q Hq).
    destruct (Z.eq_dec q 0) as [->|Hne]; [contradiction | lia].
Qed.





End ExactHomozygous.

(** ** More on the score converters *)

Section ExactScoresMore.

Local Open Scope R_scope.

Lemma Rtrunc_monotone (x y : R) : 0 <= x <= y -> (Rtrunc x <= Rtrunc y)%Z.
Proof.
  intros [H0 Hxy]. unfold Rtrunc.
  destruct (Rle_dec 0 x) as [_|Hn]; [|lra].
  destruct (Rle_dec 0 y) as [_|Hn]; [|lra].
  destruct (base_Int_part x) as [Hx1 Hx2].
  destruct (base_Int_part y) as [Hy1 Hy2].
  apply Z.lt_succ_r. apply lt_IZR. rewrite succ_IZR. lra.
Qed.

Lemma likelihood_ratio_monotone (d d' : R) :
  d <= d' -> likelihood_ratio d <= likelihood_ratio d'.
Proof.
  intros Hd.
  assert (He : exp d <= exp d').
  { destruct (Rle_lt_or_eq_dec d d' Hd) as [Hlt| ->];
      [left; now apply exp_increasing | lra]. }
  unfold likelihood_ratio. cbv zeta.
  destruct (Rgtb (exp d) 1) eqn:E1; destruct (Rgtb (exp d') 1) eqn:E2;
    repeat match goal with
      | |- context [Rltb ?a 1e-110] => destruct (Rltb a 1e-110) eqn:?
      end;
    repeat match goal with
      | H : Rgtb _ _ = true |- _ => apply Rgtb_true in H
      | H : Rgtb _ _ = false |- _ => apply Rgtb_false in H
      | H : Rltb _ _ = true |- _ => apply Rltb_true in H
      | H : Rltb _ _ = false |- _ => apply Rltb_false in H
      end; lra.
Qed.

Lemma likelihood_ratio_capped (d : R) : 0 <= d -> likelihood_ratio d = 1.
Proof.
  intros Hd. unfold likelihood_ratio.
  pose proof (exp_ineq1_le d) as He.
  destruct (Rgtb (exp d) 1) eqn:E1.
  - now rewrite (proj2 (Rltb_false 1 1e-110)) by lra.
  - apply Rgtb_false in E1.
    rewrite (proj2 (Rltb_false (exp d) 1e-110)) by lra. lra.
Qed.

Lemma ln_2_bounds : 0.6908 < ln 2 < 0.92.
Proof.
  split.
  - apply exp_lt_inv. rewrite exp_ln by lra.
    pose proof (exp_ge_fixed 10 9993253906249999999999999
                  (- (0.6908) / 1024) ltac:(lia)) as H.
    assert (Hz : (5000000000000000000000001
                  <= Nat.iter 10 fixed_square 9993253906249999999999999)%Z)
      by (now vm_compute).
    remember (Nat.iter 10 fixed_square 9993253906249999999999999%Z) as r eqn:Hr.
    clear Hr. apply IZR_le in Hz. rewrite fixed_one_value in H.
    replace (2 ^ 10 * (- (0.6908) / 1024)) with (- (0.6908)) in H by lra.
    assert (H1 : 9993253906249999999999999 / 10000000000000000000000000
                 <= 1 + - (0.6908) / 1024) by lra.
    specialize (H H1). rewrite exp_Ropp in H.
    pose proof (exp_pos 0.6908) as Hp.
    pose proof (Rinv_r (exp 0.6908) ltac:(lra)) as Hinv.
    assert (Hhalf : 1 / 2 < / exp 0.6908) by lra.
    nra.
  - apply exp_lt_inv. rewrite exp_ln by lra.
    replace 0.92 with (0.46 + 0.46) by lra. rewrite exp_plus.
    pose proof (exp_ineq1_le 0.46). nra.
Qed.






End ExactScoresMore.

(** ** Phred scores and the range of math.exp *)

Section RangeCheck.

Local Open Scope R_scope.

Lemma for_loop_ext {A : Type} (f g : Z -> A -> run A) (idx : list Z) :
  (forall i acc, f i acc = g i acc) ->
  forall acc, for_loop f idx acc = for_loop g idx acc.
Proof.
  intros H. induction idx as [|i idx IH]; intros acc; cbn [for_loop];
    [reflexivity|].
  rewrite H. destruct (g i acc) as [acc'| |]; cbn [bind];
    [apply IH | reflexivity..].
Qed.

Lemma read_In (a : list Z) (i q : Z) : read a i = Ok q -> In q a.
Proof.
  unfold read. destruct (nth_error a (Z.to_nat i)) as [q'|] eqn:E;
    [|discriminate].
  intros H. injection H as <-. eapply nth_error_In, E.
Qed.

Lemma top1_term_ranged (tn k q : Z) (lnL : R) :
  (0 <= q)%Z ->
  top1_term (FM := exact_math_ranged) tn k q lnL
  = top1_term (FM := exact_math) tn k q lnL.
Proof.
  intros Hq. unfold top1_term, math_exp.
  cbn [exp_in_range exact_math_ranged exact_math of_int fmul LN10_tenth
       exact_base].
  now rewrite phred_exp_in_range.
Qed.

Lemma top2_term_ranged (tn k q : Z) (lnL : R) :
  (0 <= q)%Z ->
  top2_term (FM := exact_math_ranged) tn k q lnL
  = top2_term (FM := exact_math) tn k q lnL.
Proof.
  intros Hq. unfold top2_term, math_exp.
  cbn [exp_in_range exact_math_ranged exact_math of_int fmul LN10_tenth
       exact_base].
  now rewrite phred_exp_in_range.
Qed.

Lemma top1_step_ranged (tn k : Z) (me : list Z) (i : Z) (lnL : R) :
  Forall (fun q => (0 <= q)%Z) me ->
  top1_step (FM := exact_math_ranged) tn k me i lnL
  = top1_step (FM := exact_math) tn k me i lnL.
Proof.
  intros Hme. unfold top1_step.
  destruct (read me i) as [q| |] eqn:E; cbn [bind]; [|reflexivity..].
  apply top1_term_ranged. rewrite Forall_forall in Hme.
  apply Hme. eapply read_In, E.
Qed.

Lemma top2_step_ranged (tn k : Z) (ne : list Z) (i : Z) (lnL : R) :
  Forall (fun q => (0 <= q)%Z) ne ->
  top2_step (FM := exact_math_ranged) tn k ne i lnL
  = top2_step (FM := exact_math) tn k ne i lnL.
Proof.
  intros Hne. unfold top2_step.
  destruct (read ne i) as [q| |] eqn:E; cbn [bind]; [|reflexivity..].
  apply top2_term_ranged. rewrite Forall_forall in Hne.
  apply Hne. eapply read_In, E.
Qed.

Lemma calculate_ln_ranged (m n tn : Z) (me ne : list Z) (r : R) (k : Z)
  (max_allowed_r : R) :
  Forall (fun q => (0 <= q)%Z) me -> Forall (fun q => (0 <= q)%Z) ne ->
  calculate_ln (FM := exact_math_ranged) m n tn me ne r k max_allowed_r
  = calculate_ln (FM := exact_math) m n tn me ne r k max_allowed_r.
Proof.
  intros Hme Hne. unfold calculate_ln.
  change (ratio_term (FM := exact_math_ranged) tn r k max_allowed_r)
    with (ratio_term (FM := exact_math) tn r k max_allowed_r).
  destruct (ratio_term tn r k max_allowed_r) as [t| |]; cbn [bind];
    [|reflexivity..].
  change (combinatorial_term (FM := exact_math_ranged) tn k)
    with (combinatorial_term (FM := exact_math) tn k).
  destruct (combinatorial_term tn k _) as [l1| |]; cbn [bind];
    [|reflexivity..].
  rewrite (for_loop_ext _ (top1_step (FM := exact_math) tn k me))
    by (intros; now apply top1_step_ranged).
  destruct (for_loop _ (range m) l1) as [l2| |]; cbn [bind];
    [|reflexivity..].
  rewrite (for_loop_ext _ (top2_step (FM := exact_math) tn k ne))
    by (intros; now apply top2_step_ranged).
  reflexivity.
Qed.

Lemma calculate_ln_ranged_ext (m n tn : Z) (me ne : list Z) :
  Forall (fun q => (0 <= q)%Z) me -> Forall (fun q => (0 <= q)%Z) ne ->
  calculate_ln (FM := exact_math_ranged) m n tn me ne
  = calculate_ln (FM := exact_math) m n tn me ne.
Proof.
  intros Hme Hne. do 3 (apply functional_extensionality; intros ?).
  now apply calculate_ln_ranged.
Qed.

Lemma GreedyMaxFunctionNoAS_ranged (fuel : nat) (m n tn : Z)
  (me ne : list Z) :
  Forall (fun q => (0 <= q)%Z) me -> Forall (fun q => (0 <= q)%Z) ne ->
  GreedyMaxFunctionNoAS (FM := exact_math_ranged) fuel m n tn me ne
  = GreedyMaxFunctionNoAS (FM := exact_math) fuel m n tn me ne.
Proof.
  intros Hme Hne.
  unfold GreedyMaxFunctionNoAS, NoAS_down_body, NoAS_up_body.
  now rewrite (calculate_ln_ranged_ext m n tn me ne Hme Hne).
Qed.

Lemma GreedyMaxFunctionAS_ranged (fuel : nat) (m n tn : Z)
  (me ne : list Z) (max_allowed_ar : R) :
  Forall (fun q => (0 <= q)%Z) me -> Forall (fun q => (0 <= q)%Z) ne ->
  GreedyMaxFunctionAS (FM := exact_math_ranged) fuel m n tn me ne
    max_allowed_ar
  = GreedyMaxFunctionAS (FM := exact_math) fuel m n tn me ne max_allowed_ar.
Proof.
  intros Hme Hne.
  unfold GreedyMaxFunctionAS, AS_down_body, AS_up_body.
  now rewrite (calculate_ln_ranged_ext m n tn me ne Hme Hne).
Qed.

Lemma CalModel_Heter_noAS_ranged (fuel : nat)
  (top1_bq_T top1_bq_C top2_bq_T top2_bq_C : list Z) :
  Forall (fun q => (0 <= q)%Z) top1_bq_T ->
  Forall (fun q => (0 <= q)%Z) top2_bq_T ->
  Forall (fun q => (0 <= q)%Z) top1_bq_C ->
  Forall (fun q => (0 <= q)%Z) top2_bq_C ->
  CalModel_Heter_noAS (FM := exact_math_ranged) fuel top1_bq_T top1_bq_C
    top2_bq_T top2_bq_C
  = CalModel_Heter_noAS (FM := exact_math) fuel top1_bq_T top1_bq_C
      top2_bq_T top2_bq_C.
Proof.
  intros H1T H2T H1C H2C. unfold CalModel_Heter_noAS.
  rewrite (GreedyMaxFunctionNoAS_ranged fuel _ _ _ _ _ H1T H2T).
  now rewrite (GreedyMaxFunctionNoAS_ranged fuel _ _ _ _ _ H1C H2C).
Qed.

Lemma CalModel_Heter_AS_ranged (fuel : nat)
  (top1_bq_T top1_bq_C top2_bq_T top2_bq_C : list Z) (max_allowed_ar : R) :
  Forall (fun q => (0 <= q)%Z) top1_bq_T ->
  Forall (fun q => (0 <= q)%Z) top2_bq_T ->
  Forall (fun q => (0 <= q)%Z) top1_bq_C ->
  Forall (fun q => (0 <= q)%Z) top2_bq_C ->
  CalModel_Heter_AS (FM := exact_math_ranged) fuel top1_bq_T top1_bq_C
    top2_bq_T top2_bq_C max_allowed_ar
  = CalModel_Heter_AS (FM := exact_math) fuel top1_bq_T top1_bq_C
      top2_bq_T top2_bq_C max_allowed_ar.
Proof.
  intros H1T H2T H1C H2C. unfold CalModel_Heter_AS.
  rewrite (GreedyMaxFunctionAS_ranged fuel _ _ _ _ _ _ H1T H2T).
  now rewrite (GreedyMaxFunctionNoAS_ranged fuel _ _ _ _ _ H1C H2C).
Qed.

Lemma math_exp_no_overflow (x : R) :
  math_exp (FM := exact_math) x <> Raise OverflowError.
Proof. rewrite math_exp_exact. discriminate. Qed.

End RangeCheck.

Section RangeCheckTheorems.

Local Open Scope R_scope.



(** Below the range: a score under -3082 (not a Phred score at all) takes
    math.exp out of its range. *)
Lemma negative_score_overflows (tn k q : Z) (lnL : R) :
  (q <= -3083)%Z ->
  top1_term (FM := exact_math_ranged) tn k q lnL = Raise OverflowError.
Proof.
  intros Hq. unfold top1_term, math_exp.
  cbn [exp_in_range exact_math_ranged of_int fmul LN10_tenth exact_base].
  rewrite (proj2 (Rleb_false _ _)); [reflexivity|].
  unfold exp_max. rewrite opp_IZR.
  assert (IZR q <= -3083) by (now apply IZR_le). lra.
Qed.

End RangeCheckTheorems.

(** ** NaN likelihoods and Phred score 0 *)

Lemma SFcompare_not_self (a : spec_float) :
  SFeqb a a = false -> a = S754_nan.
Proof.
  unfold SFeqb. destruct a as [s|s| |s m e]; cbn; try reflexivity.
  - discriminate.
  - destruct s; discriminate.
  - change (Pos.compare_cont Eq m m) with (Pos.compare m m).
    rewrite Z.compare_refl, Pos.compare_refl. destruct s; discriminate.
Qed.

Lemma binary64_NaN_unordered (x y : float) :
  PrimFloat.eqb x x = false ->
  PrimFloat.ltb x y = false /\ PrimFloat.ltb y x = false.
Proof.
  rewrite eqb_spec, !ltb_spec. intros H.
  apply SFcompare_not_self in H. rewrite H. unfold SFltb.
  split; [reflexivity|]. now destruct (Prim2SF y).
Qed.



Section PhredZero.

Local Open Scope R_scope.

Lemma calculate_ln_outcome (tn : Z) (me ne : list Z) (r : R) (k : Z)
  (max_allowed_r : R) :
  (1 <= tn)%Z -> (0 <= k <= tn)%Z -> 0 < max_allowed_r < 1 ->
  calculate_ln (shape0 me) (shape0 ne) tn me ne r k max_allowed_r
  = if all_positive (top1_mass tn k) me && all_positive (top2_mass tn k) ne
    then Ok (0 + (IZR k * ln (clamped_ratio r max_allowed_r)
                  + IZR (tn - k) * ln (1 - clamped_ratio r max_allowed_r))
             + ln (C (Z.to_nat tn) (Z.to_nat k))
             + sum_ln (top1_mass tn k) me
             + sum_ln (top2_mass tn k) ne)
    else Raise ValueError.
Proof.
  intros Htn Hk Hmax.
  rewrite calculate_ln_for_each, ratio_term_exact by exact Hmax.
  cbn [bind of_int fadd exact_base].
  rewrite combinatorial_term_exact by exact Hk. cbn [bind].
  rewrite (for_each_log_terms _ (top1_mass tn k))
    by (intros; apply top1_term_exact; lia).
  destruct (all_positive (top1_mass tn k) me); cbn [bind andb];
    [|reflexivity].
  rewrite (for_each_log_terms _ (top2_mass tn k))
    by (intros; apply top2_term_exact; lia).
  reflexivity.
Qed.

Lemma error_prob_0 : error_prob 0 = 1.
Proof.
  unfold error_prob. cbn [Z.opp]. rewrite Rmult_0_l. apply exp_0.
Qed.

Lemma not_all_positive (g : Z -> R) (a : list Z) (q : Z) :
  In q a -> g q <= 0 -> all_positive g a = false.
Proof.
  intros Hin Hq. destruct (all_positive g a) eqn:E; [|reflexivity].
  unfold all_positive in E. rewrite forallb_forall in E.
  specialize (E q Hin). apply Rltb_true in E. lra.
Qed.

Lemma top1_mass_phred_zero (tn : Z) : (1 <= tn)%Z -> top1_mass tn tn 0 = 0.
Proof.
  intros Htn. unfold top1_mass. rewrite error_prob_0.
  assert (IZR tn <> 0) by (apply not_0_IZR; lia). field. assumption.
Qed.

Lemma top2_mass_phred_zero (tn : Z) : (1 <= tn)%Z -> top2_mass tn 0 0 = 0.
Proof.
  intros Htn. unfold top2_mass. rewrite error_prob_0.
  assert (IZR tn <> 0) by (apply not_0_IZR; lia). field. assumption.
Qed.

Lemma calculate_ln_all_top1_phred_zero (tn : Z) (me ne : list Z) (r : R)
  (max_allowed_r : R) :
  (1 <= tn)%Z -> 0 < max_allowed_r < 1 -> In 0%Z me ->
  calculate_ln (shape0 me) (shape0 ne) tn me ne r tn max_allowed_r
  = Raise ValueError.
Proof.
  intros Htn Hmax Hin. rewrite calculate_ln_outcome by (lia || lra).
  rewrite (not_all_positive _ me 0%Z Hin).
  - reflexivity.
  - rewrite top1_mass_phred_zero by exact Htn. lra.
Qed.

Lemma calculate_ln_all_top2_phred_zero (tn : Z) (me ne : list Z) (r : R)
  (max_allowed_r : R) :
  (1 <= tn)%Z -> 0 < max_allowed_r < 1 -> In 0%Z ne ->
  calculate_ln (shape0 me) (shape0 ne) tn me ne r 0 max_allowed_r
  = Raise ValueError.
Proof.
  intros Htn Hmax Hin. rewrite calculate_ln_outcome by (lia || lra).
  rewrite (not_all_positive _ ne 0%Z Hin).
  - now rewrite andb_false_r.
  - rewrite top2_mass_phred_zero by exact Htn. lra.
Qed.

Lemma calculate_ln_Ok_or_ValueError (tn : Z) (me ne : list Z) (r : R)
  (k : Z) (max_allowed_r : R) :
  (1 <= tn)%Z -> (0 <= k <= tn)%Z -> 0 < max_allowed_r < 1 ->
  (exists v, calculate_ln (shape0 me) (shape0 ne) tn me ne r k max_allowed_r
             = Ok v)
  \/ calculate_ln (shape0 me) (shape0 ne) tn me ne r k max_allowed_r
     = Raise ValueError.
Proof.
  intros Htn Hk Hmax. rewrite calculate_ln_outcome by assumption.
  destruct (_ && _); eauto.
Qed.

Lemma shape0_pos (a : list Z) (q : Z) : In q a -> (1 <= shape0 a)%Z.
Proof. unfold shape0. destruct a; [intros [] | cbn [List.length]; lia]. Qed.

Lemma GreedyMaxFunctionNoAS_all_top1_phred_zero (fuel : nat) (me : list Z) :
  In 0%Z me ->
  GreedyMaxFunctionNoAS (F := R) fuel (shape0 me) (shape0 []) (shape0 me)
    me [] = Raise ValueError.
Proof.
  intros Hin. pose proof (shape0_pos me 0%Z Hin) as Hpos.
  unfold GreedyMaxFunctionNoAS. cbn [lit_0_5 lit_0_99 exact_base].
  destruct (Z.eqb_spec (shape0 me) 1) as [E|E].
  - pose proof (calculate_ln_all_top1_phred_zero (shape0 me) me [] 0.5 0.99
                  ltac:(lia) ltac:(lra) Hin) as H1.
    destruct (calculate_ln_Ok_or_ValueError (shape0 me) me [] 0.5 0 0.99)
      as [[dl H0] | H0]; try lia; try lra;
      rewrite E in *; rewrite H0; [|reflexivity].
    cbn [bind]. now rewrite H1.
  - rewrite (proj2 (Z.eqb_neq (shape0 me) 0)) by lia.
    rewrite Z.eqb_refl.
    rewrite calculate_ln_all_top1_phred_zero by (lia || lra || assumption).
    reflexivity.
Qed.

Lemma GreedyMaxFunctionNoAS_all_top2_phred_zero (fuel : nat) (ne : list Z) :
  In 0%Z ne ->
  GreedyMaxFunctionNoAS (F := R) fuel (shape0 []) (shape0 ne) (shape0 ne)
    [] ne = Raise ValueError.
Proof.
  intros Hin. pose proof (shape0_pos ne 0%Z Hin) as Hpos.
  unfold GreedyMaxFunctionNoAS. cbn [lit_0_5 lit_0_99 exact_base].
  destruct (Z.eqb_spec (shape0 ne) 1) as [E|E].
  - rewrite calculate_ln_all_top2_phred_zero by (lia || lra || assumption).
    reflexivity.
  - change (shape0 [] =? 0)%Z with true. cbv iota.
    change (shape0 []) with 0%Z at 3.
    rewrite calculate_ln_all_top2_phred_zero by (lia || lra || assumption).
    reflexivity.
Qed.

Lemma GreedyMaxFunctionAS_all_top1_phred_zero (fuel : nat) (me : list Z)
  (max_allowed_ar : R) :
  0 < max_allowed_ar < 1 -> In 0%Z me ->
  GreedyMaxFunctionAS fuel (shape0 me) (shape0 []) (shape0 me)
    me [] max_allowed_ar = Raise ValueError.
Proof.
  intros Hmax Hin. pose proof (shape0_pos me 0%Z Hin) as Hpos.
  unfold GreedyMaxFunctionAS.
  change (shape0 []) with 0%Z at 1. rewrite Z.add_0_r, Z.eqb_refl.
  cbn [negb lit_0_99 of_int exact_base].
  destruct (Z.eqb_spec (shape0 me) 1) as [E|E].
  - pose proof (calculate_ln_all_top1_phred_zero (shape0 me) me [] 1 0.99
                  ltac:(lia) ltac:(lra) Hin) as H1.
    destruct (calculate_ln_Ok_or_ValueError (shape0 me) me [] 0 0 0.99)
      as [[dl H0] | H0]; try lia; try lra;
      rewrite E in *; rewrite H0; [|reflexivity].
    cbn [bind]. now rewrite H1.
  - rewrite (proj2 (Z.eqb_neq (shape0 me) 0)) by lia.
    rewrite calculate_ln_all_top1_phred_zero by (lia || lra || assumption).
    reflexivity.
Qed.

Lemma GreedyMaxFunctionAS_all_top2_phred_zero (fuel : nat) (ne : list Z)
  (max_allowed_ar : R) :
  0 < max_allowed_ar < 1 -> In 0%Z ne ->
  GreedyMaxFunctionAS fuel (shape0 []) (shape0 ne) (shape0 ne)
    [] ne max_allowed_ar = Raise ValueError.
Proof.
  intros Hmax Hin. pose proof (shape0_pos ne 0%Z Hin) as Hpos.
  unfold GreedyMaxFunctionAS.
  change (shape0 []) with 0%Z at 1. rewrite Z.add_0_l, Z.eqb_refl.
  cbn [negb lit_0_99 of_int exact_base].
  destruct (Z.eqb_spec (shape0 ne) 1) as [E|E].
  - rewrite calculate_ln_all_top2_phred_zero by (lia || lra || assumption).
    reflexivity.
  - change (shape0 [] =? 0)%Z with true. cbv iota.
    change (shape0 []) with 0%Z at 3.
    rewrite calculate_ln_all_top2_phred_zero by (lia || lra || assumption).
    reflexivity.
Qed.





End PhredZero.

(** ** The assertion of GreedyMaxFunctionAS (any arithmetic) *)

Lemma plain_no_AssertionError {A : Type} (c : run A) :
  plain c -> c <> Raise AssertionError.
Proof.
  destruct c as [a|e|]; cbn; [discriminate| |intros []].
  intros He Heq. injection Heq as ->. exact He.
Qed.

Section Assertion.

Context {F : Type} {FB : FloatBase F} {FM : FloatMath F}.

Ltac plain_assert H :=
  apply bind_Raise_inv in H as [H | (? & ? & H)];
  [ exfalso; revert H; apply plain_no_AssertionError;
    first [ apply plain_calculate_ln | apply plain_float_div ] | ].

Lemma while_loop_no_AssertionError {St : Type} (guard : St -> bool)
  (body : St -> run (St * bool)) (fuel : nat) (s : St) :
  (forall s0, plain (body s0)) ->
  while_loop guard body fuel s <> Raise AssertionError.
Proof.
  intros Hbody H. apply while_loop_raise in H as [s0 H].
  revert H. apply plain_no_AssertionError, Hbody.
Qed.


End Assertion.

(** * Local maxima, ratios and errors: what the searches and the evaluators
    guarantee *)

(** ** The returned count as a local maximum *)

Section LocalMaximum.

Local Open Scope R_scope.

Lemma clamped_ratio_in_band (r max_allowed_r : R) :
  1 - max_allowed_r <= r <= max_allowed_r -> clamped_ratio r max_allowed_r = r.
Proof.
  intros Hr. unfold clamped_ratio.
  rewrite (proj2 (Rgtb_false r max_allowed_r)) by lra.
  now rewrite (proj2 (Rltb_false r (1 - max_allowed_r))) by lra.
Qed.

Lemma clamped_ratio_outside (r max_allowed_r : R) :
  r > max_allowed_r \/ r < 1 - max_allowed_r ->
  clamped_ratio r max_allowed_r = max_allowed_r.
Proof.
  intros Hr. unfold clamped_ratio.
  destruct Hr as [Hr|Hr].
  - now rewrite (proj2 (Rgtb_true r max_allowed_r)) by lra.
  - rewrite (proj2 (Rltb_true r (1 - max_allowed_r))) by lra.
    now rewrite orb_true_r.
Qed.

Lemma C_2_1 : C 2 1 = 2.
Proof. unfold C. simpl. lra. Qed.

Lemma C_n_0 (n : nat) : C n 0 = 1.
Proof.
  unfold C. rewrite Nat.sub_0_r. cbn [fact].
  pose proof (INR_fact_neq_0 n). simpl INR. field. assumption.
Qed.

Lemma C_n_n (n : nat) : C n n = 1.
Proof.
  unfold C. rewrite Nat.sub_diag. cbn [fact].
  pose proof (INR_fact_neq_0 n). simpl INR. field. assumption.
Qed.

Lemma error_prob_lower (q : Z) :
  1 - IZR q * 0.23025850929940458 <= error_prob q.
Proof.
  unfold error_prob. rewrite opp_IZR.
  pose proof (exp_ineq1_le (- IZR q * 0.23025850929940458)). lra.
Qed.




End LocalMaximum.

(** ** The allele ratio of GreedyMaxFunctionAS *)

Section AlleleRatio.

Local Open Scope R_scope.




End AlleleRatio.

(** ** When the heterozygous evaluators raise, and their BIC *)

Section EvaluatorClaims.

Local Open Scope R_scope.






End EvaluatorClaims.
